(** * AutoStatsCan: the schema-evolving ingestion engine of [pull.js]

    A shallow embedding of the ingestion script and the properties its
    specification states about it.

    Modelling conventions.
    - A JavaScript string is the list of its UTF-16 code units ([jsstring]);
      the regular expressions of the script carry no [u] flag, so they work
      on code units, and so do [length], [slice], [indexOf] and [trim].
    - A plain object used as a dictionary ([rawEntries]) is a finite map
      over its own properties, read through to [Object.prototype]: a name
      that the object does not own gives what the prototype holds under it
      ([constructor], [toString], [__proto__], ...), and a text assigned
      under [__proto__] goes to the accessor of the prototype and makes no
      property. [existingCols] is a finite set, [remapCounts] an object
      without prototype.
    - The relational store, its driver, the HTTP client, the file system and
      the CSV parser are collaborators: their answers are fields of a
      [World].
    - [issued] lists the statements in the order in which the script hands
      them to the driver. A statement that the script awaits has run when
      the script goes on. The inserts of the [data] handler are not awaited:
      each is in flight from the moment it is sent, and the world decides
      when it comes back and in which order, between two events of the
      stream, before or after the [COMMIT] of the [end] handler. What is
      still in flight when the handlers of a dataset are done comes back
      before the run turns to the next dataset.
    - A promise is run to its end before the next step: it ends [Resolved]
      or [Rejected], or stays [Pending] when no handler is left to settle it
      or an error leaves an event handler unhandled.
    - Writing the temporary copy of a payload always succeeds, and a path
      is what the file system is asked about, resolved or not. *)

From Stdlib Require Import String Ascii NArith.
From stdpp Require Import gmap list fin_maps strings.

Local Open Scope N_scope.

(** ** JavaScript strings *)

Module JsString.

Abbreviation jsstring := (list N).

(** An ASCII literal as a JavaScript string. *)
Definition js (s : string) : jsstring :=
  N_of_ascii <$> list_ascii_of_string s.

Arguments js _%_string.

(** Literals joined by line feeds. *)
Fixpoint js_lines (ls : list string) : jsstring :=
  match ls with
  | [] => []
  | [l] => js l
  | l :: ls' => js l ++ 10 :: js_lines ls'
  end.

Definition in_range (lo hi c : N) : bool := (lo <=? c) && (c <=? hi).

Definition is_upper (c : N) : bool := in_range 65 90 c.
Definition is_lower (c : N) : bool := in_range 97 122 c.
Definition is_digit (c : N) : bool := in_range 48 57 c.

(** The class [[a-zA-Z0-9_]]. *)
Definition is_word (c : N) : bool :=
  is_lower c || is_upper c || is_digit c || (c =? 95).

Definition underscore : N := 95.
Definition LF : N := 10.
Definition CR : N := 13.

(** [WhiteSpace] and [LineTerminator] of ECMAScript, the code units that
    [trim] and [trimStart] remove. *)
Definition is_js_space (c : N) : bool :=
  in_range 9 13 c || (c =? 32) || (c =? 160) || (c =? 5760)
  || in_range 8192 8202 c || (c =? 8232) || (c =? 8233) || (c =? 8239)
  || (c =? 8287) || (c =? 12288) || (c =? 65279).

(** [LineTerminator]: what the [m] flag lets [^] follow. *)
Definition is_line_terminator (c : N) : bool :=
  (c =? 10) || (c =? 13) || (c =? 8232) || (c =? 8233).

Fixpoint trimStart (s : jsstring) : jsstring :=
  match s with
  | c :: r => if is_js_space c then trimStart r else s
  | [] => []
  end.

Definition trimEnd (s : jsstring) : jsstring := reverse (trimStart (reverse s)).

Definition trim (s : jsstring) : jsstring := trimEnd (trimStart s).

(** [s.indexOf('\n') !== -1] *)
Definition has_newline (s : jsstring) : bool := bool_decide (LF ∈ s).

Fixpoint starts_with (p s : jsstring) : bool :=
  match p, s with
  | [], _ => true
  | a :: p', b :: s' => (a =? b) && starts_with p' s'
  | _ :: _, [] => false
  end.

(** [s.includes(p)] *)
Fixpoint includes (p s : jsstring) : bool :=
  starts_with p s ||
  match s with
  | [] => false
  | _ :: s' => includes p s'
  end.

End JsString.
Import JsString.

(** ** NameSanitizer *)

(** [name.replace(/[^a-zA-Z0-9_]/g, '_')] *)
Definition sanitize_unit (c : N) : N := if is_word c then c else underscore.

Definition sanitizeTableName (name : jsstring) : jsstring :=
  sanitize_unit <$> name.

(** The script repeats the same replacement inline for every header and
    every rule name. *)
Definition sanitizeHeader (h : jsstring) : jsstring := sanitizeTableName h.

(** ** PreambleStripper *)

(** [fullText.replace(/\r\n/g, '\n')] *)
Fixpoint replace_crlf (s : jsstring) : jsstring :=
  match s with
  | [] => []
  | c :: r =>
      match r with
      | d :: r' =>
          if (c =? CR) && (d =? LF) then LF :: replace_crlf r'
          else c :: replace_crlf r
      | [] => [c]
      end
  end.

(** [.replace(/\r/g, '\n')] *)
Definition replace_cr (s : jsstring) : jsstring :=
  (λ c, if c =? CR then LF else c) <$> s.

(** [fullText.replace(/\r\n/g, '\n').replace(/\r/g, '\n')] *)
Definition normalize_newlines (fullText : jsstring) : jsstring :=
  replace_cr (replace_crlf fullText).

(** The regular expression [/^[ \t]*Q?OBSERVATIONS Q?[ \t]*\n/im], where Q
    stands for the double quote and the space before the second Q is not in
    the pattern, as a backtracking matcher in continuation-passing style: every piece takes
    the matcher of what follows it, tries its greedy choice first and falls
    back when the continuation fails. A match returns the text after it,
    [text.slice(m.index + m[0].length)]. *)
Module MarkerRegex.

Definition matcher := jsstring → option jsstring.

Definition is_blank (c : N) : bool := (c =? 32) || (c =? 9).
Definition quote : N := 34.

(** Canonicalize of a code unit under [i] without [u]: upper case, and a
    code unit outside ASCII never becomes an ASCII one. The pattern has
    ASCII letters only, so the ASCII part decides a match. *)
Definition to_upper (c : N) : N := if is_lower c then c - 32 else c.
Definition unit_eq_ci (p c : N) : bool := to_upper p =? to_upper c.

(** [[ \t]*] *)
Fixpoint star_blank (k : matcher) (s : jsstring) : option jsstring :=
  match s with
  | c :: r =>
      if is_blank c then
        match star_blank k r with
        | Some rest => Some rest
        | None => k s
        end
      else k s
  | [] => k []
  end.

(** An optional double quote. *)
Definition opt_quote (k : matcher) (s : jsstring) : option jsstring :=
  match s with
  | c :: r =>
      if c =? quote then
        match k r with
        | Some rest => Some rest
        | None => k s
        end
      else k s
  | [] => k []
  end.

(** A literal, up to case. *)
Fixpoint literal_ci (p : jsstring) (k : matcher) (s : jsstring) : option jsstring :=
  match p with
  | [] => k s
  | a :: p' =>
      match s with
      | c :: r => if unit_eq_ci a c then literal_ci p' k r else None
      | [] => None
      end
  end.

(** [\n], the end of the pattern. *)
Definition newline (s : jsstring) : option jsstring :=
  match s with
  | c :: r => if c =? LF then Some r else None
  | [] => None
  end.

Definition OBSERVATIONS : jsstring := js "OBSERVATIONS".

(** The pattern after its [^]. *)
Definition match_here : matcher :=
  star_blank (opt_quote (literal_ci OBSERVATIONS (opt_quote (star_blank newline)))).

(** [text.match(re)]: the leftmost position where [^] holds (the start,
    or just after a line terminator) and the pattern matches. *)
Fixpoint search (at_line_start : bool) (s : jsstring) : option jsstring :=
  match (if at_line_start then match_here s else None) with
  | Some rest => Some rest
  | None =>
      match s with
      | c :: r => search (is_line_terminator c) r
      | [] => None
      end
  end.

End MarkerRegex.

(** [extractObservationsCSV]; [None] is the [null] it returns. *)
Definition extractObservationsCSV (fullText : jsstring) : option jsstring :=
  let text := normalize_newlines fullText in
  match MarkerRegex.search true text with
  | None => None
  | Some rest =>
      let tail := trimStart rest in
      if has_newline tail then Some tail else None
  end.

(** What both ingesters parse: [if (obs) raw = obs]. A string is truthy
    when it is not empty. *)
Definition payload (fullText : jsstring) : jsstring :=
  match extractObservationsCSV fullText with
  | Some (c :: obs) => c :: obs
  | _ => fullText
  end.

(** *** The stripper in the words of the specification *)

Module PreambleSpec.
Import MarkerRegex.

(** A line and what ends it ([None] at the end of the text). *)
Definition line : Type := jsstring * option N.

Fixpoint lines (s : jsstring) : list line :=
  match s with
  | [] => [([], None)]
  | c :: r =>
      if is_line_terminator c then ([], Some c) :: lines r
      else
        match lines r with
        | (l, t) :: rest => (c :: l, t) :: rest
        | [] => [([c], None)]
        end
  end.

Fixpoint unlines (ls : list line) : jsstring :=
  match ls with
  | [] => []
  | (l, Some t) :: rest => l ++ t :: unlines rest
  | (l, None) :: rest => l ++ unlines rest
  end.

Fixpoint skip_blanks (s : jsstring) : jsstring :=
  match s with
  | c :: r => if is_blank c then skip_blanks r else s
  | [] => []
  end.

Definition strip_blanks (s : jsstring) : jsstring :=
  reverse (skip_blanks (reverse (skip_blanks s))).

Definition drop_quote (s : jsstring) : jsstring :=
  match s with
  | c :: r => if c =? quote then r else s
  | [] => []
  end.

Definition unquote (s : jsstring) : jsstring :=
  reverse (drop_quote (reverse (drop_quote s))).

(** The sole content of the line, after trimming and optional quoting,
    is the marker in any case. *)
Definition is_marker_line (l : jsstring) : bool :=
  bool_decide (to_upper <$> unquote (strip_blanks l) = OBSERVATIONS).

(** The lines after the first marker line. *)
Fixpoint after_marker (ls : list line) : option (list line) :=
  match ls with
  | [] => None
  | (l, _) :: rest => if is_marker_line l then Some rest else after_marker rest
  end.

(** The same, for marker lines that a newline ends. *)
Fixpoint after_marker_nl (ls : list line) : option (list line) :=
  match ls with
  | [] => None
  | (l, t) :: rest =>
      if is_marker_line l && bool_decide (t = Some LF) then Some rest
      else after_marker_nl rest
  end.

(** If absent, the stripper is a no-op. If present, the payload is
    everything strictly after that line, with leading blank/whitespace
    lines trimmed. *)
Definition stripper_spec (fullText : jsstring) : option jsstring :=
  match after_marker (lines (normalize_newlines fullText)) with
  | None => None
  | Some rest => Some (trimStart (unlines rest))
  end.

End PreambleSpec.


(** ** The relational store, the console and the collaborators *)

(** A stored row: column name to text; an absent column is NULL. *)
Abbreviation db_row := (gmap jsstring jsstring).

Record table : Type := Table {
  columns : list jsstring;
  rows : list db_row;
}.

(** The statements the script sends to the store. *)
Inductive stmt : Type :=
  | CreateTableIfNotExists (t : jsstring) (cols : list jsstring)
  | TableInfo (t : jsstring)
  | AddColumn (t col : jsstring)
  | BeginImmediate
  | DeleteFrom (t : jsstring)
  | InsertInto (t : jsstring) (r : db_row)
  | Commit
  | Rollback.

(** What [console.log] and [console.error] print. *)
Inductive log_line : Type :=
  | LogFetching (index : nat) (name : jsstring)
  | LogFetchFailed (name : jsstring)
  | LogDetectedWrapped
  | LogNoHeaders (name : jsstring)
  | LogSchemaChange (col t : jsstring)
  | LogCleared (t : jsstring)
  | LogRemapNotice (t inKey tgtKey : jsstring)
  | LogExecutingSql (s : stmt)
  | LogInsertFailed (t : jsstring)
  | LogRemapTotal (t k : jsstring) (count : nat)
  | LogInserted (t : jsstring)
  | LogParseError (t : jsstring)
  | LogErrorProcessing (name : jsstring)
  | LogLocalNotFound (path name : jsstring)
  | LogUsingLocal (name path : jsstring).

(** What a promise is rejected with. A failed download is not among them:
    [downloadCsvToSqlite] prints it and returns. *)
Inductive error : Type :=
  | ReadThrew
  | NoHeaders
  | SqlError (s : stmt)
  | ParserError.

(** What the HTTP client answers: [fetch] throws, or gives a response with
    its [ok] flag and its text. *)
Inductive fetch_answer : Type :=
  | FetchThrows
  | Response (ok : bool) (text : jsstring).

(** A parsed row as [Object.entries(row)] lists it; [None] is a value that
    is [null] or [undefined]. *)
Abbreviation raw_row := (list (jsstring * option jsstring)).

Inductive stream_end : Type := StreamEnd | StreamError.

(** The events of one parse: the [headers] event if there is one, the
    [data] events in order, and then [end] or [error]. *)
Record csv_events : Type := CsvEvents {
  ev_headers : option (list jsstring);
  ev_rows : list raw_row;
  ev_end : stream_end;
}.

(** The collaborators. [db_fails] says, from the statements sent so far,
    whether the store refuses the next one, for any reason it may have.
    [lands] is the thread pool of the driver: from the statements sent so
    far and the inserts in flight, the places in the pool of those that come
    back now, one after the other, each place counted in what is left of the
    pool. [object_prototype] gives, for a name that [Object.prototype]
    holds, the text of the value, which is what the driver binds for it. *)
Record World : Type := {
  db_fails : list stmt → stmt → bool;
  lands : list stmt → list stmt → list nat;
  object_prototype : jsstring → option jsstring;
  fetch : jsstring → fetch_answer;
  existsSync : jsstring → bool;
  readFileSync : jsstring → option jsstring;
  csvParser : jsstring → csv_events;
  automigrations : list (jsstring * jsstring);
}.

(** The store and the console. [txn] is the content at the [BEGIN] of the
    open transaction; [issued] has the latest statement first. *)
Record state : Type := State {
  tabs : gmap jsstring table;
  txn : option (gmap jsstring table);
  issued : list stmt;
  console : list log_line;
}.

Definition initial_state : state :=
  {| tabs := ∅; txn := None; issued := []; console := [] |}.

Inductive result (A : Type) : Type :=
  | Ok (a : A)
  | Err (e : error).
Arguments Ok {A} a.
Arguments Err {A} e.

(** An [await]ed computation: it returns or throws, and changes the state. *)
Definition M (A : Type) : Type := state → result A * state.

#[global] Instance M_ret : MRet M := λ A a st, (Ok a, st).
#[global] Instance M_bind : MBind M := λ A B k m st,
  match m st with
  | (Ok a, st') => k a st'
  | (Err e, st') => (Err e, st')
  end.

Definition log (l : log_line) : M unit := λ st,
  (Ok (), {| tabs := tabs st; txn := txn st; issued := issued st;
             console := console st ++ [l] |}).

Definition inspect {A : Type} (f : state → A) : M A := λ st, (Ok (f st), st).

(** [try { body } catch (e) { handler; throw e }] *)
Definition on_error {A : Type} (body : M A) (handler : M unit) : M A := λ st,
  match body st with
  | (Ok a, st') => (Ok a, st')
  | (Err e, st') =>
      match handler st' with
      | (Ok _, st'') => (Err e, st'')
      | (Err e', st'') => (Err e', st'')
      end
  end.

Definition columns_of (tb : gmap jsstring table) (t : jsstring) : list jsstring :=
  match tb !! t with
  | Some x => columns x
  | None => []
  end.

Definition rows_of (tb : gmap jsstring table) (t : jsstring) : list db_row :=
  match tb !! t with
  | Some x => rows x
  | None => []
  end.

(** The effect of a statement that the store accepts. *)
Definition apply_stmt (s : stmt) (tb : gmap jsstring table)
    (tx : option (gmap jsstring table))
  : gmap jsstring table * option (gmap jsstring table) :=
  match s with
  | CreateTableIfNotExists t cols =>
      match tb !! t with
      | Some _ => (tb, tx)
      | None => (<[t := Table cols []]> tb, tx)
      end
  | TableInfo _ => (tb, tx)
  | AddColumn t col =>
      (alter (λ x, Table (columns x ++ [col]) (rows x)) t tb, tx)
  | BeginImmediate => (tb, Some tb)
  | DeleteFrom t => (alter (λ x, Table (columns x) []) t tb, tx)
  | InsertInto t r => (alter (λ x, Table (columns x) (rows x ++ [r])) t tb, tx)
  | Commit => (tb, None)
  | Rollback => (default tb tx, None)
  end.

(** An insert in flight: its relation, its row, and whether the store
    refuses it. *)
Record flight : Type := Flight {
  fl_table : jsstring;
  fl_row : db_row;
  fl_refused : bool;
}.

Definition flight_stmt (fl : flight) : stmt := InsertInto (fl_table fl) (fl_row fl).

Section Ingestion.
Context (w : World).

(** [db.run(sql, cb)] and [db.all(sql, cb)] behind a promise: a refused
    statement changes nothing and rejects. *)
Definition execSQL (s : stmt) : M unit := λ st,
  if db_fails w (issued st) s
  then (Err (SqlError s),
        {| tabs := tabs st; txn := txn st; issued := s :: issued st;
           console := console st |})
  else
    let '(tb, tx) := apply_stmt s (tabs st) (txn st) in
    (Ok (), {| tabs := tb; txn := tx; issued := s :: issued st;
               console := console st |}).

(** [getExistingColumns]: the names [PRAGMA table_info] lists, as a Set. *)
Definition getExistingColumns (sanitizedTableName : jsstring) : M (gset jsstring) :=
  execSQL (TableInfo sanitizedTableName) ;;
  inspect (λ st, list_to_set (columns_of (tabs st) sanitizedTableName)).

(** The loop of [ensureTableSchema] over the sanitized headers. *)
Fixpoint add_missing_columns (sanitizedTableName : jsstring)
    (cols : list jsstring) (existingCols : gset jsstring) : M (gset jsstring) :=
  match cols with
  | [] => mret existingCols
  | col :: rest =>
      if decide (col ∈ existingCols)
      then add_missing_columns sanitizedTableName rest existingCols
      else
        log (LogSchemaChange col sanitizedTableName) ;;
        execSQL (AddColumn sanitizedTableName col) ;;
        add_missing_columns sanitizedTableName rest ({[col]} ∪ existingCols)
  end.

Definition ensureTableSchema (sanitizedTableName : jsstring)
    (incomingHeaders : list jsstring) : M (gset jsstring) :=
  let sanitizedIncoming := sanitizeHeader <$> incomingHeaders in
  execSQL (CreateTableIfNotExists sanitizedTableName sanitizedIncoming) ;;
  existingCols ← getExistingColumns sanitizedTableName ;
  add_missing_columns sanitizedTableName sanitizedIncoming existingCols.

(** *** ColumnRemapper *)

(** [remapKey]: the two names around a [>]. *)
Definition remapKey (a b : jsstring) : jsstring := a ++ 62 :: b.

(** [remapCounts[k] = (remapCounts[k] || 0) + 1] on an object without
    prototype; its entries keep the order in which the keys came. *)
Fixpoint bump (k : jsstring) (counts : list (jsstring * nat)) : list (jsstring * nat) :=
  match counts with
  | [] => [(k, 1%nat)]
  | (k', n) :: rest =>
      if decide (k' = k) then (k', S n) :: rest else (k', n) :: bump k rest
  end.


(** [obj[k]] on a plain object: its own property, or else what
    [Object.prototype] holds under the name. [None] is [undefined]. *)
Definition get_prop (obj : gmap jsstring jsstring) (k : jsstring)
  : option jsstring :=
  match obj !! k with
  | Some v => Some v
  | None => object_prototype w k
  end.

(** The name under which the prototype has an accessor, when it has it. *)
Definition accessor (k : jsstring) : bool :=
  bool_decide (k = js "__proto__")
  && bool_decide (is_Some (object_prototype w k)).

(** [obj[k] = v] on a plain object. Under [__proto__] the assignment goes
    to the setter of the prototype, which does nothing with a text, and the
    object gets no property. *)
Definition set_prop (k v : jsstring) (obj : gmap jsstring jsstring)
  : gmap jsstring jsstring :=
  if accessor k then obj else <[k := v]> obj.

(** What the loop over the rules reads and writes: the row being built,
    the counters and the set of pairs already announced (both live as long
    as the dataset), and the notices it prints. *)
Record remapping : Type := Remapping {
  rawEntries : gmap jsstring jsstring;
  remapCounts : list (jsstring * nat);
  remapLoggedOnce : gset jsstring;
  notices : list log_line;
}.

(** The test of the [if] in the loop:
    [rawEntries[inKey] !== undefined && existingCols.has(tgtKey)]. *)
Definition rule_fires (existingCols : gset jsstring)
    (entries : gmap jsstring jsstring) (inKey tgtKey : jsstring) : bool :=
  bool_decide (is_Some (get_prop entries inKey))
  && bool_decide (tgtKey ∈ existingCols).

(** The body of [for (const [incoming, target] of Object.entries(automigrations))]. *)
Definition remap_rule (sanitizedTableName : jsstring) (existingCols : gset jsstring)
    (acc : remapping) (rule : jsstring * jsstring) : remapping :=
  let inKey := sanitizeHeader rule.1 in
  let tgtKey := sanitizeHeader rule.2 in
  if rule_fires existingCols (rawEntries acc) inKey tgtKey then
    let k := remapKey inKey tgtKey in
    let copied :=
      match get_prop (rawEntries acc) tgtKey, get_prop (rawEntries acc) inKey with
      | None, Some v => set_prop tgtKey v (rawEntries acc)
      | _, _ => rawEntries acc
      end in
    {| rawEntries := delete inKey copied;
       remapCounts := bump k (remapCounts acc);
       remapLoggedOnce := {[k]} ∪ remapLoggedOnce acc;
       notices :=
         notices acc ++
         (if decide (k ∈ remapLoggedOnce acc) then []
          else [LogRemapNotice sanitizedTableName inKey tgtKey]) |}
  else acc.

Definition remap (sanitizedTableName : jsstring) (existingCols : gset jsstring)
    (acc : remapping) : remapping :=
  foldl (remap_rule sanitizedTableName existingCols) acc (automigrations w).

(** *** RowLoader *)

(** The [reduce] that builds [rawEntries] from a parsed row. *)
Definition keep_field (acc : gmap jsstring jsstring)
    (kv : jsstring * option jsstring) : gmap jsstring jsstring :=
  let v := default [] kv.2 in
  if bool_decide (trim v = []) then acc else set_prop (sanitizeHeader kv.1) v acc.

Definition build_entries (row : raw_row) : gmap jsstring jsstring :=
  foldl keep_field ∅ row.

(** The counters and the announced pairs of one dataset, and its inserts
    that are in flight. *)
Record remap_env : Type := RemapEnv {
  env_counts : list (jsstring * nat);
  env_logged : gset jsstring;
  env_flying : list flight;
}.

Definition empty_env : remap_env := RemapEnv [] ∅ [].

Definition log_all (ls : list log_line) : M unit := λ st,
  (Ok (), {| tabs := tabs st; txn := txn st; issued := issued st;
             console := console st ++ ls |}).

(** [db.run(insertQuery, values, cb)], which nothing awaits: the statement
    is handed to the driver and is in flight; whether the store will refuse
    it is settled by the statements sent before it. *)
Definition insert_row (sanitizedTableName : jsstring)
    (entries : gmap jsstring jsstring) (flying : list flight)
  : M (list flight) := λ st,
  (Ok (flying ++
       [Flight sanitizedTableName entries
          (db_fails w (issued st) (InsertInto sanitizedTableName entries))]),
   {| tabs := tabs st; txn := txn st;
      issued := InsertInto sanitizedTableName entries :: issued st;
      console := console st |}).

(** An insert comes back: the row is in the relation, or the callback prints
    the statement and the error. Nothing is thrown. *)
Definition land (fl : flight) (st : state) : state :=
  if fl_refused fl then
    {| tabs := tabs st; txn := txn st; issued := issued st;
       console := console st ++
         [LogExecutingSql (flight_stmt fl); LogInsertFailed (fl_table fl)] |}
  else
    {| tabs := (apply_stmt (flight_stmt fl) (tabs st) (txn st)).1;
       txn := txn st; issued := issued st; console := console st |}.

(** The inserts at the given places of the pool come back, one after the
    other; the result is what stays in flight. *)
Fixpoint land_picks (picks : list nat) (flying : list flight) (st : state)
  : list flight * state :=
  match picks with
  | [] => (flying, st)
  | i :: rest =>
      match flying !! i with
      | Some fl => land_picks rest (delete i flying) (land fl st)
      | None => land_picks rest flying st
      end
  end.

(** The inserts that come back now. *)
Definition land_some (flying : list flight) (st : state) : list flight * state :=
  land_picks (lands w (issued st) (flight_stmt <$> flying)) flying st.

(** Inserts come back one after the other. *)
Definition land_list (landed : list flight) (st : state) : state :=
  foldl (λ acc fl, land fl acc) st landed.

(** All the inserts in flight come back: those that the world picks, and
    then the others. *)
Definition land_all (flying : list flight) (st : state) : state :=
  let '(rest, st') := land_some flying st in
  land_list rest st'.

(** The [data] handler, the same text in both ingesters. *)
Definition on_data (sanitizedTableName : jsstring) (existingCols : gset jsstring)
    (env : remap_env) (row : raw_row) : M remap_env :=
  let r := remap sanitizedTableName existingCols
             (Remapping (build_entries row) (env_counts env) (env_logged env) []) in
  log_all (notices r) ;;
  flying ← (if decide (rawEntries r = ∅) then mret (env_flying env)
            else insert_row sanitizedTableName (rawEntries r) (env_flying env)) ;
  mret (RemapEnv (remapCounts r) (remapLoggedOnce r) flying).

(** Between two events of the stream, inserts may come back. *)
Definition between_events (env : remap_env) : M remap_env := λ st,
  let '(flying, st') := land_some (env_flying env) st in
  (Ok (RemapEnv (env_counts env) (env_logged env) flying), st').

(** The [data] events of a dataset, in order. *)
Fixpoint stream_rows (sanitizedTableName : jsstring) (existingCols : gset jsstring)
    (env : remap_env) (rws : list raw_row) : M remap_env :=
  match rws with
  | [] => mret env
  | row :: rest =>
      env' ← on_data sanitizedTableName existingCols env row ;
      env'' ← between_events env' ;
      stream_rows sanitizedTableName existingCols env'' rest
  end.

(** [const overWriteMode = true] *)
Definition overWriteMode : bool := true.

(** The overwrite block of the [headers] handler, the same text in both
    ingesters. *)
Definition clear_for_overwrite (sanitizedTableName : jsstring) : M unit :=
  if overWriteMode then
    execSQL BeginImmediate ;;
    on_error
      (execSQL (DeleteFrom sanitizedTableName) ;;
       log (LogCleared sanitizedTableName))
      (execSQL Rollback)
  else mret ().

(** How the promise of an ingester ends. [Pending]: it never settles,
    because no handler is left to settle it or because the error left an
    event handler as an unhandled rejection. *)
Inductive settled : Type :=
  | Resolved
  | Rejected (e : error)
  | Pending.

(** The [headers] handler up to the registration of the [data] handler. *)
Definition prepare (sanitizedTableName : jsstring) (headers : list jsstring)
  : M (gset jsstring) :=
  existingCols ← ensureTableSchema sanitizedTableName headers ;
  clear_for_overwrite sanitizedTableName ;;
  mret existingCols.

Definition log_totals (sanitizedTableName : jsstring)
    (counts : list (jsstring * nat)) : M unit :=
  log_all ((λ kc, LogRemapTotal sanitizedTableName kc.1 kc.2) <$> counts).

(** The [end] handler of [ingestLocalCsv]. *)
Definition local_on_end (sanitizedTableName : jsstring) (env : remap_env) : M unit :=
  (if overWriteMode then execSQL Commit else mret ()) ;;
  log_totals sanitizedTableName (env_counts env) ;;
  log (LogInserted sanitizedTableName).

(** The [end] handler of [downloadCsvToSqlite]. *)
Definition remote_on_end (sanitizedTableName : jsstring) (env : remap_env) : M unit :=
  (if overWriteMode then execSQL Commit else mret ()) ;;
  log (LogInserted sanitizedTableName).

Definition settle {A : Type} (r : result A * state) : settled * state :=
  match r with
  | (Ok _, st) => (Resolved, st)
  | (Err _, st) => (Pending, st)
  end.

(** The handler of the event that ends the stream, and then the inserts
    that are still in flight. *)
Definition wind_up (env : remap_env) (handler : state → settled * state)
    (st : state) : settled * state :=
  let '(out, st') := handler st in
  (out, land_all (env_flying env) st').

(** The promise around the parser in [ingestLocalCsv]. *)
Definition local_promise (sanitizedTableName : jsstring) (ev : csv_events)
    (st : state) : settled * state :=
  match ev_headers ev with
  | None =>
      match ev_end ev with
      | StreamError => (Rejected ParserError, st)
      | StreamEnd => (Pending, st)
      end
  | Some headers =>
      if decide (headers = []) then (Rejected NoHeaders, st)
      else
        match prepare sanitizedTableName headers st with
        | (Err e, st1) => (Rejected e, st1)
        | (Ok existingCols, st1) =>
            match stream_rows sanitizedTableName existingCols empty_env
                    (ev_rows ev) st1 with
            | (Err e, st2) => (Pending, st2)
            | (Ok env, st2) =>
                wind_up env
                  (match ev_end ev with
                   | StreamError => λ st3, (Rejected ParserError, st3)
                   | StreamEnd =>
                       λ st3, settle (local_on_end sanitizedTableName env st3)
                   end) st2
            end
        end
  end.

Definition detected (fullText : jsstring) : bool :=
  match extractObservationsCSV fullText with
  | Some (_ :: _) => true
  | _ => false
  end.

Definition ingestLocalCsv (tableName csvPath : jsstring) (st : state)
  : settled * state :=
  let sanitizedTableName := sanitizeTableName tableName in
  match readFileSync w csvPath with
  | None => (Rejected ReadThrew, st)
  | Some raw =>
      let st0 :=
        if detected raw then (log LogDetectedWrapped st).2 else st in
      local_promise sanitizedTableName (csvParser w (payload raw)) st0
  end.

(** The promise around the parser in [downloadCsvToSqlite]. *)
Definition remote_promise (name sanitizedTableName : jsstring) (ev : csv_events)
    (st : state) : settled * state :=
  match ev_headers ev with
  | None =>
      match ev_end ev with
      | StreamError => (Rejected ParserError, (log (LogParseError sanitizedTableName) st).2)
      | StreamEnd => (Pending, st)
      end
  | Some headers =>
      if decide (headers = [])
      then (Rejected NoHeaders, (log (LogNoHeaders name) st).2)
      else
        match prepare sanitizedTableName headers st with
        | (Err e, st1) => (Rejected e, st1)
        | (Ok existingCols, st1) =>
            match stream_rows sanitizedTableName existingCols empty_env
                    (ev_rows ev) st1 with
            | (Err e, st2) => (Pending, st2)
            | (Ok env, st2) =>
                wind_up env
                  (match ev_end ev with
                   | StreamError =>
                       λ st3, (Rejected ParserError,
                               (log (LogParseError sanitizedTableName) st3).2)
                   | StreamEnd =>
                       λ st3, settle (remote_on_end sanitizedTableName env st3)
                   end) st2
            end
        end
  end.

Definition downloadCsvToSqlite (name url : jsstring) (index : nat) (st : state)
  : settled * state :=
  let sanitizedTableName := sanitizeTableName name in
  let st0 := (log (LogFetching index name) st).2 in
  match fetch w url with
  | FetchThrows | Response false _ =>
      (Resolved, (log (LogFetchFailed name) st0).2)
  | Response true data =>
      let st1 :=
        if detected data then (log LogDetectedWrapped st0).2 else st0 in
      remote_promise name sanitizedTableName (csvParser w (payload data)) st1
  end.

(** *** IngestionOrchestrator *)

(** [s.includes('://')] *)
Definition isRemoteUrl (s : jsstring) : bool := includes (js "://") s.

(** A run of the loop of the main function: the names it entered in
    [indexMap], whether it reached the end of the list, and the state. *)
Record run : Type := Run {
  visited : list jsstring;
  completed : bool;
  final : state;
}.

Definition enter (name : jsstring) (r : run) : run :=
  Run (name :: visited r) (completed r) (final r).

(** The [for] loop over [Object.entries(listToGet).entries()]. A rejection
    of the awaited call that nothing catches ends the function, and so
    does a promise that stays pending. *)
Fixpoint main_loop (index : nat) (listToGet : list (jsstring * jsstring))
    (st : state) : run :=
  match listToGet with
  | [] => Run [] true st
  | (name, urlOrPath) :: rest =>
      enter name
        (if isRemoteUrl urlOrPath then
           match downloadCsvToSqlite name urlOrPath index st with
           | (Resolved, st') => main_loop (S index) rest st'
           | (Rejected _, st') =>
               main_loop (S index) rest (log (LogErrorProcessing name) st').2
           | (Pending, st') => Run [] false st'
           end
         else if negb (existsSync w urlOrPath) then
           main_loop (S index) rest (log (LogLocalNotFound urlOrPath name) st).2
         else
           match ingestLocalCsv name urlOrPath
                   (log (LogUsingLocal name urlOrPath) st).2 with
           | (Resolved, st') => main_loop (S index) rest st'
           | (Rejected _, st') => Run [] false st'
           | (Pending, st') => Run [] false st'
           end)
  end.

End Ingestion.

(** *** Worlds for the examples *)

(** A thread pool that brings every insert back before the next event, in
    the order in which they were sent. *)
Definition in_order : list stmt → list stmt → list nat := λ _ _, [0%nat].

(** The names that [Object.prototype] holds in Node.js. *)
Definition node_prototype_names : list jsstring :=
  [js "constructor"; js "__defineGetter__"; js "__defineSetter__";
   js "hasOwnProperty"; js "__lookupGetter__"; js "__lookupSetter__";
   js "isPrototypeOf"; js "propertyIsEnumerable"; js "toString";
   js "valueOf"; js "__proto__"; js "toLocaleString"].

(** The prototype of Node.js: the text of a method is the text of a native
    function, [constructor] is [Object], and [__proto__] gives the
    prototype itself. *)
Definition node_prototype (k : jsstring) : option jsstring :=
  if bool_decide (k = js "__proto__") then Some (js "[object Object]")
  else if bool_decide (k = js "constructor")
  then Some (js "function Object() { [native code] }")
  else if bool_decide (k ∈ node_prototype_names)
  then Some (js "function " ++ k ++ js "() { [native code] }")
  else None.

Definition no_events : csv_events := CsvEvents None [] StreamEnd.

(** A store that accepts every statement, no network and no files. *)
Definition calm_world (rules : list (jsstring * jsstring)) : World :=
  {| db_fails := λ _ _, false;
     lands := in_order;
     object_prototype := node_prototype;
     fetch := λ _, FetchThrows;
     existsSync := λ _, false;
     readFileSync := λ _, None;
     csvParser := λ _, no_events;
     automigrations := rules |}.

(** Two datasets, served both as files and over HTTP. The first has the
    headers [REF DATE] and [REF_DATE], which sanitize to one name, and the
    store refuses a table with a repeated column; the second is sound. *)
Definition colliding_text : jsstring := js_lines ["REF DATE,REF_DATE"; "1,2"; ""].
Definition sound_text : jsstring := js_lines ["V"; "7"; ""].

Definition colliding_world : World :=
  {| db_fails := λ _ s,
       match s with
       | CreateTableIfNotExists _ cols => negb (bool_decide (NoDup cols))
       | _ => false
       end;
     lands := in_order;
     object_prototype := node_prototype;
     fetch := λ url,
       Response true
         (if bool_decide (url = js "https://host/a.csv")
          then colliding_text else sound_text);
     existsSync := λ _, true;
     readFileSync := λ path,
       Some (if bool_decide (path = js "./a.csv")
             then colliding_text else sound_text);
     csvParser := λ text,
       if bool_decide (text = colliding_text)
       then CsvEvents (Some [js "REF DATE"; js "REF_DATE"])
              [[(js "REF DATE", Some (js "1")); (js "REF_DATE", Some (js "2"))]]
              StreamEnd
       else CsvEvents (Some [js "V"]) [[(js "V", Some (js "7"))]] StreamEnd;
     automigrations := [] |}.

(** One dataset whose rows carry the old column [A] beside the column [B]
    that a rule renames it to. *)
Definition renaming_world : World :=
  {| db_fails := λ _ _, false;
     lands := in_order;
     object_prototype := node_prototype;
     fetch := λ _, Response true (js_lines ["A,B"; "5,"; "6,"; ""]);
     existsSync := λ _, true;
     readFileSync := λ _, Some (js_lines ["A,B"; "5,"; "6,"; ""]);
     csvParser := λ _,
       CsvEvents (Some [js "A"; js "B"])
         [[(js "A", Some (js "5")); (js "B", Some [])];
          [(js "A", Some (js "6")); (js "B", Some [])]]
         StreamEnd;
     automigrations := [(js "A", js "B")] |}.

(** *** Notions used in the statements about the store *)

(** The table is there and the Set holds exactly its columns. *)
Definition in_sync (t : jsstring) (existingCols : gset jsstring) (st : state) : Prop :=
  is_Some (tabs st !! t)
  ∧ existingCols = list_to_set (columns_of (tabs st) t).

(** A notice of the remapper about the relation. *)
Definition is_remap_notice (t : jsstring) (l : log_line) : Prop :=
  ∃ a b, l = LogRemapNotice t a b.

(** An insert into the relation. *)
Definition is_insert (t : jsstring) (s : stmt) : Prop := ∃ r, s = InsertInto t r.

(** The state right after [BEGIN IMMEDIATE] and [DELETE FROM t] went
    through. *)
Definition after_clear (t : jsstring) (st : state) : state :=
  {| tabs := alter (λ x, Table (columns x) []) t (tabs st);
     txn := Some (tabs st);
     issued := DeleteFrom t :: BeginImmediate :: issued st;
     console := console st ++ [LogCleared t] |}.


(** A summary line of the remapper. *)
Definition is_total (l : log_line) : bool :=
  match l with
  | LogRemapTotal _ _ _ => true
  | _ => false
  end.

(** The console of [st'] is the one of [st] and lines that are no summary. *)
Definition adds_no_total (st st' : state) : Prop :=
  ∃ added, console st' = console st ++ added
           ∧ Forall (λ l, is_total l = false) added.

(** A computation that prints no summary line. *)
Definition quiet {A : Type} (m : M A) : Prop :=
  ∀ st r st', m st = (r, st') → adds_no_total st st'.

(** The consumer price index served over HTTP, and a host that answers
    every other address with a status that is not [ok]. *)
Definition cpi_world : World :=
  {| db_fails := λ _ _, false;
     lands := in_order;
     object_prototype := node_prototype;
     fetch := λ url,
       if bool_decide (url = js "https://host/cpi.csv")
       then Response true (js_lines ["REF DATE,VALUE"; "2020-01,100.2"; ""])
       else Response false [];
     existsSync := λ _, false;
     readFileSync := λ _, None;
     csvParser := λ _,
       CsvEvents (Some [js "REF DATE"; js "VALUE"])
         [[(js "REF DATE", Some (js "2020-01")); (js "VALUE", Some (js "100.2"))]]
         StreamEnd;
     automigrations := [] |}.



(** *** Auxiliary notions for the proofs about the stripper *)

Module MarkerFacts.
Import MarkerRegex PreambleSpec.

(** A code unit of the marker word: a letter of either case. *)
Definition is_letter (c : N) : bool := is_upper c || is_lower c.

(** The literal as a prefix test. *)
Fixpoint strip_literal (p s : jsstring) : option jsstring :=
  match p with
  | [] => Some s
  | a :: p' =>
      match s with
      | c :: r => if unit_eq_ci a c then strip_literal p' r else None
      | [] => None
      end
  end.

(** The deterministic reading of the pattern. *)
Definition match_direct (s : jsstring) : option jsstring :=
  strip_literal OBSERVATIONS (drop_quote (skip_blanks s)) ≫=
    λ r, newline (skip_blanks (drop_quote r)).

Definition blanks (b : jsstring) : Prop := Forall (λ c, is_blank c = true) b.
Definition maybe_quote (q : jsstring) : Prop := q = [] ∨ q = [quote].

(** Blanks, an optional quote, the word, an optional quote, blanks. *)
Definition marker_shape (l : jsstring) : Prop :=
  ∃ b1 q1 w q2 b2,
    l = b1 ++ q1 ++ w ++ q2 ++ b2
    ∧ blanks b1 ∧ maybe_quote q1 ∧ to_upper <$> w = OBSERVATIONS
    ∧ maybe_quote q2 ∧ blanks b2.

Definition head_is (P : N → bool) (s : jsstring) : Prop :=
  match s with c :: _ => P c = true | [] => True end.

End MarkerFacts.

(** ** The exporter of [update.js]

    The pure helpers of the script that turns relations into chart data.
    A value of [params], or an item of an array of values, is the text that
    [String] gives for it, which is also what [replace] makes of the result
    of its callback. A property that an object does not own is looked up on
    [Object.prototype]: [inherited] gives the text of what is found there.
    The case mapping of [toLowerCase] is a parameter. *)

Definition apostrophe : N := 39.

(** [String(s).replace(/'/g, ...)]: every apostrophe twice. *)
Definition double_apostrophes (s : jsstring) : jsstring :=
  s ≫= λ c, if c =? apostrophe then [apostrophe; apostrophe] else [c].

Definition sqlQuote (s : jsstring) : jsstring :=
  apostrophe :: double_apostrophes s ++ [apostrophe].

(** The body of the loop of [withQuotedVariants]. *)
Definition add_quoted (out : gmap jsstring jsstring) (kv : jsstring * jsstring)
  : gmap jsstring jsstring :=
  <[js "q_" ++ kv.1 := sqlQuote kv.2]> out.

(** The loop over [Object.entries(params)], started from the copy of
    [params]. *)
Definition quote_entries (entries : list (jsstring * jsstring))
    (out : gmap jsstring jsstring) : gmap jsstring jsstring :=
  foldl add_quoted out entries.

Definition withQuotedVariants (params : gmap jsstring jsstring)
  : gmap jsstring jsstring :=
  quote_entries (map_to_list params) params.

(** The values handed to [interpolate]: an array or an object. *)
Inductive js_values : Type :=
  | Arr (items : list jsstring)
  | Obj (props : gmap jsstring jsstring).

(** Its [fallback]: [true], or a text. *)
Inductive fallback : Type :=
  | KeepMatch
  | Text (t : jsstring).

(** [[a-zA-Z_]] *)
Definition is_ident_start (c : N) : bool := is_lower c || is_upper c || (c =? 95).

(** The longest prefix in a class, and what follows it. *)
Fixpoint span_run (P : N → bool) (s : jsstring) : jsstring * jsstring :=
  match s with
  | c :: r =>
      if P c then let '(run, rest) := span_run P r in (c :: run, rest)
      else ([], s)
  | [] => ([], [])
  end.

(** A starred class that a closing brace follows: the class does not hold
    the brace, so the longest run is the only one that can match. *)
Definition run_then_close (P : N → bool) (c : N) (r : jsstring)
  : option (jsstring * nat) :=
  let '(run, rest) := span_run P r in
  match rest with
  | d :: _ => if d =? 125 then Some (c :: run, (4 + length run)%nat) else None
  | [] => None
  end.

(** A match of the pattern for objects at the start of the text: an opening
    brace, a dollar sign, a letter or underscore, word characters, a closing
    brace. The result is the captured key and the length of the match. *)
Definition object_placeholder (s : jsstring) : option (jsstring * nat) :=
  match s with
  | a :: b :: c :: r =>
      if (a =? 123) && (b =? 36) && is_ident_start c
      then run_then_close is_word c r
      else None
  | _ => None
  end.

(** A match of the pattern for arrays at the start of the text: an opening
    brace, a hash sign, a number without leading zero or the letter [n], a
    closing brace. *)
Definition array_placeholder (s : jsstring) : option (jsstring * nat) :=
  match s with
  | a :: b :: c :: r =>
      if (a =? 123) && (b =? 35) then
        if in_range 49 57 c then run_then_close is_digit c r
        else if c =? 110 then
          match r with
          | d :: _ => if d =? 125 then Some ([c], 4%nat) else None
          | [] => None
          end
        else None
      else None
  | _ => None
  end.

(** [Number.parseInt(key, 10)] on a run of digits. *)
Definition parse_decimal (key : jsstring) : N :=
  foldl (λ acc c, 10 * acc + (c - 48)) 0 key.

Section Interpolation.
Context (inherited : jsstring → option jsstring).

(** [values[key]] on an object. *)
Definition property (props : gmap jsstring jsstring) (key : jsstring)
  : option jsstring :=
  match props !! key with
  | Some v => Some v
  | None => inherited key
  end.

Definition placeholder_at (values : js_values) (s : jsstring)
  : option (jsstring * nat) :=
  match values with
  | Arr _ => array_placeholder s
  | Obj _ => object_placeholder s
  end.

(** What the callback finds for a key, and the counter [idx] after it. *)
Definition placeholder_value (values : js_values) (idx : nat) (key : jsstring)
  : option jsstring * nat :=
  match values with
  | Arr items =>
      if bool_decide (key = [110]) then (items !! idx, S idx)
      else (items !! (N.to_nat (parse_decimal key) - 1)%nat, idx)
  | Obj props => (property props key, idx)
  end.

(** [template.replace(pattern, callback)] with a global pattern: the text
    is gone through from the left; where the pattern matches, the result of
    the callback stands for the match and the search goes on behind it, the
    [skip] code units of the match that are still ahead being passed over. *)
Fixpoint replace_placeholders (values : js_values) (fb : fallback)
    (skip idx : nat) (s : jsstring) : jsstring :=
  match s with
  | [] => []
  | c :: r =>
      match skip with
      | S k => replace_placeholders values fb k idx r
      | O =>
          match placeholder_at values s with
          | Some (key, len) =>
              let '(val, idx') := placeholder_value values idx key in
              match val with
              | Some v => v
              | None =>
                  match fb with
                  | KeepMatch => take len s
                  | Text t => t
                  end
              end ++ replace_placeholders values fb (len - 1) idx' r
          | None => c :: replace_placeholders values fb 0 idx r
          end
      end
  end.

Definition interpolate (template : jsstring) (values : js_values)
    (fb : fallback) : jsstring :=
  replace_placeholders values fb 0 0 template.

(** [const sql = interpolate(query, withQuotedVariants(params), true)] *)
Definition sql_of (query : jsstring) (params : gmap jsstring jsstring) : jsstring :=
  interpolate query (Obj (withQuotedVariants params)) KeepMatch.

End Interpolation.

Section Scales.
Context (toLowerCase : jsstring → jsstring).

(** The chain of [startsWith] tests that the two functions share. *)
Definition by_magnitude (s : jsstring) : N :=
  if starts_with (js "thousand") s then 1000
  else if starts_with (js "million") s then 1000000
  else if starts_with (js "billion") s then 1000000000
  else 1.

(** [factor] is a text or [null]. *)
Definition scalarFactorToMultiplier (factor : option jsstring) : N :=
  let f := toLowerCase (trim (default [] factor)) in
  if starts_with (js "unit") f then 1 else by_magnitude f.

Definition scaleNameToDivisor (scaleName : option jsstring) : N :=
  match scaleName with
  | None | Some [] => 1
  | Some scaleName =>
      let s := toLowerCase scaleName in
      if bool_decide (s = js "units") then 1 else by_magnitude s
  end.

End Scales.

(** What the grouping reads of a dataset of the manifest: [query] is
    [ds?.source?.query] and [db] is [ds.source.db], absent or a text. *)
Record dataset : Type := Dataset {
  ds_id : jsstring;
  ds_query : option jsstring;
  ds_db : option jsstring;
}.

#[global] Instance dataset_eq_dec : EqDecision dataset.
Proof. solve_decision. Defined.

(** [ds?.source?.query] is truthy. *)
Definition has_query (ds : dataset) : bool :=
  match ds_query ds with
  | Some (_ :: _) => true
  | _ => false
  end.

(** [ds.source.db || './autostatscan.db'] *)
Definition db_file (ds : dataset) : jsstring :=
  match ds_db ds with
  | Some (c :: r) => c :: r
  | _ => js "./autostatscan.db"
  end.

(** [if (!byDb.has(dbFile)) byDb.set(dbFile, []); byDb.get(dbFile).push(ds)]
    on a [Map], whose entries keep the order in which the keys came. *)
Fixpoint push_dataset (dbFile : jsstring) (ds : dataset)
    (byDb : list (jsstring * list dataset)) : list (jsstring * list dataset) :=
  match byDb with
  | [] => [(dbFile, [ds])]
  | (f, group) :: rest =>
      if decide (f = dbFile) then (f, group ++ [ds]) :: rest
      else (f, group) :: push_dataset dbFile ds rest
  end.

Definition group_step (byDb : list (jsstring * list dataset)) (ds : dataset)
  : list (jsstring * list dataset) :=
  if has_query ds then push_dataset (db_file ds) ds byDb else byDb.

(** The first loop of [main]. *)
Definition group_by_db (datasets : list dataset) : list (jsstring * list dataset) :=
  foldl group_step [] datasets.

(** [byDb.get(dbFile)] *)
Fixpoint group_of (dbFile : jsstring) (byDb : list (jsstring * list dataset))
  : option (list dataset) :=
  match byDb with
  | [] => None
  | (f, group) :: rest =>
      if decide (f = dbFile) then Some group else group_of dbFile rest
  end.

(** *** Notions used in the properties of the exporter *)

(** How SQLite reads the inside of a text literal: two apostrophes stand
    for one, a single one ends the literal. The result is the text and what
    follows the literal. *)
Fixpoint read_body (s : jsstring) : option (jsstring * jsstring) :=
  match s with
  | [] => None
  | c :: r =>
      if c =? apostrophe then
        match r with
        | d :: r' =>
            if d =? apostrophe
            then prod_map (cons apostrophe) id <$> read_body r'
            else Some ([], r)
        | [] => Some ([], [])
        end
      else prod_map (cons c) id <$> read_body r
  end.

Definition read_literal (s : jsstring) : option (jsstring * jsstring) :=
  match s with
  | c :: r => if c =? apostrophe then read_body r else None
  | [] => None
  end.

(** The text does not go on with an apostrophe. *)
Definition ends_literal (rest : jsstring) : Prop :=
  match rest with
  | c :: _ => c ≠ apostrophe
  | [] => True
  end.

(** A name that the pattern of [interpolate] takes as a key. *)
Definition is_identifier (k : jsstring) : Prop :=
  match k with
  | c :: r => is_ident_start c = true ∧ Forall (λ d, is_word d = true) r
  | [] => False
  end.

(** The text of the placeholder for a key. *)
Definition placeholder (k : jsstring) : jsstring := js "{$" ++ k ++ js "}".

(** The keys of the matches of the pattern in a text, from the left, the
    search going on behind each match as [replace] does. *)
Fixpoint found_keys (values : js_values) (skip : nat) (s : jsstring)
  : list jsstring :=
  match s with
  | [] => []
  | c :: r =>
      match skip with
      | S k => found_keys values k r
      | O =>
          match placeholder_at values s with
          | Some (key, len) => key :: found_keys values (len - 1) r
          | None => found_keys values 0 r
          end
      end
  end.

(** ASCII letters to lower case, the rest as it is. *)
Definition ascii_lower (s : jsstring) : jsstring :=
  (λ c, if is_upper c then c + 32 else c) <$> s.

(** A template that puts the placeholder [{#n}] behind each of the given
    texts. *)
Definition slots (texts : list jsstring) : jsstring :=
  texts ≫= λ t, t ++ js "{#n}".

(** A text without an opening brace. *)
Definition plain (t : jsstring) : Prop := 123 ∉ t.

(** What [Map.get] gives for a group: nothing when it would be empty. *)
Definition as_group (group : list dataset) : option (list dataset) :=
  match group with
  | [] => None
  | _ => Some group
  end.

(** The datasets of the manifest that have a query and name the file. *)
Definition datasets_for (dbFile : jsstring) (datasets : list dataset)
  : list dataset :=
  filter (λ ds, has_query ds = true ∧ db_file ds = dbFile) datasets.

(** *** Notions used in the statements about inserts in flight *)

(** What the callback of an insert prints when it comes back. *)
Definition failure_lines (fl : flight) : list log_line :=
  if fl_refused fl
  then [LogExecutingSql (flight_stmt fl); LogInsertFailed (fl_table fl)]
  else [].

(** A line of the callback of an insert. *)
Definition is_failure_line (l : log_line) : bool :=
  match l with
  | LogExecutingSql _ | LogInsertFailed _ => true
  | _ => false
  end.


(** The inserts of the given rows, sent one after the other behind the
    statements [hist]: each is refused or not by what was sent before it. *)
Fixpoint sent_flights (w : World) (t : jsstring) (hist : list stmt)
    (rws : list db_row) : list flight :=
  match rws with
  | [] => []
  | r :: rest =>
      Flight t r (db_fails w hist (InsertInto t r))
      :: sent_flights w t (InsertInto t r :: hist) rest
  end.

(** The rules whose incoming name [Object.prototype] holds. *)
Definition inherited_rules (w : World) : list (jsstring * jsstring) :=
  filter (λ rule, is_Some (object_prototype w (sanitizeHeader rule.1)))
    (automigrations w).

(** The rule table that the README gives as its example. *)
Definition readme_rules : list (jsstring * jsstring) :=
  [(js "REF DATE", js "REF_DATE"); (js "Ref_Date", js "REF_DATE");
   (js "VALUE ($)", js "VALUE")].

(** *** Notions used in the further properties *)

(** A code unit that the sanitizer sends to the underscore. *)
Definition blurred (c : N) : Prop := is_word c = false ∨ c = underscore.

(** The first code unit, if there is one, is no white space. *)
Definition starts_solid (s : jsstring) : Prop :=
  match s with
  | c :: _ => is_js_space c = false
  | [] => True
  end.


(** The columns a relation has once its [CREATE TABLE IF NOT EXISTS] went
    through: its own if it was there, else the sanitized headers. *)
Definition columns_after_create (tb : gmap jsstring table) (t : jsstring)
    (headers : list jsstring) : list jsstring :=
  match tb !! t with
  | Some x => columns x
  | None => sanitizeHeader <$> headers
  end.

(** The store after the first dataset of [cpi_world] was loaded. *)
Definition cpi_loaded : state :=
  final (main_loop cpi_world 0
           [(js "CPI, All Items", js "https://host/cpi.csv")] initial_state).

(** The pair that a notice of the remapper announces, as the counters
    name it. *)
Definition notice_key (l : log_line) : option jsstring :=
  match l with
  | LogRemapNotice _ inKey tgtKey => Some (remapKey inKey tgtKey)
  | _ => None
  end.

(** An insert into the relation of a row that is not empty and has values
    under the given columns only. *)
Definition insert_within (t : jsstring) (cols : list jsstring) (s : stmt) : Prop :=
  ∃ r, s = InsertInto t r ∧ r ≠ ∅ ∧ ∀ k, is_Some (r !! k) → k ∈ cols.

(** The counters agree with the set of announced pairs, and count from
    one. *)
Definition ledger_ok (counts : list (jsstring * nat)) (logged : gset jsstring) : Prop :=
  logged = list_to_set counts.*1 ∧ Forall (λ kc, (0 < kc.2)%nat) counts.

(** What the [data] handler makes of a row: the fields kept, after the
    remapper. The counters have no part in it. *)
Definition write_set (w : World) (t : jsstring) (existingCols : gset jsstring)
    (row : raw_row) : gmap jsstring jsstring :=
  rawEntries (remap w t existingCols (Remapping (build_entries w row) [] ∅ [])).

(** The rows that a dataset brings, in order: its write sets that are not
    empty. *)
Definition loaded_rows (w : World) (t : jsstring) (existingCols : gset jsstring)
    (rws : list raw_row) : list db_row :=
  filter (λ r, r ≠ ∅) (write_set w t existingCols <$> rws).

(** The statements of the clear, behind the statements [hist]. *)
Definition cleared (t : jsstring) (hist : list stmt) : list stmt :=
  DeleteFrom t :: BeginImmediate :: hist.

(** The inserts of a dataset, latest first: one for each write set that is
    not empty, in the order of the rows. *)
Definition streamed (w : World) (t : jsstring) (existingCols : gset jsstring)
    (rws : list raw_row) : list stmt :=
  reverse (InsertInto t <$> loaded_rows w t existingCols rws).

(** One of the two promises that stream a dataset. *)
Definition streams_dataset (w : World) (name t : jsstring)
    (promise : csv_events → state → settled * state) : Prop :=
  promise = remote_promise w name t ∨ promise = local_promise w t.

(** The source of a dataset cannot be had: the download throws or is
    answered with a bad status, or the local file is not there. *)
Definition source_fails (w : World) (urlOrPath : jsstring) : bool :=
  if isRemoteUrl urlOrPath then
    match fetch w urlOrPath with
    | Response true _ => false
    | _ => true
    end
  else negb (existsSync w urlOrPath).

(** The stream of what a source serves is not ended without a [headers]
    event or an [error]. *)
Definition speaks (w : World) (url : jsstring) : Prop :=
  ∀ data, fetch w url = Response true data →
          ev_headers (csvParser w (payload data)) = None →
          ev_end (csvParser w (payload data)) = StreamError.

(** The store accepts the [COMMIT] of a transaction that it let begin, in
    which it let the relation be cleared and to which inserts were sent. *)
Definition commits_loads (w : World) : Prop :=
  ∀ t ins hist,
    db_fails w hist BeginImmediate = false →
    db_fails w (BeginImmediate :: hist) (DeleteFrom t) = false →
    Forall (is_insert t) ins →
    db_fails w (ins ++ cleared t hist) Commit = false.

(** Whether a transaction is open behind the statements sent, latest
    first, for a store that lets a transaction begin when none is open and
    end when one is. *)
Fixpoint txn_open (hist : list stmt) : bool :=
  match hist with
  | [] => false
  | BeginImmediate :: _ => true
  | Commit :: _ | Rollback :: _ => false
  | _ :: rest => txn_open rest
  end.

(** A store that keeps to its transactions, a parser that ends the stream
    of an empty text without a word, and a thread pool that brings the
    inserts back late. The consumer price index is served as in
    [cpi_world]. *)
Definition strict_world : World :=
  {| db_fails := λ hist s,
       match s with
       | BeginImmediate => txn_open hist
       | Commit | Rollback => negb (txn_open hist)
       | _ => false
       end;
     lands := λ _ _, [];
     object_prototype := node_prototype;
     fetch := fetch cpi_world;
     existsSync := λ _, false;
     readFileSync := λ _, None;
     csvParser := λ text,
       if bool_decide (text = []) then no_events else csvParser cpi_world text;
     automigrations := readme_rules |}.

(** One of the two ingesters, called for a dataset. *)
Definition ingests_dataset (w : World) (name src : jsstring) (index : nat)
    (ingester : state → settled * state) : Prop :=
  ingester = downloadCsvToSqlite w name src index
  ∨ ingester = ingestLocalCsv w name src.

(** The same store under a console that may have grown. *)
Definition same_store (st st' : state) : Prop :=
  tabs st' = tabs st ∧ txn st' = txn st ∧ issued st' = issued st.

(** A host that answers every address with an empty body, which the parser
    ends without a [headers] event. *)
Definition silent_world : World :=
  {| db_fails := λ _ _, false;
     lands := in_order;
     object_prototype := node_prototype;
     fetch := λ _, Response true [];
     existsSync := λ _, false;
     readFileSync := λ _, None;
     csvParser := λ _, no_events;
     automigrations := [] |}.

(** Comparisons on code units, decided by [lia]. *)
Ltac units :=
  unfold MarkerRegex.is_blank, is_line_terminator, is_js_space, is_lower,
    is_upper, in_range, MarkerRegex.quote, LF, CR in *;
  repeat match goal with
    | H : _ && _ = true |- _ => apply andb_true_iff in H; destruct H
    | H : _ || _ = false |- _ => apply orb_false_iff in H; destruct H
    | H : (_ =? _) = true |- _ => apply N.eqb_eq in H
    | H : (_ =? _) = false |- _ => apply N.eqb_neq in H
    | H : (_ <=? _) = true |- _ => apply N.leb_le in H
    | H : (_ <=? _) = false |- _ => apply N.leb_gt in H
    end;
  repeat match goal with
    | |- context [?a =? ?b] => destruct (N.eqb_spec a b)
    | |- context [?a <=? ?b] => destruct (N.leb_spec a b)
    | H : context [?a =? ?b] |- _ => destruct (N.eqb_spec a b)
    | H : context [?a <=? ?b] |- _ => destruct (N.leb_spec a b)
    end;
  simpl in *; try done; try lia.

(** * Properties *)

Section NameSanitizer.

Lemma sanitize_unit_word c : is_word (sanitize_unit c) = true.
Proof. unfold sanitize_unit. destruct (is_word c) eqn:E; [exact E | reflexivity]. Qed.

Lemma sanitize_unit_keeps c : is_word c = true → sanitize_unit c = c.
Proof. unfold sanitize_unit. by intros ->. Qed.

Lemma sanitize_unit_replaces c : is_word c = false → sanitize_unit c = underscore.
Proof. unfold sanitize_unit. by intros ->. Qed.

Lemma sanitize_lookup (s : jsstring) (i : nat) :
  sanitizeTableName s !! i = sanitize_unit <$> (s !! i).
Proof. unfold sanitizeTableName. apply list_lookup_fmap. Qed.

Lemma sanitize_idempotent (s : jsstring) :
  sanitizeTableName (sanitizeTableName s) = sanitizeTableName s.
Proof.
  unfold sanitizeTableName. rewrite <- list_fmap_compose.
  apply list_fmap_ext. intros _ c _. simpl.
  apply sanitize_unit_keeps, sanitize_unit_word.
Qed.

(** C8: the sanitizer is a total function whose output has only code
    units of [[A-Za-z0-9_]], has the length of its input, keeps every valid
    code unit at its position and puts an underscore at every other
    position. *)
Theorem sanitize_spec (s : jsstring) :
  Forall (λ c, is_word c = true) (sanitizeTableName s)
  ∧ length (sanitizeTableName s) = length s
  ∧ (∀ i c, s !! i = Some c →
       sanitizeTableName s !! i = Some (if is_word c then c else underscore)).
Proof.
  split; [| split].
  - unfold sanitizeTableName. apply Forall_fmap, Forall_forall.
    intros c _. apply sanitize_unit_word.
  - unfold sanitizeTableName. apply length_fmap.
  - intros i c Hi. rewrite sanitize_lookup, Hi. reflexivity.
Qed.

End NameSanitizer.


(** ** The preamble stripper against its line-based description *)

Section PreambleStripper.
Import MarkerRegex PreambleSpec MarkerFacts.



Lemma to_upper_letter c u :
  to_upper c = u → is_upper u = true → is_letter c = true.
Proof. unfold to_upper, is_letter. intros <-. units. Qed.

Lemma marker_word_letters (w : jsstring) :
  to_upper <$> w = OBSERVATIONS → Forall (λ c, is_letter c = true) w.
Proof.
  intros H. apply Forall_forall. intros c Hc.
  apply (to_upper_letter c (to_upper c) eq_refl).
  assert (Hin : to_upper c ∈ OBSERVATIONS).
  { rewrite <- H. by apply list_elem_of_fmap_2. }
  revert Hin. generalize (to_upper c). intros u Hu.
  vm_compute in Hu.
  repeat (apply elem_of_cons in Hu as [-> | Hu]; [reflexivity |]).
  by apply elem_of_nil in Hu.
Qed.

Lemma letter_not_blank c : is_letter c = true → is_blank c = false.
Proof. unfold is_letter. units. Qed.

Lemma letter_not_quote c : is_letter c = true → (c =? quote) = false.
Proof. unfold is_letter. units. Qed.

Lemma letter_not_terminator c : is_letter c = true → is_line_terminator c = false.
Proof. unfold is_letter. units. Qed.

(** *** The matcher never needs to backtrack *)

Lemma star_blank_skip (k : matcher) (s : jsstring) :
  (∀ c r, is_blank c = true → k (c :: r) = None) →
  star_blank k s = k (skip_blanks s).
Proof.
  intros Hk. induction s as [| c r IH]; simpl; [done |].
  destruct (is_blank c) eqn:Hc; [| done].
  rewrite IH. destruct (k (skip_blanks r)); [done |]. by apply Hk.
Qed.

Lemma opt_quote_drop (k : matcher) (s : jsstring) :
  (∀ r, k (quote :: r) = None) → opt_quote k s = k (drop_quote s).
Proof.
  intros Hk. destruct s as [| c r]; simpl; [done |].
  destruct (N.eqb_spec c quote) as [-> | _]; [| done].
  destruct (k r); [done |]. apply Hk.
Qed.


Lemma literal_ci_strip p k s : literal_ci p k s = strip_literal p s ≫= k.
Proof.
  revert s. induction p as [| a p IH]; intros s; simpl; [done |].
  destruct s as [| c r]; [done |]. destruct (unit_eq_ci a c); [apply IH | done].
Qed.

Lemma strip_literal_Some p s rest :
  to_upper <$> p = p →
  strip_literal p s = Some rest ↔ ∃ w, s = w ++ rest ∧ to_upper <$> w = p.
Proof.
  revert s. induction p as [| a p IH]; intros s Hp; simpl.
  - split.
    + intros [= ->]. by exists [].
    + intros (w & -> & Hw). apply fmap_nil_inv in Hw. by subst.
  - injection Hp as Ha Hp'. destruct s as [| c r].
    + split; [done |]. intros (w & Hs & Hw).
      destruct w; [done | by rewrite <- app_comm_cons in Hs].
    + unfold unit_eq_ci. rewrite Ha.
      destruct (N.eqb_spec a (to_upper c)) as [Hac | Hac].
      * rewrite (IH r Hp'). split.
        -- intros (w & -> & Hw). exists (c :: w). split; [done |].
           by rewrite fmap_cons, Hw, Hac.
        -- intros (w & Hs & Hw). destruct w as [| c' w]; [done |].
           injection Hs as -> ->. injection Hw as _ Hw. by exists w.
      * split; [done |]. intros (w & Hs & Hw).
        destruct w as [| c' w]; [done |]. injection Hs as -> ->.
        injection Hw as Hc _. by rewrite Hc in Hac.
Qed.

Lemma marker_word_head_fails k c r :
  is_letter c = false → literal_ci OBSERVATIONS k (c :: r) = None.
Proof.
  intros Hc. change OBSERVATIONS with (79 :: js "BSERVATIONS").
  cbn [literal_ci]. replace (unit_eq_ci 79 c) with false; [done |].
  unfold unit_eq_ci, to_upper. unfold is_letter in Hc. units.
Qed.


Lemma match_here_direct s : match_here s = match_direct s.
Proof.
  unfold match_here, match_direct.
  rewrite star_blank_skip.
  2:{ intros c r Hc. unfold opt_quote.
      replace (c =? quote) with false by units.
      apply marker_word_head_fails. unfold is_letter. units. }
  rewrite opt_quote_drop by (intros; by apply marker_word_head_fails).
  rewrite literal_ci_strip.
  destruct (strip_literal _ _) as [r |]; simpl; [| done].
  rewrite opt_quote_drop by done.
  apply star_blank_skip. intros c r' Hc. simpl. units.
Qed.

(** *** Marker lines *)


Lemma skip_blanks_split s : ∃ b, s = b ++ skip_blanks s ∧ blanks b.
Proof.
  induction s as [| c r (b & Hr & Hb)]; simpl.
  - exists []. split; [done | constructor].
  - destruct (is_blank c) eqn:Hc.
    + exists (c :: b). split; [by rewrite <- app_comm_cons, <- Hr |].
      by constructor.
    + exists []. split; [done | constructor].
Qed.

Lemma skip_blanks_app b x : blanks b → skip_blanks (b ++ x) = skip_blanks x.
Proof. induction 1 as [| c b Hc _ IH]; simpl; [done |]. by rewrite Hc. Qed.

Lemma skip_blanks_solid s : head_is (λ c, negb (is_blank c)) s → skip_blanks s = s.
Proof. destruct s as [| c r]; simpl; [done |]. by destruct (is_blank c). Qed.

Lemma drop_quote_split s : ∃ q, s = q ++ drop_quote s ∧ maybe_quote q.
Proof.
  destruct s as [| c r]; simpl.
  - exists []. split; [done | by left].
  - destruct (N.eqb_spec c quote) as [-> | _].
    + exists [quote]. split; [done | by right].
    + exists []. split; [done | by left].
Qed.

Lemma drop_quote_other s : head_is (λ c, negb (c =? quote)) s → drop_quote s = s.
Proof. destruct s as [| c r]; simpl; [done |]. by destruct (c =? quote). Qed.

Lemma drop_quote_app q x :
  maybe_quote q → head_is (λ c, negb (c =? quote)) x → drop_quote (q ++ x) = x.
Proof. intros [-> | ->] Hx; [by apply drop_quote_other | done]. Qed.

Lemma head_is_app P x y : x ≠ [] → head_is P x → head_is P (x ++ y).
Proof. by destruct x. Qed.

Lemma head_is_Forall P x : Forall (λ c, P c = true) x → head_is P x.
Proof. by destruct 1. Qed.

Lemma head_is_impl (P Q : N → bool) s :
  (∀ c, P c = true → Q c = true) → head_is P s → head_is Q s.
Proof. destruct s; simpl; auto. Qed.

Lemma marker_word_nonempty w : to_upper <$> w = OBSERVATIONS → w ≠ [].
Proof. by intros H ->. Qed.

Lemma marker_word_head P w y :
  (∀ c, is_letter c = true → P c = true) →
  to_upper <$> w = OBSERVATIONS → head_is P (w ++ y).
Proof.
  intros HP Hw. apply head_is_app; [by eapply marker_word_nonempty |].
  apply head_is_Forall. eapply Forall_impl; [by apply marker_word_letters |].
  done.
Qed.

Lemma letter_solid c : is_letter c = true → negb (is_blank c) = true.
Proof. intros H. by rewrite letter_not_blank. Qed.

Lemma letter_unquoted c : is_letter c = true → negb (c =? quote) = true.
Proof. intros H. by rewrite letter_not_quote. Qed.

Lemma blank_unquoted c : is_blank c = true → negb (c =? quote) = true.
Proof. intros H. units. Qed.

Lemma match_direct_shape s rest :
  match_direct s = Some rest ↔ ∃ l, marker_shape l ∧ s = l ++ LF :: rest.
Proof.
  unfold match_direct. split.
  - intros H. apply bind_Some in H as (x2 & Hw & Hnl).
    apply strip_literal_Some in Hw as (w & Hx1 & Hw); [| done].
    destruct (skip_blanks_split s) as (b1 & Hs & Hb1).
    destruct (drop_quote_split (skip_blanks s)) as (q1 & Hq & Hq1).
    destruct (drop_quote_split x2) as (q2 & Hx2 & Hq2).
    destruct (skip_blanks_split (drop_quote x2)) as (b2 & Hb & Hb2).
    destruct (skip_blanks (drop_quote x2)) as [| c r] eqn:Hend; [done |].
    simpl in Hnl. destruct (N.eqb_spec c LF) as [-> | _]; [| done].
    injection Hnl as ->.
    exists (b1 ++ q1 ++ w ++ q2 ++ b2). split.
    + by exists b1, q1, w, q2, b2.
    + rewrite <- !app_assoc. by rewrite <- Hb, <- Hx2, <- Hx1, <- Hq.
  - intros (l & (b1 & q1 & w & q2 & b2 & -> & Hb1 & Hq1 & Hw & Hq2 & Hb2) & ->).
    rewrite <- !app_assoc.
    rewrite skip_blanks_app by done.
    assert (Hhead : ∀ P y, (∀ c, is_letter c = true → P c = true) →
              P quote = true → head_is P (q1 ++ w ++ y)).
    { intros P y HP HPq. destruct Hq1 as [-> | ->]; [| exact HPq].
      rewrite app_nil_l. by apply marker_word_head. }
    rewrite skip_blanks_solid by (apply Hhead; [apply letter_solid | reflexivity]).
    rewrite drop_quote_app;
      [| done | apply marker_word_head; [apply letter_unquoted | done]].
    replace (strip_literal OBSERVATIONS (w ++ q2 ++ b2 ++ LF :: rest))
      with (Some (q2 ++ b2 ++ LF :: rest))
      by (symmetry; apply strip_literal_Some; [done | by exists w]).
    simpl. rewrite drop_quote_app; [| done |].
    + rewrite skip_blanks_app by done. done.
    + destruct Hb2 as [| c b2 Hc _]; [done |]. by apply blank_unquoted.
Qed.

Lemma letters_head P x y :
  (∀ c, is_letter c = true → P c = true) →
  Forall (λ c, is_letter c = true) x → x ≠ [] → head_is P (x ++ y).
Proof.
  intros HP Hx Hne. apply head_is_app; [done |].
  apply head_is_Forall. by eapply Forall_impl.
Qed.

Lemma maybe_quote_reverse q : maybe_quote q → maybe_quote (reverse q).
Proof. intros [-> | ->]; [by left | by right]. Qed.

Lemma quoted_head P q x y :
  (∀ c, is_letter c = true → P c = true) → P quote = true →
  maybe_quote q → Forall (λ c, is_letter c = true) x → x ≠ [] →
  head_is P (q ++ x ++ y).
Proof.
  intros HP HPq [-> | ->] Hx Hne; [| exact HPq].
  rewrite app_nil_l. by apply letters_head.
Qed.

Lemma is_marker_line_shape l : is_marker_line l = true ↔ marker_shape l.
Proof.
  unfold is_marker_line. rewrite bool_decide_eq_true. split.
  - unfold unquote, strip_blanks. intros Hw.
    destruct (skip_blanks_split l) as (b1 & Hl & Hb1).
    destruct (skip_blanks_split (reverse (skip_blanks l))) as (b2 & Hx & Hb2).
    apply (f_equal reverse) in Hx. rewrite reverse_involutive, reverse_app in Hx.
    revert Hw Hx. generalize (reverse (skip_blanks (reverse (skip_blanks l)))).
    intros m Hw Hx.
    destruct (drop_quote_split m) as (q1 & Hm & Hq1).
    destruct (drop_quote_split (reverse (drop_quote m))) as (q2 & Hz & Hq2).
    apply (f_equal reverse) in Hz. rewrite reverse_involutive, reverse_app in Hz.
    revert Hw Hz. generalize (reverse (drop_quote (reverse (drop_quote m)))).
    intros w Hw Hz.
    exists b1, q1, w, (reverse q2), (reverse b2). split.
    + rewrite Hl at 1. rewrite Hx, Hm, Hz. by rewrite <- !app_assoc.
    + repeat split; try done.
      * by apply maybe_quote_reverse.
      * by apply Forall_reverse.
  - intros (b1 & q1 & w & q2 & b2 & -> & Hb1 & Hq1 & Hw & Hq2 & Hb2).
    pose proof (marker_word_letters w Hw) as Hlet.
    pose proof (marker_word_nonempty w Hw) as Hne.
    assert (Hlet' : Forall (λ c, is_letter c = true) (reverse w))
      by by apply Forall_reverse.
    assert (Hne' : reverse w ≠ []).
    { intros H. apply Hne. by rewrite <- (reverse_involutive w), H. }
    assert (Hstrip : strip_blanks (b1 ++ q1 ++ w ++ q2 ++ b2) = q1 ++ w ++ q2).
    { unfold strip_blanks. rewrite skip_blanks_app by done.
      rewrite (skip_blanks_solid (q1 ++ w ++ q2 ++ b2))
        by (apply quoted_head; [apply letter_solid | done..]).
      rewrite !reverse_app, <- !app_assoc.
      rewrite skip_blanks_app by by apply Forall_reverse.
      rewrite skip_blanks_solid.
      - by rewrite !reverse_app, !reverse_involutive, <- !app_assoc.
      - apply quoted_head;
          [apply letter_solid | done | by apply maybe_quote_reverse | done..]. }
    rewrite Hstrip. unfold unquote.
    rewrite drop_quote_app;
      [| done | apply letters_head; [apply letter_unquoted | done..]].
    rewrite reverse_app.
    rewrite <- (app_nil_r (reverse w)).
    rewrite drop_quote_app;
      [| by apply maybe_quote_reverse
       | apply letters_head; [apply letter_unquoted | done..]].
    by rewrite app_nil_r, reverse_involutive.
Qed.

Lemma marker_shape_one_line l :
  marker_shape l → Forall (λ c, is_line_terminator c = false) l.
Proof.
  intros (b1 & q1 & w & q2 & b2 & -> & Hb1 & Hq1 & Hw & Hq2 & Hb2).
  assert (Hb : ∀ b, blanks b → Forall (λ c, is_line_terminator c = false) b).
  { intros b Hb. eapply Forall_impl; [exact Hb |]. intros c Hc. units. }
  assert (Hq : ∀ q, maybe_quote q → Forall (λ c, is_line_terminator c = false) q).
  { intros q [-> | ->]; by repeat constructor. }
  repeat (apply Forall_app; split); auto.
  eapply Forall_impl; [by apply marker_word_letters |].
  apply letter_not_terminator.
Qed.

(** The pattern matches at a position exactly when a marker line that a
    newline ends starts there. *)
Lemma match_here_line s rest :
  match_here s = Some rest ↔
  ∃ l, is_marker_line l = true ∧ s = l ++ LF :: rest.
Proof.
  rewrite match_here_direct, match_direct_shape.
  by setoid_rewrite is_marker_line_shape.
Qed.

(** *** Lines *)

Lemma lines_cons_inv s : ∃ l t rest, lines s = (l, t) :: rest.
Proof.
  destruct s as [| c r]; simpl; [by eexists _, _, _ |].
  destruct (is_line_terminator c); [by eexists _, _, _ |].
  destruct (lines r) as [| [l t] rest]; by eexists _, _, _.
Qed.

Lemma unlines_lines s : unlines (lines s) = s.
Proof.
  induction s as [| c r IH]; simpl; [done |].
  destruct (is_line_terminator c); simpl; [by rewrite IH |].
  destruct (lines r) as [| [l [t |]] rest]; simpl in *; by rewrite <- IH.
Qed.

Lemma lines_app l t rest :
  Forall (λ c, is_line_terminator c = false) l →
  is_line_terminator t = true →
  lines (l ++ t :: rest) = (l, Some t) :: lines rest.
Proof.
  intros Hl Ht. induction Hl as [| c l Hc _ IH]; simpl.
  - by rewrite Ht.
  - by rewrite Hc, IH.
Qed.

Lemma is_marker_line_one_line l :
  is_marker_line l = true → Forall (λ c, is_line_terminator c = false) l.
Proof. intros H. by apply marker_shape_one_line, is_marker_line_shape. Qed.

(** The search of the regular expression finds the first marker line
    that a newline ends; in the middle of a line it starts at the next
    one. *)
Lemma search_lines s :
  search true s = unlines <$> after_marker_nl (lines s)
  ∧ search false s = unlines <$> after_marker_nl (tail (lines s)).
Proof.
  induction s as [| c r [IHt IHf]].
  - by vm_compute.
  - assert (Hfalse : search false (c :: r)
                     = unlines <$> after_marker_nl (tail (lines (c :: r)))).
    { simpl. destruct (is_line_terminator c); [exact IHt |].
      rewrite IHf. by destruct (lines r) as [| [l t] rest]. }
    split; [| exact Hfalse].
    cbn [search]. destruct (match_here (c :: r)) as [rest |] eqn:Hm.
    + apply match_here_line in Hm as (l & Hl & ->).
      rewrite lines_app; [| by apply is_marker_line_one_line | done].
      cbn [after_marker_nl]. rewrite Hl, bool_decide_true by done.
      simpl. by rewrite unlines_lines.
    + change (search (is_line_terminator c) r) with (search false (c :: r)).
      rewrite Hfalse.
      destruct (lines_cons_inv (c :: r)) as (l & t & rest & Hlines).
      rewrite Hlines. cbn [tail after_marker_nl].
      destruct (is_marker_line l) eqn:Hl; [| done].
      case_bool_decide as Ht; [| done]. subst t. exfalso.
      assert (Hs : c :: r = l ++ LF :: unlines rest).
      { by rewrite <- (unlines_lines (c :: r)), Hlines. }
      assert (Hsome : match_here (c :: r) = Some (unlines rest))
        by (apply match_here_line; by exists l).
      by rewrite Hm in Hsome.
Qed.

Lemma after_marker_nl_None ls :
  after_marker_nl ls = None ↔
  Forall (λ '(l, t), is_marker_line l = true → t ≠ Some LF) ls.
Proof.
  induction ls as [| [l t] rest IH]; simpl; [by split; [constructor |] |].
  rewrite Forall_cons, <- IH.
  destruct (is_marker_line l); simpl.
  - case_bool_decide as Ht.
    + split; [done |]. intros [Hl _]. by destruct Hl.
    + split; [by split | by intros [_ ?]].
  - split; [by split | by intros [_ ?]].
Qed.

Lemma after_marker_None_nl ls : after_marker ls = None → after_marker_nl ls = None.
Proof.
  induction ls as [| [l t] rest IH]; simpl; [done |].
  by destruct (is_marker_line l).
Qed.

(** The code against the lines of the normalized text. *)
Lemma extract_lines fullText :
  extractObservationsCSV fullText =
  match after_marker_nl (lines (normalize_newlines fullText)) with
  | None => None
  | Some rest =>
      if has_newline (trimStart (unlines rest))
      then Some (trimStart (unlines rest)) else None
  end.
Proof.
  unfold extractObservationsCSV. cbv zeta.
  rewrite (proj1 (search_lines _)).
  by destruct (after_marker_nl _).
Qed.

Lemma payload_sentinel fullText :
  extractObservationsCSV fullText = None → payload fullText = fullText.
Proof. unfold payload. by intros ->. Qed.

Lemma payload_stripped fullText obs :
  extractObservationsCSV fullText = Some obs → payload fullText = obs.
Proof.
  unfold payload. intros H. rewrite H. destruct obs; [| done].
  unfold extractObservationsCSV in H. cbv zeta in H.
  destruct (search _ _); [| done].
  destruct (has_newline _) eqn:Hnl; [| done].
  injection H as H. rewrite H in Hnl. by vm_compute in Hnl.
Qed.

Lemma stripper_spec_None fullText :
  stripper_spec fullText = None →
  after_marker (lines (normalize_newlines fullText)) = None.
Proof. unfold stripper_spec. by destruct (after_marker _). Qed.

(** C4, as stated, fails on a payload that is one header line with no
    newline after it: the text has the marker line, everything after it is
    [A,B], and the code answers with the sentinel. *)
Lemma header_only_payload_counterexample :
  stripper_spec (js_lines ["OBSERVATIONS"; "A,B"]) = Some (js "A,B")
  ∧ extractObservationsCSV (js_lines ["OBSERVATIONS"; "A,B"]) = None.
Proof. split; by vm_compute. Qed.

(** C4, amended: with no marker line the stripper returns the sentinel and
    the full text is the payload; otherwise it looks at the first marker
    line that a newline ends, and returns everything after that line with
    leading whitespace trimmed when that text still holds a newline, and the
    sentinel in every other case. A returned text is the payload. *)
Theorem extract_observations_by_lines (fullText : jsstring) :
  (stripper_spec fullText = None →
     extractObservationsCSV fullText = None ∧ payload fullText = fullText)
  ∧ extractObservationsCSV fullText =
      match after_marker_nl (lines (normalize_newlines fullText)) with
      | None => None
      | Some rest =>
          if has_newline (trimStart (unlines rest))
          then Some (trimStart (unlines rest)) else None
      end
  ∧ (∀ obs, extractObservationsCSV fullText = Some obs → payload fullText = obs).
Proof.
  split; [| split].
  - intros Hspec. apply stripper_spec_None, after_marker_None_nl in Hspec.
    assert (He : extractObservationsCSV fullText = None)
      by by rewrite extract_lines, Hspec.
    split; [exact He | by apply payload_sentinel].
  - apply extract_lines.
  - apply payload_stripped.
Qed.

Example extract_wrapped_export :
  extractObservationsCSV
    (js_lines ["TITLE,rates"; ""; " observations  "; ""; "  date,V1"; "2020-01,1.5"; ""])
  = Some (js_lines ["date,V1"; "2020-01,1.5"; ""]).
Proof. by vm_compute. Qed.

(** C10: the stripper returns the sentinel although a marker line is there,
    whenever no marker line is ended by a newline, or the text after the
    marker line holds no newline once its leading whitespace is trimmed; the
    full original text is then the payload. *)
Theorem sentinel_despite_marker (fullText : jsstring) :
  Forall (λ '(l, t), is_marker_line l = true → t ≠ Some LF)
    (lines (normalize_newlines fullText))
  ∨ (∃ rest, after_marker_nl (lines (normalize_newlines fullText)) = Some rest
             ∧ has_newline (trimStart (unlines rest)) = false) →
  extractObservationsCSV fullText = None ∧ payload fullText = fullText.
Proof.
  intros H.
  assert (He : extractObservationsCSV fullText = None).
  { rewrite extract_lines. destruct H as [H | (rest & Hrest & Hnl)].
    - apply after_marker_nl_None in H. by rewrite H.
    - by rewrite Hrest, Hnl. }
  split; [exact He | by apply payload_sentinel].
Qed.

(** The header-only payload: the marker line is present and ended by a
    newline, the rest has no newline. *)
Lemma sentinel_despite_marker_witness :
  is_Some (stripper_spec (js_lines ["notes"; "OBSERVATIONS"; "A,B"]))
  ∧ extractObservationsCSV (js_lines ["notes"; "OBSERVATIONS"; "A,B"]) = None
  ∧ payload (js_lines ["notes"; "OBSERVATIONS"; "A,B"])
    = js_lines ["notes"; "OBSERVATIONS"; "A,B"].
Proof.
  split; [by eexists |].
  apply (sentinel_despite_marker (js_lines ["notes"; "OBSERVATIONS"; "A,B"])).
  right. exists [(js "A,B", None)]. split; reflexivity.
Defined.

(** The marker on the last line, with no newline after it. *)
Example sentinel_unterminated_marker :
  is_Some (stripper_spec (js_lines ["notes"; "OBSERVATIONS"]))
  ∧ extractObservationsCSV (js_lines ["notes"; "OBSERVATIONS"]) = None.
Proof. split; [by eexists | by vm_compute]. Qed.

End PreambleStripper.

(** ** The schema synchronizer *)

Section SchemaSynchronizer.
Context (w : World).

Lemma bind_inv {A B : Type} (m : M A) (k : A → M B) st r st' :
  (m ≫= k) st = (r, st') →
  (∃ a st1, m st = (Ok a, st1) ∧ k a st1 = (r, st'))
  ∨ (∃ e, m st = (Err e, st') ∧ r = Err e).
Proof.
  unfold mbind, M_bind. destruct (m st) as [[a | e] st1]; intros H.
  - left. by exists a, st1.
  - right. exists e. by injection H as <- <-.
Qed.

Lemma execSQL_inv s st r st' :
  execSQL w s st = (r, st') →
  issued st' = s :: issued st ∧ console st' = console st
  ∧ ((r = Ok () ∧ (tabs st', txn st') = apply_stmt s (tabs st) (txn st))
     ∨ (r = Err (SqlError s) ∧ tabs st' = tabs st ∧ txn st' = txn st)).
Proof.
  unfold execSQL. destruct (db_fails w (issued st) s).
  - intros [= <- <-]. simpl. by repeat split; try right.
  - destruct (apply_stmt s (tabs st) (txn st)) as [tb tx] eqn:E.
    intros [= <- <-]. simpl. repeat split. by left.
Qed.

Lemma log_inv l st : ∃ st', log l st = (Ok (), st') ∧ tabs st' = tabs st
  ∧ txn st' = txn st ∧ issued st' = issued st ∧ console st' = console st ++ [l].
Proof. unfold log. eexists. split; [reflexivity |]. by simpl. Qed.


Lemma add_column_sync t col existingCols st st' :
  in_sync t existingCols st →
  (tabs st', txn st') = apply_stmt (AddColumn t col) (tabs st) (txn st) →
  in_sync t ({[col]} ∪ existingCols) st'
  ∧ columns_of (tabs st') t = columns_of (tabs st) t ++ [col].
Proof.
  intros [[x Hx] ->]. unfold in_sync, columns_of. simpl. intros [= -> _].
  rewrite lookup_alter_eq, Hx. simpl.
  split; [split; [by eexists |] | done].
  rewrite list_to_set_app_L. simpl.
  by rewrite (right_id_L ∅ (∪)), (comm_L (∪)).
Qed.

Lemma add_missing_columns_spec t cols : ∀ existingCols st r st',
  in_sync t existingCols st →
  add_missing_columns w t cols existingCols st = (r, st') →
  columns_of (tabs st) t ⊆ columns_of (tabs st') t
  ∧ is_Some (tabs st' !! t)
  ∧ (∀ c, r = Ok c → in_sync t c st' ∧ ∀ col, col ∈ cols → col ∈ c)
  ∧ ((∀ col, col ∈ cols → col ∈ existingCols) → r = Ok existingCols ∧ st' = st).
Proof.
  induction cols as [| col rest IH]; intros existingCols st r st' Hsync; simpl.
  - intros [= <- <-]. split; [done |]. split; [apply Hsync |]. split.
    + intros c [= <-]. split; [done |]. intros col Hcol. by apply elem_of_nil in Hcol.
    + done.
  - destruct (decide (col ∈ existingCols)) as [Hin | Hnin].
    + intros H. destruct (IH _ _ _ _ Hsync H) as (Hsub & Hex & Hok & Hidem).
      split; [done |]. split; [done |]. split.
      * intros c Hc. destruct (Hok c Hc) as [Hs Hall]. split; [done |].
        intros col' [-> | Hcol']%elem_of_cons; [| by apply Hall].
        destruct Hs as [_ ->]. destruct Hsync as [_ Heq]. rewrite Heq in Hin.
        apply elem_of_list_to_set in Hin. apply elem_of_list_to_set. by apply Hsub.
      * intros Hall. apply Hidem. intros col' Hcol'. apply Hall. by right.
    + intros H. apply bind_inv in H as [(u & st1 & Hlog & H) | (e & Hlog & _)];
        [| done].
      cbv [log] in Hlog. simplify_eq.
      apply bind_inv in H as [([] & st2 & Hexec & H) | (e & Hexec & ->)].
      * apply execSQL_inv in Hexec as (_ & _ & [[_ Happly] | [? _]]); [| done].
        simpl in Happly.
        destruct (add_column_sync t col existingCols
                    {| tabs := tabs st; txn := txn st; issued := issued st;
                       console := console st ++ [LogSchemaChange col t] |}
                    st2 Hsync Happly) as [Hsync2 Hcols].
        simpl in Hcols.
        destruct (IH _ _ _ _ Hsync2 H) as (Hsub & Hex & Hok & _).
        split; [| split; [done |]; split].
        -- intros c Hc. apply Hsub. rewrite Hcols. apply elem_of_app. by left.
        -- intros c Hc. destruct (Hok c Hc) as [Hs Hall]. split; [done |].
           intros col' [-> | Hcol']%elem_of_cons; [| by apply Hall].
           destruct Hs as [_ ->]. apply elem_of_list_to_set, Hsub.
           rewrite Hcols. apply elem_of_app. right. by left.
        -- intros Hall. exfalso. apply Hnin, Hall. by left.
      * apply execSQL_inv in Hexec as (_ & _ & [[? _] | (_ & Htabs & _)]); [done |].
        simpl in Htabs. rewrite Htabs.
        split; [done |]. split; [apply Hsync |]. split; [done |].
        intros Hall. exfalso. apply Hnin, Hall. by left.
Qed.

Lemma ensureTableSchema_spec t H st r st' :
  ensureTableSchema w t H st = (r, st') →
  columns_of (tabs st) t ⊆ columns_of (tabs st') t
  ∧ (∀ c, r = Ok c → in_sync t c st' ∧ ∀ h, h ∈ H → sanitizeHeader h ∈ c)
  ∧ (∀ c0, in_sync t c0 st → (∀ h, h ∈ H → sanitizeHeader h ∈ c0) →
       tabs st' = tabs st ∧ ∀ c, r = Ok c → c = c0).
Proof.
  unfold ensureTableSchema. cbv zeta. intros Hrun.
  apply bind_inv in Hrun as [([] & st1 & Hcreate & Hrun) | (e & Hcreate & ->)].
  2:{ apply execSQL_inv in Hcreate as (_ & _ & [[? _] | (_ & -> & _)]); done. }
  apply execSQL_inv in Hcreate as (_ & _ & [[_ Hcreate] | [? _]]); [| done].
  assert (Hcols1 : columns_of (tabs st) t ⊆ columns_of (tabs st1) t
                   ∧ is_Some (tabs st1 !! t)
                   ∧ (is_Some (tabs st !! t) → tabs st1 = tabs st)).
  { simpl in Hcreate. unfold columns_of.
    destruct (tabs st !! t) as [x |] eqn:Hx; injection Hcreate as -> _.
    - rewrite Hx. by repeat split.
    - rewrite lookup_insert_eq. split; [by intros c Hc%elem_of_nil |].
      split; [by eexists | by intros [? ?]]. }
  destruct Hcols1 as (Hsub1 & Hex1 & Hsame1).
  unfold getExistingColumns in Hrun.
  apply bind_inv in Hrun as [(existing & st2 & Hinfo & Hrun) | (e & Hinfo & ->)].
  2:{ apply bind_inv in Hinfo as [(u & st3 & Hinfo & Hret) | (e' & Hinfo & _)];
        [done |].
      apply execSQL_inv in Hinfo as (_ & _ & [[? _] | (_ & Htabs & _)]); [done |].
      rewrite Htabs. split; [done |]. split; [done |].
      intros c0 [Hex0 _] _. split; [by apply Hsame1 | done]. }
  apply bind_inv in Hinfo as [([] & st3 & Hinfo & Hret) | (e' & _ & ?)]; [| done].
  apply execSQL_inv in Hinfo as (_ & _ & [[_ Hinfo] | [? _]]); [| done].
  simpl in Hinfo. injection Hinfo as Htabs3 _.
  cbv [inspect] in Hret. injection Hret as <- <-.
  assert (Hsync : in_sync t (list_to_set (columns_of (tabs st3) t)) st3).
  { split; [by rewrite Htabs3 | done]. }
  destruct (add_missing_columns_spec _ _ _ _ _ _ Hsync Hrun)
    as (Hsub & _ & Hok & Hidem).
  rewrite Htabs3 in Hsub. split; [by etrans |]. split.
  - intros c Hc. destruct (Hok c Hc) as [Hs Hall]. split; [done |].
    intros h Hh. apply Hall. by apply list_elem_of_fmap_2.
  - intros c0 [Hex0 ->] Hall.
    assert (Hback : tabs st3 = tabs st) by (rewrite Htabs3; by apply Hsame1).
    destruct Hidem as [-> ->].
    + intros col (h & -> & Hh)%list_elem_of_fmap. rewrite Hback. by apply Hall.
    + split; [done |]. intros c [= <-]. by rewrite Hback.
Qed.

(** C5: two successive runs of the synchronizer on a relation never
    remove a column; when both return, the returned Set is the column set of
    the relation and holds the sanitized names of both header sets; and a
    run whose headers are all among those of an earlier run that returned
    leaves the store as it was. *)
Theorem schema_sync_monotone (t : jsstring) (H1 H2 : list jsstring)
    (st st1 st2 : state) (r1 r2 : result (gset jsstring)) :
  ensureTableSchema w t H1 st = (r1, st1) →
  ensureTableSchema w t H2 st1 = (r2, st2) →
  (columns_of (tabs st) t ⊆ columns_of (tabs st1) t
   ∧ columns_of (tabs st1) t ⊆ columns_of (tabs st2) t)
  ∧ (∀ c1 c2, r1 = Ok c1 → r2 = Ok c2 →
       c2 = list_to_set (columns_of (tabs st2) t)
       ∧ ∀ h, h ∈ H1 ++ H2 → sanitizeHeader h ∈ c2)
  ∧ (∀ c1, r1 = Ok c1 →
       (∀ h, h ∈ H2 → sanitizeHeader h ∈ sanitizeHeader <$> H1) →
       tabs st2 = tabs st1 ∧ ∀ c2, r2 = Ok c2 → c2 = c1).
Proof.
  intros Hrun1 Hrun2.
  destruct (ensureTableSchema_spec _ _ _ _ _ Hrun1) as (Hsub1 & Hok1 & _).
  destruct (ensureTableSchema_spec _ _ _ _ _ Hrun2) as (Hsub2 & Hok2 & Hidem2).
  split; [done |]. split.
  - intros c1 c2 Hc1 Hc2.
    destruct (Hok1 c1 Hc1) as [[_ Heq1] Hall1].
    destruct (Hok2 c2 Hc2) as [[_ Heq2] Hall2].
    split; [done |]. intros h [Hh | Hh]%elem_of_app; [| by apply Hall2].
    rewrite Heq2. apply elem_of_list_to_set, Hsub2.
    apply (elem_of_list_to_set (C := gset jsstring)).
    rewrite <- Heq1. by apply Hall1.
  - intros c1 Hc1 Hsubset.
    destruct (Hok1 c1 Hc1) as [Hsync1 Hall1].
    apply (Hidem2 c1 Hsync1).
    intros h Hh. pose proof (Hsubset h Hh) as Hx.
    apply list_elem_of_fmap in Hx as (h' & -> & Hh'). by apply Hall1.
Qed.

End SchemaSynchronizer.

(** A first batch with one header, a second with a new one and the old one. *)
Lemma schema_sync_monotone_witness :
  let w := calm_world [] in
  let run1 := ensureTableSchema w (js "CPI") [js "REF DATE"] initial_state in
  let run2 := ensureTableSchema w (js "CPI") [js "VALUE"; js "REF DATE"] run1.2 in
  columns_of (tabs run1.2) (js "CPI") ⊆ columns_of (tabs run2.2) (js "CPI")
  ∧ columns_of (tabs run2.2) (js "CPI") = [js "REF_DATE"; js "VALUE"].
Proof.
  intros w run1 run2.
  destruct (schema_sync_monotone w (js "CPI") [js "REF DATE"]
              [js "VALUE"; js "REF DATE"] initial_state run1.2 run2.2
              run1.1 run2.1) as ((_ & Hsub) & _).
  - apply surjective_pairing.
  - apply surjective_pairing.
  - split; [exact Hsub | by vm_compute].
Defined.

(** ** The column remapper *)

Section ColumnRemapper.
Context (w : World).




Lemma get_prop_None obj k :
  get_prop w obj k = None ↔ obj !! k = None ∧ object_prototype w k = None.
Proof.
  unfold get_prop. destruct (obj !! k); [| by split; [| intros [_ ?]]].
  split; [done | by intros [? _]].
Qed.


Lemma accessor_inherited k : accessor w k = true → is_Some (object_prototype w k).
Proof.
  unfold accessor. intros [_ H]%andb_true_iff. by apply bool_decide_eq_true in H.
Qed.

(** Where the prototype holds nothing, assigning is inserting. *)
Lemma set_prop_plain obj k v :
  object_prototype w k = None → set_prop w k v obj = <[k := v]> obj.
Proof.
  intros Hk. unfold set_prop. destruct (accessor w k) eqn:Ha; [| done].
  apply accessor_inherited in Ha as [? ?]. congruence.
Qed.

Lemma set_prop_other obj k v k' :
  k' ≠ k → set_prop w k v obj !! k' = obj !! k'.
Proof.
  intros Hne. unfold set_prop. destruct (accessor w k); [done |].
  by rewrite lookup_insert_ne.
Qed.

Lemma rule_fires_true existingCols entries inKey tgtKey :
  rule_fires w existingCols entries inKey tgtKey = true
  ↔ is_Some (get_prop w entries inKey) ∧ tgtKey ∈ existingCols.
Proof.
  unfold rule_fires.
  by rewrite andb_true_iff, !bool_decide_eq_true.
Qed.





(** The row with only the incoming field, and the target among the
    columns: the value moves. *)
Example remap_moves_value :
  rawEntries (remap (calm_world [(js "A", js "B")]) (js "T") {[js "B"]}
                (Remapping {[js "A" := js "5"]} [] ∅ []))
  = {[js "B" := js "5"]}.
Proof. by vm_compute. Qed.

(** The target is not a column: the rule does not fire. *)
Example remap_gated_by_schema :
  remap (calm_world [(js "A", js "B")]) (js "T") {[js "A"]}
    (Remapping {[js "A" := js "5"]} [] ∅ [])
  = Remapping {[js "A" := js "5"]} [] ∅ [].
Proof. by vm_compute. Qed.



End ColumnRemapper.


(** ** The write set of a row *)

Section RowLoader.
Context (w : World).

Lemma build_entries_snoc row kv :
  build_entries w (row ++ [kv]) = keep_field w (build_entries w row) kv.
Proof. unfold build_entries. by rewrite foldl_app. Qed.

Lemma build_entries_nil : build_entries w [] = ∅.
Proof. reflexivity. Qed.

Lemma trim_empty : trim [] = [].
Proof. reflexivity. Qed.

Lemma set_prop_lookup obj k v :
  set_prop w k v obj !! k = if accessor w k then obj !! k else Some v.
Proof.
  unfold set_prop. destruct (accessor w k); [done |]. apply lookup_insert_eq.
Qed.


(** A field of the write set holds the value of one of the row's fields of
    that name, as it was read, and that value is not blank. *)
Lemma build_entries_Some row k v :
  build_entries w row !! k = Some v →
  trim v ≠ [] ∧ ∃ key, (key, Some v) ∈ row ∧ sanitizeHeader key = k.
Proof.
  induction row as [| [key0 value0] row IH] using rev_ind.
  - by rewrite build_entries_nil, lookup_empty.
  - rewrite build_entries_snoc. unfold keep_field. simpl.
    assert (Hold : build_entries w row !! k = Some v →
              trim v ≠ [] ∧
              ∃ key, (key, Some v) ∈ row ++ [(key0, value0)]
                     ∧ sanitizeHeader key = k).
    { intros (Hv & key & Hin & Hk)%IH. split; [done |].
      exists key. split; [| done]. apply elem_of_app. by left. }
    case_bool_decide as Hblank; [done |].
    destruct (decide (sanitizeHeader key0 = k)) as [<- | Hne].
    + rewrite set_prop_lookup. destruct (accessor w _); [done |].
      intros [= <-]. split; [done |].
      exists key0. split; [| done]. apply elem_of_app. right.
      destruct value0 as [v0 |]; [by left | done].
    + by rewrite set_prop_other.
Qed.



(** The [data] handler, step by step: the notices, and for a row that is
    not empty the insert, which is then in flight. *)
Lemma on_data_eq t existingCols env row st :
  let r := remap w t existingCols
             (Remapping (build_entries w row) (env_counts env) (env_logged env) []) in
  on_data w t existingCols env row st
  = if decide (rawEntries r = ∅) then
      (Ok (RemapEnv (remapCounts r) (remapLoggedOnce r) (env_flying env)),
       {| tabs := tabs st; txn := txn st; issued := issued st;
          console := console st ++ notices r |})
    else
      (Ok (RemapEnv (remapCounts r) (remapLoggedOnce r)
             (env_flying env ++
              [Flight t (rawEntries r)
                 (db_fails w (issued st) (InsertInto t (rawEntries r)))])),
       {| tabs := tabs st; txn := txn st;
          issued := InsertInto t (rawEntries r) :: issued st;
          console := console st ++ notices r |}).
Proof.
  intros r. unfold on_data. fold r.
  unfold mbind, M_bind, log_all, insert_row. simpl.
  by destruct (decide (rawEntries r = ∅)).
Qed.


Lemma remap_rule_notices t existingCols acc rule :
  ∃ said, notices (remap_rule w t existingCols acc rule) = notices acc ++ said
          ∧ Forall (is_remap_notice t) said.
Proof.
  unfold remap_rule. destruct (rule_fires _ _ _ _ _); simpl.
  - destruct (decide _).
    + exists []. split; [done | constructor].
    + eexists. split; [done |]. repeat constructor. by eexists _, _.
  - exists []. split; [by rewrite app_nil_r | constructor].
Qed.

Lemma remap_rules_notices t existingCols rules : ∀ acc,
  ∃ said, notices (foldl (remap_rule w t existingCols) acc rules)
          = notices acc ++ said
          ∧ Forall (is_remap_notice t) said.
Proof.
  induction rules as [| rule rules IH]; intros acc; simpl.
  - exists []. split; [by rewrite app_nil_r | constructor].
  - destruct (IH (remap_rule w t existingCols acc rule)) as (said2 & -> & H2).
    destruct (remap_rule_notices t existingCols acc rule) as (said1 & -> & H1).
    exists (said1 ++ said2). split; [by rewrite app_assoc |].
    by apply Forall_app.
Qed.



End RowLoader.


(** A field whose name sanitizes to [__proto__] is lost, and a row that has
    no other is skipped. *)
Example proto_field_dropped :
  build_entries (calm_world []) [(js " _proto__", Some (js "5"))] = ∅
  ∧ on_data (calm_world []) (js "T") {[js "A"]} empty_env
      [(js " _proto__", Some (js "5"))] initial_state
    = (Ok empty_env, initial_state).
Proof. split; by vm_compute. Qed.

(** A row of blanks is skipped silently. *)
Example blank_row_skipped :
  on_data (calm_world []) (js "T") {[js "A"]} empty_env
    [(js "A", Some (js "  ")); (js "B", Some []); (js "C", None)] initial_state
  = (Ok empty_env, initial_state).
Proof. by vm_compute. Qed.

(** With a rule over [toString], a row of blanks is not skipped: the text
    of the inherited function is sent to the store. *)
Example blank_row_not_skipped :
  issued (on_data (calm_world [(js "toString", js "A")]) (js "T") {[js "A"]}
            empty_env [(js "A", Some (js "  "))] initial_state).2
  = [InsertInto (js "T")
       {[js "A" := js "function toString() { [native code] }"]}].
Proof. by vm_compute. Qed.

(** ** The overwrite transaction *)

Section Overwrite.
Context (w : World).




(** *** Inserts that come back *)

Lemma land_frame fl st :
  txn (land fl st) = txn st
  ∧ issued (land fl st) = issued st
  ∧ console (land fl st) = console st ++ failure_lines fl.
Proof.
  unfold land, failure_lines. destruct (fl_refused fl); simpl; [done |].
  by rewrite app_nil_r.
Qed.

Lemma land_list_snoc landed fl st :
  land_list (landed ++ [fl]) st = land fl (land_list landed st).
Proof. unfold land_list. by rewrite foldl_app. Qed.

Lemma land_list_app l1 l2 st :
  land_list (l1 ++ l2) st = land_list l2 (land_list l1 st).
Proof. unfold land_list. by rewrite foldl_app. Qed.

Lemma land_list_frame landed st :
  txn (land_list landed st) = txn st
  ∧ issued (land_list landed st) = issued st
  ∧ console (land_list landed st) = console st ++ (landed ≫= failure_lines).
Proof.
  induction landed as [| fl landed IH] using rev_ind.
  - simpl. by rewrite app_nil_r.
  - rewrite land_list_snoc.
    destruct (land_frame fl (land_list landed st)) as (-> & -> & ->).
    destruct IH as (-> & -> & ->).
    split; [done |]. split; [done |].
    rewrite bind_app. simpl. by rewrite app_nil_r, app_assoc.
Qed.

(** What comes back changes the relations through their content only. *)
Lemma land_tabs fl st st0 :
  tabs st = tabs st0 → tabs (land fl st) = tabs (land fl st0).
Proof.
  intros Heq. unfold land. destruct (fl_refused fl); simpl; [done |].
  by rewrite Heq.
Qed.

Lemma land_list_tabs landed st st0 :
  tabs st = tabs st0 → tabs (land_list landed st) = tabs (land_list landed st0).
Proof.
  revert st st0. induction landed as [| fl landed IH]; intros st st0 Heq; [done |].
  simpl. by apply IH, land_tabs.
Qed.



(** The inserts that the world picks come back, each once. *)
Lemma land_picks_spec picks : ∀ flying st,
  ∃ landed,
    (land_picks picks flying st).2 = land_list landed st
    ∧ flying ≡ₚ landed ++ (land_picks picks flying st).1.
Proof.
  induction picks as [| i picks IH]; intros flying st; simpl.
  - by exists [].
  - destruct (flying !! i) as [fl |] eqn:Hi; [| apply IH].
    destruct (IH (delete i flying) (land fl st)) as (landed & Hst & Hperm).
    exists (fl :: landed). split; [done |].
    trans (fl :: delete i flying); [by apply delete_Permutation |].
    simpl. by apply Permutation_skip.
Qed.

Lemma land_some_spec flying st :
  ∃ landed,
    (land_some w flying st).2 = land_list landed st
    ∧ flying ≡ₚ landed ++ (land_some w flying st).1.
Proof. apply land_picks_spec. Qed.

Lemma land_all_spec flying st :
  ∃ landed, land_all w flying st = land_list landed st ∧ landed ≡ₚ flying.
Proof.
  unfold land_all. destruct (land_some_spec flying st) as (landed & Hst & Hperm).
  destruct (land_some w flying st) as [rest st1]. simpl in *. subst st1.
  exists (landed ++ rest). split; [by rewrite land_list_app | done].
Qed.

Lemma between_events_spec env st :
  ∃ landed flying,
    between_events w env st
    = (Ok (RemapEnv (env_counts env) (env_logged env) flying),
       land_list landed st)
    ∧ env_flying env ≡ₚ landed ++ flying.
Proof.
  unfold between_events.
  destruct (land_some_spec (env_flying env) st) as (landed & Hst & Hperm).
  destruct (land_some w (env_flying env) st) as [flying st1]. simpl in *.
  subst st1. by exists landed, flying.
Qed.

(** *** The statements of the streaming phase *)

Lemma remap_rule_entries t existingCols acc1 acc2 rule :
  rawEntries acc1 = rawEntries acc2 →
  rawEntries (remap_rule w t existingCols acc1 rule)
  = rawEntries (remap_rule w t existingCols acc2 rule).
Proof.
  intros Heq. unfold remap_rule. rewrite Heq.
  by destruct (rule_fires _ _ _ _ _).
Qed.

Lemma remap_rules_entries t existingCols rules : ∀ acc1 acc2,
  rawEntries acc1 = rawEntries acc2 →
  rawEntries (foldl (remap_rule w t existingCols) acc1 rules)
  = rawEntries (foldl (remap_rule w t existingCols) acc2 rules).
Proof.
  induction rules as [| rule rules IH]; intros acc1 acc2 Heq; simpl; [done |].
  by apply IH, remap_rule_entries.
Qed.

(** The row that the handler sends does not depend on the counters. *)
Lemma on_data_write_set t existingCols env row :
  rawEntries (remap w t existingCols
                (Remapping (build_entries w row) (env_counts env)
                   (env_logged env) []))
  = write_set w t existingCols row.
Proof. unfold write_set, remap. by apply remap_rules_entries. Qed.

Lemma loaded_rows_cons t existingCols row rws :
  loaded_rows w t existingCols (row :: rws)
  = (if decide (write_set w t existingCols row = ∅) then []
     else [write_set w t existingCols row])
    ++ loaded_rows w t existingCols rws.
Proof.
  unfold loaded_rows. rewrite fmap_cons, filter_cons.
  destruct (decide (write_set w t existingCols row = ∅)) as [Hempty | Hfull].
  - by rewrite decide_False by (by intros ?).
  - by rewrite decide_True.
Qed.

Lemma notices_no_failure t said :
  Forall (is_remap_notice t) said → filter is_failure_line said = [].
Proof.
  induction 1 as [| l said (a & b & ->) _ IH]; [done |].
  by rewrite filter_cons_False by (by intros ?).
Qed.

Lemma failure_lines_kept landed :
  filter is_failure_line (landed ≫= failure_lines) = landed ≫= failure_lines.
Proof.
  induction landed as [| fl landed IH]; [done |].
  rewrite bind_cons, filter_app, IH. f_equal.
  unfold failure_lines. by destruct (fl_refused fl).
Qed.

(** One [data] event: the handler sends the insert of a write set that is
    not empty, and it is in flight. *)
Lemma on_data_flights t existingCols env row st :
  ∃ env' st',
    on_data w t existingCols env row st = (Ok env', st')
    ∧ tabs st' = tabs st
    ∧ txn st' = txn st
    ∧ issued st' = streamed w t existingCols [row] ++ issued st
    ∧ filter is_failure_line (console st') = filter is_failure_line (console st)
    ∧ env_flying env'
      = env_flying env
        ++ sent_flights w t (issued st) (loaded_rows w t existingCols [row]).
Proof.
  rewrite on_data_eq. unfold streamed.
  rewrite loaded_rows_cons. rewrite on_data_write_set.
  assert (Hquiet : filter is_failure_line
                     (notices (remap w t existingCols
                        (Remapping (build_entries w row) (env_counts env)
                           (env_logged env) []))) = []).
  { unfold remap.
    destruct (remap_rules_notices w t existingCols (automigrations w)
                (Remapping (build_entries w row) (env_counts env)
                   (env_logged env) [])) as (said & -> & Hsaid).
    by eapply notices_no_failure. }
  unfold loaded_rows at 1 2. rewrite fmap_nil, filter_nil, !app_nil_r.
  destruct (decide (write_set w t existingCols row = ∅)).
  - eexists _, _. split; [done |]. simpl.
    rewrite filter_app, Hquiet, !app_nil_r. by repeat split.
  - eexists _, _. split; [done |]. simpl.
    rewrite filter_app, Hquiet, !app_nil_r. by repeat split.
Qed.

Lemma sent_flights_app t hist rows1 rows2 :
  sent_flights w t hist (rows1 ++ rows2)
  = sent_flights w t hist rows1
    ++ sent_flights w t (reverse (InsertInto t <$> rows1) ++ hist) rows2.
Proof.
  revert hist. induction rows1 as [| r rows1 IH]; intros hist; [done |].
  simpl. rewrite IH. do 3 f_equal.
  by rewrite reverse_cons, <- app_assoc.
Qed.


(** The streaming phase: the statements sent are the inserts of the write
    sets that are not empty, in the order of the rows, whatever the store
    answers; the transaction is the one it started in; the inserts that have
    come back, in some order, are among those that were in flight or sent,
    each once, and the others are still in flight. *)
Lemma stream_rows_flights t existingCols rws : ∀ env st,
  ∃ env' st' landed,
    stream_rows w t existingCols env rws st = (Ok env', st')
    ∧ txn st' = txn st
    ∧ issued st' = streamed w t existingCols rws ++ issued st
    ∧ tabs st' = tabs (land_list landed st)
    ∧ filter is_failure_line (console st')
      = filter is_failure_line (console st) ++ (landed ≫= failure_lines)
    ∧ env_flying env
      ++ sent_flights w t (issued st) (loaded_rows w t existingCols rws)
      ≡ₚ landed ++ env_flying env'.
Proof.
  induction rws as [| row rest IH]; intros env st.
  - exists env, st, []. simpl. unfold loaded_rows. simpl.
    by rewrite !app_nil_r.
  - cbn [stream_rows]. unfold mbind, M_bind.
    destruct (on_data_flights t existingCols env row st)
      as (env1 & st1 & -> & Htabs1 & Htxn1 & Hissued1 & Hcons1 & Hfly1).
    destruct (between_events_spec env1 st1) as (landed1 & fly2 & -> & Hperm1).
    set (env2 := RemapEnv (env_counts env1) (env_logged env1) fly2).
    destruct (IH env2 (land_list landed1 st1))
      as (env3 & st3 & landed2 & -> & Htxn3 & Hissued3 & Htabs3 & Hcons3 & Hperm3).
    destruct (land_list_frame landed1 st1) as (Htxn2 & Hissued2 & Hcons2).
    exists env3, st3, (landed1 ++ landed2).
    split; [done |]. split; [congruence |].
    split.
    { rewrite Hissued3, Hissued2, Hissued1. unfold streamed.
      assert (Hrows : loaded_rows w t existingCols (row :: rest)
                      = loaded_rows w t existingCols [row]
                        ++ loaded_rows w t existingCols rest).
      { unfold loaded_rows. by rewrite <- filter_app, <- fmap_app. }
      by rewrite Hrows, fmap_app, reverse_app, app_assoc. }
    split.
    { rewrite Htabs3, land_list_app. apply land_list_tabs.
      by apply land_list_tabs. }
    split.
    { rewrite Hcons3, Hcons2, filter_app, failure_lines_kept, Hcons1.
      by rewrite bind_app, app_assoc. }
    assert (Hrows : loaded_rows w t existingCols (row :: rest)
                    = loaded_rows w t existingCols [row]
                      ++ loaded_rows w t existingCols rest).
    { unfold loaded_rows. by rewrite <- filter_app, <- fmap_app. }
    rewrite Hrows, sent_flights_app, app_assoc, <- Hfly1.
    rewrite Hperm1. simpl in Hperm3.
    rewrite Hissued2, Hissued1 in Hperm3. unfold streamed in Hperm3.
    rewrite <- !app_assoc. rewrite Hperm3. by rewrite app_assoc.
Qed.

(** Streaming never throws, stays in the transaction it started in, and
    sends nothing but inserts into the relation. *)
Lemma stream_rows_spec t existingCols rws : ∀ env st,
  ∃ env' st' ins,
    stream_rows w t existingCols env rws st = (Ok env', st')
    ∧ txn st' = txn st
    ∧ issued st' = ins ++ issued st
    ∧ Forall (is_insert t) ins.
Proof.
  intros env st.
  destruct (stream_rows_flights t existingCols rws env st)
    as (env' & st' & landed & Hrun & Htxn & Hissued & _).
  exists env', st', (streamed w t existingCols rws).
  do 3 (split; [done |]). unfold streamed.
  apply Forall_reverse, Forall_fmap, Forall_forall. intros r _. by exists r.
Qed.






Lemma totals_no_failure t counts :
  filter is_failure_line ((λ kc : jsstring * nat, LogRemapTotal t kc.1 kc.2) <$> counts)
  = [].
Proof.
  induction counts as [| kc counts IH]; [done |].
  rewrite fmap_cons. by rewrite filter_cons_False by (by intros ?).
Qed.

(** What is left to come back when the handlers are done. *)
Lemma wind_up_spec env handler st out st3 :
  handler st = (out, st3) →
  ∃ landed,
    wind_up w env handler st = (out, land_list landed st3)
    ∧ landed ≡ₚ env_flying env.
Proof.
  intros Hhandler. unfold wind_up. rewrite Hhandler.
  destruct (land_all_spec (env_flying env) st3) as (landed & -> & Hperm).
  by exists landed.
Qed.

(** A dataset whose clear went through, from the first row to the end:
    the handler of the event that ends the stream sends [COMMIT] on [end]
    and nothing on [error], prints no line of an insert, and leaves the
    relations as they are; what is in flight comes back behind it. *)
Lemma promise_streaming name t promise headers rws fin st cols st1 :
  streams_dataset w name t promise →
  headers ≠ [] →
  prepare w t headers st = (Ok cols, st1) →
  ∃ env st2 out st3 landed,
    stream_rows w t cols empty_env rws st1 = (Ok env, st2)
    ∧ promise (CsvEvents (Some headers) rws fin) st = (out, land_list landed st3)
    ∧ landed ≡ₚ env_flying env
    ∧ tabs st3 = tabs st2
    ∧ filter is_failure_line (console st3) = filter is_failure_line (console st2)
    ∧ out = match fin with
            | StreamError => Rejected ParserError
            | StreamEnd =>
                if db_fails w (issued st2) Commit then Pending else Resolved
            end
    ∧ issued st3 = match fin with
                   | StreamError => issued st2
                   | StreamEnd => Commit :: issued st2
                   end
    ∧ txn st3 = match fin with
                | StreamError => txn st2
                | StreamEnd =>
                    if db_fails w (issued st2) Commit then txn st2 else None
                end.
Proof.
  intros Hpromise Hheaders Hprepare.
  destruct (stream_rows_spec t cols rws empty_env st1)
    as (env & st2 & ins & Hstream & _).
  exists env, st2.
  assert (Hshape : ∃ handler,
    promise (CsvEvents (Some headers) rws fin) st = wind_up w env handler st2
    ∧ ∃ out st3,
        handler st2 = (out, st3)
        ∧ tabs st3 = tabs st2
        ∧ filter is_failure_line (console st3)
          = filter is_failure_line (console st2)
        ∧ out = match fin with
                | StreamError => Rejected ParserError
                | StreamEnd =>
                    if db_fails w (issued st2) Commit then Pending else Resolved
                end
        ∧ issued st3 = match fin with
                       | StreamError => issued st2
                       | StreamEnd => Commit :: issued st2
                       end
        ∧ txn st3 = match fin with
                    | StreamError => txn st2
                    | StreamEnd =>
                        if db_fails w (issued st2) Commit then txn st2 else None
                    end).
  { destruct Hpromise as [-> | ->];
      unfold remote_promise, local_promise; simpl;
      rewrite decide_False by done; rewrite Hprepare, Hstream;
      (eexists; split; [reflexivity |]);
      destruct fin;
      unfold remote_on_end, local_on_end, log_totals, overWriteMode, mbind,
        M_bind, execSQL, log, log_all, settle; simpl;
      try destruct (db_fails w (issued st2) Commit); simpl;
      eexists _, _; (split; [reflexivity |]); simpl;
      rewrite ?filter_app, ?totals_no_failure, ?app_nil_r; by repeat split. }
  destruct Hshape as (handler & Hrun & out & st3 & Hhandler & Hrest).
  destruct (wind_up_spec env handler st2 out st3 Hhandler) as (landed & Hwind & Hperm).
  exists out, st3, landed. rewrite Hrun, Hwind.
  do 3 (split; [done |]). exact Hrest.
Qed.



End Overwrite.



Section SameNameRule.
Context (w : World).


End SameNameRule.


(** The same rule at work in the [data] handler: the row that is inserted
    has lost its date. *)
Example same_name_rule_loses_date :
  issued (on_data (calm_world [(js "REF DATE", js "REF_DATE")]) (js "CPI")
            {[js "REF_DATE"; js "VALUE"]} empty_env
            [(js "REF DATE", Some (js "2020-01")); (js "VALUE", Some (js "100.2"))]
            initial_state).2
  = [InsertInto (js "CPI") {[js "VALUE" := js "100.2"]}].
Proof. by vm_compute. Qed.

(** ** The orchestrator *)

Section Orchestrator.
Context (w : World).

(** A rejection from the download is caught and the loop goes on. *)
Lemma remote_rejection_advances index name url rest st e st' :
  isRemoteUrl url = true →
  downloadCsvToSqlite w name url index st = (Rejected e, st') →
  main_loop w index ((name, url) :: rest) st
  = enter name (main_loop w (S index) rest (log (LogErrorProcessing name) st').2).
Proof. intros Hremote Hrun. cbn [main_loop]. by rewrite Hremote, Hrun. Qed.

(** A rejection from the local ingester is not caught: the loop ends with
    the datasets after it untouched. *)
Lemma local_rejection_ends_loop index name path rest st e st' :
  isRemoteUrl path = false →
  existsSync w path = true →
  ingestLocalCsv w name path (log (LogUsingLocal name path) st).2 = (Rejected e, st') →
  main_loop w index ((name, path) :: rest) st = Run [name] false st'.
Proof.
  intros Hlocal Hexists Hrun. cbn [main_loop].
  rewrite Hlocal, Hexists. cbn [negb]. by rewrite Hrun.
Qed.

End Orchestrator.

(** C1 fails on the code: with two local datasets, the first of which is
    rejected by the store when its table is created, the loop ends after the
    first; the second dataset is never read and gets no relation. Over HTTP
    the same two datasets are both visited and the second is loaded. *)
Theorem local_rejection_halts_run :
  main_loop colliding_world 0
    [(js "A", js "./a.csv"); (js "B", js "./b.csv")] initial_state
  = Run [js "A"] false
      {| tabs := ∅; txn := None;
         issued := [CreateTableIfNotExists (js "A") [js "REF_DATE"; js "REF_DATE"]];
         console := [LogUsingLocal (js "A") (js "./a.csv")] |}
  ∧ visited (main_loop colliding_world 0
               [(js "A", js "https://host/a.csv"); (js "B", js "https://host/b.csv")]
               initial_state)
    = [js "A"; js "B"]
  ∧ rows_of (tabs (final (main_loop colliding_world 0
               [(js "A", js "https://host/a.csv"); (js "B", js "https://host/b.csv")]
               initial_state))) (js "B")
    = [{[js "V" := js "7"]}].
Proof. repeat split; by vm_compute. Qed.

(** ** The totals of the remapper *)

Section Totals.
Context (w : World).

Lemma bump_keys k counts :
  (bump k counts).*1 = counts.*1 ∧ k ∈ counts.*1
  ∨ (bump k counts).*1 = counts.*1 ++ [k] ∧ k ∉ counts.*1.
Proof.
  induction counts as [| [k' n] rest IH]; cbn [bump].
  - right. split; [done | apply not_elem_of_nil].
  - destruct (decide (k' = k)) as [-> | Hne]; rewrite !fmap_cons; cbn [fst].
    + left. split; [done | by left].
    + destruct IH as [[-> Hin] | [-> Hnin]].
      * left. split; [done | by right].
      * right. split; [done |]. by intros [? | ?]%elem_of_cons.
Qed.

Lemma bump_NoDup k counts : NoDup counts.*1 → NoDup (bump k counts).*1.
Proof.
  intros Hnd. destruct (bump_keys k counts) as [[-> _] | [-> Hnin]]; [done |].
  apply NoDup_app. split; [done |]. split; [| apply NoDup_singleton].
  by intros k' Hk' ->%list_elem_of_singleton.
Qed.

Lemma remap_rule_NoDup t existingCols acc rule :
  NoDup (remapCounts acc).*1 →
  NoDup (remapCounts (remap_rule w t existingCols acc rule)).*1.
Proof.
  intros Hnd. unfold remap_rule. destruct (rule_fires _ _ _ _ _); [| done].
  by apply bump_NoDup.
Qed.

Lemma remap_NoDup t existingCols acc :
  NoDup (remapCounts acc).*1 →
  NoDup (remapCounts (remap w t existingCols acc)).*1.
Proof.
  unfold remap. generalize (automigrations w). intros rules. revert acc.
  induction rules as [| rule rules IH]; intros acc Hnd; simpl; [done |].
  by apply IH, remap_rule_NoDup.
Qed.

Lemma on_data_counts t existingCols env row st env' st' :
  on_data w t existingCols env row st = (Ok env', st') →
  env_counts env'
  = remapCounts (remap w t existingCols
                   (Remapping (build_entries w row) (env_counts env)
                      (env_logged env) [])).
Proof.
  rewrite on_data_eq. by destruct (decide _); intros [= <- _].
Qed.

Lemma between_events_counts env st env' st' :
  between_events w env st = (Ok env', st') →
  env_counts env' = env_counts env ∧ env_logged env' = env_logged env.
Proof.
  destruct (between_events_spec w env st) as (landed & flying & -> & _).
  by intros [= <- _].
Qed.

(** The counters hold each pair once, however many rows went through. *)
Lemma stream_rows_NoDup t existingCols rws : ∀ env st env' st',
  NoDup (env_counts env).*1 →
  stream_rows w t existingCols env rws st = (Ok env', st') →
  NoDup (env_counts env').*1.
Proof.
  induction rws as [| row rest IH]; intros env st env' st' Hnd; simpl.
  - by intros [= <- _].
  - intros H. apply bind_inv in H as [(env1 & st1 & Hrow & H) | (e & _ & ?)];
      [| done].
    apply bind_inv in H as [(env2 & st2 & Hbetween & H) | (e & _ & ?)];
      [| done].
    apply on_data_counts in Hrow.
    apply between_events_counts in Hbetween as [Hcounts _].
    eapply IH; [| exact H].
    rewrite Hcounts, Hrow. by apply remap_NoDup.
Qed.

(** The [end] handler of the local ingester prints one line for each pair
    of the counters, with its count, and then the success notice. *)
Lemma local_on_end_prints t env st :
  db_fails w (issued st) Commit = false →
  local_on_end w t env st
  = (Ok (),
     {| tabs := tabs st; txn := None; issued := Commit :: issued st;
        console := (console st
                    ++ ((λ kc, LogRemapTotal t kc.1 kc.2) <$> env_counts env))
                   ++ [LogInserted t] |}).
Proof.
  intros Hcommit.
  unfold local_on_end, overWriteMode, log_totals, mbind, M_bind, execSQL,
    log_all, log.
  simpl. by rewrite Hcommit.
Qed.

(** The [end] handler of the download prints the success notice only. *)
Lemma remote_on_end_prints t env st :
  db_fails w (issued st) Commit = false →
  remote_on_end w t env st
  = (Ok (),
     {| tabs := tabs st; txn := None; issued := Commit :: issued st;
        console := console st ++ [LogInserted t] |}).
Proof.
  intros Hcommit.
  unfold remote_on_end, overWriteMode, mbind, M_bind, execSQL, log.
  simpl. by rewrite Hcommit.
Qed.

(** *** The download prints no summary line, whatever it loads *)

Lemma adds_no_total_refl st : adds_no_total st st.
Proof. exists []. split; [by rewrite app_nil_r | constructor]. Qed.

Lemma adds_no_total_trans st1 st2 st3 :
  adds_no_total st1 st2 → adds_no_total st2 st3 → adds_no_total st1 st3.
Proof.
  intros (a & Ha & Hqa) (b & Hb & Hqb). exists (a ++ b).
  split; [by rewrite Hb, Ha, app_assoc | by apply Forall_app].
Qed.

Lemma adds_no_total_log l st : is_total l = false → adds_no_total st (log l st).2.
Proof. intros Hl. exists [l]. split; [done | by repeat constructor]. Qed.

Lemma quiet_ret {A : Type} (a : A) : quiet (mret a).
Proof. intros st r st' [= <- <-]. apply adds_no_total_refl. Qed.

Lemma quiet_bind {A B : Type} (m : M A) (k : A → M B) :
  quiet m → (∀ a, quiet (k a)) → quiet (m ≫= k).
Proof.
  intros Hm Hk st r st' H.
  apply bind_inv in H as [(a & st1 & Hrun & H) | (e & Hrun & _)].
  - eapply adds_no_total_trans; [by eapply Hm | by eapply Hk].
  - by eapply Hm.
Qed.

Lemma quiet_execSQL s : quiet (execSQL w s).
Proof.
  intros st r st' H. apply execSQL_inv in H as (_ & Hconsole & _).
  exists []. split; [by rewrite app_nil_r | constructor].
Qed.

Lemma quiet_log_all ls : Forall (λ l, is_total l = false) ls → quiet (log_all ls).
Proof. intros Hls st r st' [= <- <-]. by exists ls. Qed.

Lemma quiet_log l : is_total l = false → quiet (log l).
Proof. intros Hl st r st' [= <- <-]. by apply (adds_no_total_log l st). Qed.

Lemma quiet_on_error {A : Type} (body : M A) (handler : M unit) :
  quiet body → quiet handler → quiet (on_error body handler).
Proof.
  intros Hb Hh st r st'. unfold on_error.
  destruct (body st) as [[a | e] st1] eqn:Hbody.
  - intros [= <- <-]. by eapply Hb.
  - destruct (handler st1) as [[u | e'] st2] eqn:Hhandler; intros [= <- <-];
      (eapply adds_no_total_trans; [by eapply Hb | by eapply Hh]).
Qed.

Lemma quiet_add_missing_columns t cols : ∀ existingCols,
  quiet (add_missing_columns w t cols existingCols).
Proof.
  induction cols as [| col rest IH]; intros existingCols; simpl.
  - apply quiet_ret.
  - destruct (decide (col ∈ existingCols)); [apply IH |].
    apply quiet_bind; [by apply quiet_log | intros _].
    apply quiet_bind; [apply quiet_execSQL | intros _; apply IH].
Qed.

Lemma quiet_prepare t headers : quiet (prepare w t headers).
Proof.
  unfold prepare, ensureTableSchema, getExistingColumns, clear_for_overwrite,
    overWriteMode.
  repeat first
    [ apply quiet_bind; [| intros ?]
    | apply quiet_execSQL
    | apply quiet_add_missing_columns
    | apply quiet_on_error
    | apply quiet_ret
    | by apply quiet_log
    | by intros st r st' [= <- <-]; apply adds_no_total_refl ].
Qed.

Lemma remap_notice_no_total t l : is_remap_notice t l → is_total l = false.
Proof. by intros (a & b & ->). Qed.

Lemma quiet_on_data t existingCols env row : quiet (on_data w t existingCols env row).
Proof.
  intros st r st'. rewrite on_data_eq.
  assert (Hnotices : Forall (λ l, is_total l = false)
            (notices (remap w t existingCols
                        (Remapping (build_entries w row) (env_counts env)
                           (env_logged env) [])))).
  { unfold remap.
    destruct (remap_rules_notices w t existingCols (automigrations w)
                (Remapping (build_entries w row) (env_counts env)
                   (env_logged env) [])) as (said & -> & Hsaid).
    simpl. eapply Forall_impl; [exact Hsaid |]. apply remap_notice_no_total. }
  destruct (decide _); intros [= <- <-]; by eexists.
Qed.

(** The callbacks of the inserts print no summary line. *)
Lemma land_list_no_total landed st : adds_no_total st (land_list landed st).
Proof.
  destruct (land_list_frame landed st) as (_ & _ & Hconsole).
  eexists. split; [exact Hconsole |].
  apply Forall_forall. intros l (fl & Hl & _)%list_elem_of_bind.
  unfold failure_lines in Hl. destruct (fl_refused fl); [| by apply elem_of_nil in Hl].
  by apply elem_of_cons in Hl as [-> | ->%list_elem_of_singleton].
Qed.

Lemma quiet_between_events env : quiet (between_events w env).
Proof.
  intros st r st'.
  destruct (between_events_spec w env st) as (landed & flying & -> & _).
  intros [= <- <-]. apply land_list_no_total.
Qed.

Lemma quiet_stream_rows t existingCols rws : ∀ env,
  quiet (stream_rows w t existingCols env rws).
Proof.
  induction rws as [| row rest IH]; intros env; simpl.
  - apply quiet_ret.
  - apply quiet_bind; [apply quiet_on_data | intros env1].
    apply quiet_bind; [apply quiet_between_events | apply IH].
Qed.

Lemma quiet_remote_on_end t env : quiet (remote_on_end w t env).
Proof.
  unfold remote_on_end, overWriteMode.
  apply quiet_bind; [apply quiet_execSQL | intros _; by apply quiet_log].
Qed.

Lemma remote_promise_quiet name t ev st :
  adds_no_total st (remote_promise w name t ev st).2.
Proof.
  unfold remote_promise.
  destruct (ev_headers ev) as [headers |].
  2:{ destruct (ev_end ev); [apply adds_no_total_refl | by apply adds_no_total_log]. }
  destruct (decide (headers = [])); [by apply adds_no_total_log |].
  destruct (prepare w t headers st) as [[cols | e] st1] eqn:Hprepare;
    pose proof (quiet_prepare _ _ _ _ _ Hprepare) as H1; [| done].
  destruct (stream_rows w t cols empty_env (ev_rows ev) st1) as [[env | e] st2]
    eqn:Hstream;
    pose proof (quiet_stream_rows _ _ _ _ _ _ _ Hstream) as H2;
    [| by eapply adds_no_total_trans].
  unfold wind_up.
  destruct (ev_end ev).
  - destruct (remote_on_end w t env st2) as [[u | e] st3] eqn:Hend;
      pose proof (quiet_remote_on_end _ _ _ _ _ Hend) as H3; simpl;
      destruct (land_all_spec w (env_flying env) st3) as (landed & -> & _);
      (eapply adds_no_total_trans; [exact H1 |]);
      (eapply adds_no_total_trans; [exact H2 |]);
      (eapply adds_no_total_trans; [exact H3 |]);
      apply land_list_no_total.
  - simpl. change {| tabs := tabs st2; txn := txn st2; issued := issued st2;
                     console := console st2 ++ [LogParseError t] |}
      with (log (LogParseError t) st2).2.
    destruct (land_all_spec w (env_flying env)
                (log (LogParseError t) st2).2) as (landed & -> & _).
    eapply adds_no_total_trans; [exact H1 |].
    eapply adds_no_total_trans; [exact H2 |].
    eapply adds_no_total_trans;
      [by apply (adds_no_total_log (LogParseError t)) |].
    apply land_list_no_total.
Qed.

(** Whatever is downloaded and however often rules fire, the console
    gains no summary line. *)
Lemma download_prints_no_total name url index st :
  adds_no_total st (downloadCsvToSqlite w name url index st).2.
Proof.
  unfold downloadCsvToSqlite. cbv zeta.
  eapply adds_no_total_trans; [by apply (adds_no_total_log (LogFetching index name)) |].
  destruct (fetch w url) as [| [|] data].
  - by apply adds_no_total_log.
  - destruct (detected data).
    + eapply adds_no_total_trans; [| apply remote_promise_quiet].
      by apply adds_no_total_log.
    + apply remote_promise_quiet.
  - by apply adds_no_total_log.
Qed.

End Totals.

(** C6 fails on the code: on a dataset where the rule from [A] to [B]
    fires on two rows, the local ingester prints the total of the pair, and
    the download of the same dataset prints no total at all. *)
Theorem remote_prints_no_total :
  console (ingestLocalCsv renaming_world (js "X") (js "./x.csv") initial_state).2
  = [LogCleared (js "X");
     LogRemapNotice (js "X") (js "A") (js "B");
     LogRemapTotal (js "X") (remapKey (js "A") (js "B")) 2;
     LogInserted (js "X")]
  ∧ console (downloadCsvToSqlite renaming_world (js "X") (js "https://host/x.csv")
               0 initial_state).2
    = [LogFetching 0 (js "X");
       LogCleared (js "X");
       LogRemapNotice (js "X") (js "A") (js "B");
       LogInserted (js "X")]
  ∧ rows_of (tabs (downloadCsvToSqlite renaming_world (js "X")
                     (js "https://host/x.csv") 0 initial_state).2) (js "X")
    = [{[js "B" := js "5"]}; {[js "B" := js "6"]}].
Proof. repeat split; by vm_compute. Qed.

(** ** Two scenarios, end to end *)

(** The dataset [CPI, All Items] becomes the relation [CPI__All_Items]
    with the columns [REF_DATE] and [VALUE] and its one row. *)
Example cpi_end_to_end :
  tabs (final (main_loop cpi_world 0
                 [(js "CPI, All Items", js "https://host/cpi.csv")] initial_state))
  = {[js "CPI__All_Items" :=
        Table [js "REF_DATE"; js "VALUE"]
          [{[js "REF_DATE" := js "2020-01"; js "VALUE" := js "100.2"]}]]}.
Proof. by vm_compute. Qed.

(** A download that is answered with a bad status prints the failure and
    leaves the store without a relation for the dataset. *)
Example bad_status_leaves_store :
  main_loop cpi_world 0 [(js "X", js "https://host/missing.csv")] initial_state
  = Run [js "X"] true
      {| tabs := ∅; txn := None; issued := [];
         console := [LogFetching 0 (js "X"); LogFetchFailed (js "X")] |}.
Proof. by vm_compute. Qed.

(** * Further properties of the code *)

(** ** Names and texts *)

Section NamesAndTexts.
Import MarkerRegex PreambleSpec MarkerFacts.

Lemma sanitize_app (a b : jsstring) :
  sanitizeTableName (a ++ b) = sanitizeTableName a ++ sanitizeTableName b.
Proof. unfold sanitizeTableName. apply fmap_app. Qed.

Lemma sanitize_fixed (s : jsstring) :
  sanitizeTableName s = s ↔ Forall (λ c, is_word c = true) s.
Proof.
  split.
  - intros <-. unfold sanitizeTableName. apply Forall_fmap, Forall_forall.
    intros c _. apply sanitize_unit_word.
  - intros Hs. unfold sanitizeTableName.
    rewrite <- (list_fmap_id s) at 2. apply list_fmap_ext.
    intros i c Hc. apply sanitize_unit_keeps.
    rewrite Forall_forall in Hs. apply Hs. by eapply list_elem_of_lookup_2.
Qed.

Lemma sanitize_unit_collide c d :
  sanitize_unit c = sanitize_unit d ↔ c = d ∨ (blurred c ∧ blurred d).
Proof.
  unfold sanitize_unit, blurred.
  destruct (is_word c) eqn:Hc, (is_word d) eqn:Hd; split.
  - by left.
  - intros [? | [[? | ?] [? | ?]]]; congruence.
  - intros ->. right. split; [by right | by left].
  - intros [-> | [[? | ->] _]]; congruence.
  - intros <-. right. split; [by left | by right].
  - intros [-> | [_ [? | ->]]]; congruence.
  - intros _. right. split; by left.
  - done.
Qed.

(** X1: a name made of valid code units only is its own sanitized form, and
    no other name is; so sanitizing twice is sanitizing once, and the
    sanitized form of a concatenation is the concatenation of the sanitized
    forms. *)
Theorem sanitize_algebra (a b : jsstring) :
  (sanitizeTableName a = a ↔ Forall (λ c, is_word c = true) a)
  ∧ sanitizeTableName (sanitizeTableName a) = sanitizeTableName a
  ∧ sanitizeTableName (a ++ b) = sanitizeTableName a ++ sanitizeTableName b.
Proof.
  split; [apply sanitize_fixed |]. split; [| apply sanitize_app].
  apply sanitize_idempotent.
Qed.

(** X2: two names get the same identifier exactly when they have the same
    length and, position by position, the same code unit or two code units
    that are each an underscore or outside the valid class. *)
Theorem sanitize_collisions (s s' : jsstring) :
  sanitizeTableName s = sanitizeTableName s'
  ↔ Forall2 (λ c d, c = d ∨ (blurred c ∧ blurred d)) s s'.
Proof.
  unfold sanitizeTableName. revert s'.
  induction s as [| c s IH]; intros [| d s'];
    rewrite ?fmap_nil, ?fmap_cons.
  - split; [constructor | done].
  - split; [done | by intros H; inversion H].
  - split; [done | by intros H; inversion H].
  - rewrite Forall2_cons, <- IH, <- sanitize_unit_collide.
    split; [by intros [= ? ?] | by intros [-> ->]].
Qed.

Lemma starts_with_prefix p s : starts_with p s = true ↔ ∃ b, s = p ++ b.
Proof.
  revert s. induction p as [| a p IH]; intros s; simpl.
  - split; [by exists s | done].
  - destruct s as [| c s]; [split; [done | by intros [b Hb]] |].
    rewrite andb_true_iff, N.eqb_eq, IH. split.
    + intros [-> [b ->]]. by exists b.
    + intros [b [= -> ->]]. split; [done | by exists b].
Qed.

Lemma includes_substring p s : includes p s = true ↔ ∃ a b, s = a ++ p ++ b.
Proof.
  induction s as [| c s IH]; simpl.
  - rewrite orb_false_r, starts_with_prefix. split.
    + intros [b Hb]. by exists [], b.
    + intros (a & b & Hs). destruct a; [by exists b |]. done.
  - rewrite orb_true_iff, starts_with_prefix, IH. split.
    + intros [[b Hb] | (a & b & ->)]; [by exists [], b | by exists (c :: a), b].
    + intros (a & b & Hs). destruct a as [| c' a]; [left; by exists b |].
      right. injection Hs as -> ->. by exists a, b.
Qed.

(** X3: a location is taken for a URL exactly when the three code units of
    the scheme separator stand somewhere in it, one after the other. *)
Theorem remote_iff_scheme_separator (s : jsstring) :
  isRemoteUrl s = true ↔ ∃ a b, s = a ++ js "://" ++ b.
Proof. apply includes_substring. Qed.

Lemma list_pair_ind (P : jsstring → Prop) :
  P [] → (∀ c, P [c]) → (∀ c d r, P r → P (d :: r) → P (c :: d :: r)) →
  ∀ s, P s.
Proof.
  intros Hnil Hone Hstep s.
  enough (P s ∧ ∀ c, P (c :: s)) as [? _]; [done |].
  induction s as [| d r [IH1 IH2]]; [by split |].
  split; [apply IH2 |]. intros c. apply Hstep; [done | apply IH2].
Qed.

Lemma replace_cr_no_cr s : Forall (λ c, c ≠ CR) (replace_cr s).
Proof.
  unfold replace_cr. apply Forall_fmap, Forall_forall. intros c _. simpl.
  destruct (N.eqb_spec c CR); [done | done].
Qed.

Lemma replace_cr_id s : Forall (λ c, c ≠ CR) s → replace_cr s = s.
Proof.
  intros Hs. unfold replace_cr. rewrite <- (list_fmap_id s) at 2.
  apply list_fmap_ext. intros i c Hc. simpl.
  rewrite Forall_forall in Hs.
  destruct (N.eqb_spec c CR) as [-> | _]; [| done].
  exfalso. by eapply Hs; [eapply list_elem_of_lookup_2 |].
Qed.

Lemma replace_crlf_step c d r :
  replace_crlf (c :: d :: r)
  = if (c =? CR) && (d =? LF) then LF :: replace_crlf r
    else c :: replace_crlf (d :: r).
Proof. reflexivity. Qed.

Lemma replace_crlf_id s : Forall (λ c, c ≠ CR) s → replace_crlf s = s.
Proof.
  induction s as [| c | c d r IH1 IH2] using list_pair_ind; [done.. |].
  intros [Hc Hrest]%Forall_cons. rewrite replace_crlf_step.
  destruct (N.eqb_spec c CR); [done |]. simpl. f_equal. by apply IH2.
Qed.

Lemma replace_crlf_separator a b :
  replace_crlf (a ++ CR :: LF :: b) = replace_crlf a ++ LF :: replace_crlf b.
Proof.
  induction a as [| c | c d r IH1 IH2] using list_pair_ind.
  - done.
  - cbn [app replace_crlf]. by rewrite andb_false_r.
  - change ((c :: d :: r) ++ CR :: LF :: b)
      with (c :: d :: (r ++ CR :: LF :: b)).
    rewrite !replace_crlf_step.
    destruct ((c =? CR) && (d =? LF)).
    + by rewrite IH1.
    + change (d :: (r ++ CR :: LF :: b)) with ((d :: r) ++ CR :: LF :: b).
      by rewrite IH2.
Qed.

(** X4: the normalized text has no carriage return; a text without
    carriage returns is left as it is, so normalizing is idempotent; and a
    carriage return with its line feed, wherever it stands, becomes one line
    feed between the normalized parts. *)
Theorem normalize_newlines_laws (s a b : jsstring) :
  Forall (λ c, c ≠ CR) (normalize_newlines s)
  ∧ (Forall (λ c, c ≠ CR) s → normalize_newlines s = s)
  ∧ normalize_newlines (normalize_newlines s) = normalize_newlines s
  ∧ normalize_newlines (a ++ CR :: LF :: b)
    = normalize_newlines a ++ LF :: normalize_newlines b.
Proof.
  assert (Hid : ∀ x, Forall (λ c, c ≠ CR) x → normalize_newlines x = x).
  { intros x Hx. unfold normalize_newlines.
    by rewrite replace_crlf_id, replace_cr_id. }
  split; [apply replace_cr_no_cr |]. split; [apply Hid |].
  split; [apply Hid, replace_cr_no_cr |].
  unfold normalize_newlines. rewrite replace_crlf_separator.
  unfold replace_cr. by rewrite fmap_app.
Qed.

Lemma trimStart_split s :
  ∃ ws, s = ws ++ trimStart s ∧ Forall (λ c, is_js_space c = true) ws.
Proof.
  induction s as [| c r (ws & Hr & Hws)]; simpl.
  - exists []. split; [done | constructor].
  - destruct (is_js_space c) eqn:Hc.
    + exists (c :: ws). split; [by rewrite <- app_comm_cons, <- Hr |].
      by constructor.
    + exists []. split; [done | constructor].
Qed.

Lemma trimStart_solid s : starts_solid (trimStart s).
Proof.
  induction s as [| c r IH]; simpl; [done |].
  by destruct (is_js_space c) eqn:Hc.
Qed.

Lemma search_suffix s : ∀ at_line_start rest,
  search at_line_start s = Some rest → ∃ pre, s = pre ++ LF :: rest.
Proof.
  induction s as [| c r IH]; intros at_line_start rest; cbn [search].
  - destruct at_line_start; [| done].
    destruct (match_here []) eqn:Hm; [| done].
    intros [= ->]. apply match_here_line in Hm as (l & _ & Hs). by exists l.
  - destruct (if at_line_start then match_here (c :: r) else None) eqn:Hm.
    + intros [= ->]. destruct at_line_start; [| done].
      apply match_here_line in Hm as (l & _ & Hs). by exists l.
    + intros (pre & ->)%IH. by exists (c :: pre).
Qed.

(** X5: a payload that the stripper returns is a final part of the
    normalized text, right after a line feed and white space; it has no
    carriage return, does not start with white space, holds a line feed, and
    is what the ingesters parse. *)
Theorem stripped_payload_shape (fullText obs : jsstring) :
  extractObservationsCSV fullText = Some obs →
  (∃ pre ws, normalize_newlines fullText = pre ++ LF :: ws ++ obs
             ∧ Forall (λ c, is_js_space c = true) ws)
  ∧ Forall (λ c, c ≠ CR) obs
  ∧ starts_solid obs
  ∧ LF ∈ obs
  ∧ payload fullText = obs.
Proof.
  intros Hextract. pose proof (payload_stripped _ _ Hextract) as Hpayload.
  unfold extractObservationsCSV in Hextract. cbv zeta in Hextract.
  destruct (search true _) as [rest |] eqn:Hsearch; [| done].
  destruct (has_newline (trimStart rest)) eqn:Hnl; [| done].
  injection Hextract as <-.
  apply search_suffix in Hsearch as (pre & Htext).
  destruct (trimStart_split rest) as (ws & Hrest & Hws).
  assert (Hshape : normalize_newlines fullText = pre ++ LF :: ws ++ trimStart rest)
    by by rewrite Htext, Hrest at 1.
  split; [by exists pre, ws |].
  split.
  - pose proof (replace_cr_no_cr (replace_crlf fullText)) as Hcr.
    fold (normalize_newlines fullText) in Hcr. rewrite Hshape in Hcr.
    apply Forall_app in Hcr as [_ Hcr]. apply Forall_cons in Hcr as [_ Hcr].
    by apply Forall_app in Hcr as [_ Hcr].
  - split; [apply trimStart_solid |]. split; [| done].
    unfold has_newline in Hnl. by apply bool_decide_eq_true in Hnl.
Qed.

(** A wrapped export. *)
Lemma stripped_payload_shape_witness :
  payload (js_lines ["meta"; "OBSERVATIONS"; ""; "date,V1"; "2020-01,1.5"; ""])
  = js_lines ["date,V1"; "2020-01,1.5"; ""].
Proof.
  refine (proj2 (proj2 (proj2 (proj2
    (stripped_payload_shape
       (js_lines ["meta"; "OBSERVATIONS"; ""; "date,V1"; "2020-01,1.5"; ""])
       (js_lines ["date,V1"; "2020-01,1.5"; ""]) _))))).
  by vm_compute.
Defined.

End NamesAndTexts.

(** ** The synchronizer and the data *)

Section SynchronizerAndData.
Context (w : World).






Lemma add_missing_columns_trace t cols : ∀ existingCols st c st',
  in_sync t existingCols st →
  add_missing_columns w t cols existingCols st = (Ok c, st') →
  ∃ added,
    columns_of (tabs st') t = columns_of (tabs st) t ++ added
    ∧ NoDup added
    ∧ (∀ col, col ∈ added → (col ∉ existingCols) ∧ col ∈ cols)
    ∧ console st' = console st ++ ((λ col, LogSchemaChange col t) <$> added)
    ∧ issued st' = reverse (AddColumn t <$> added) ++ issued st.
Proof.
  induction cols as [| col rest IH]; intros existingCols st c st' Hsync; simpl.
  - intros [= <- <-]. exists []. rewrite !app_nil_r.
    split; [done |]. split; [constructor |].
    split; [by intros col Hcol%elem_of_nil | done].
  - destruct (decide (col ∈ existingCols)) as [Hin | Hnin].
    + intros H. destruct (IH _ _ _ _ Hsync H) as (added & ? & ? & Hadded & ? & ?).
      exists added. repeat split; try done; destruct (Hadded col0) as [? ?];
        [done.. |]. by right.
    + intros H. apply bind_inv in H as [(u & st1 & Hlog & H) | (e & Hlog & _)];
        [| done].
      cbv [log] in Hlog. simplify_eq.
      apply bind_inv in H as [([] & st2 & Hexec & H) | (e & Hexec & ?)]; [| done].
      apply execSQL_inv in Hexec as (Hissued & Hconsole & [[_ Happly] | [? _]]);
        [| done].
      simpl in Happly, Hissued, Hconsole.
      destruct (add_column_sync t col existingCols
                  {| tabs := tabs st; txn := txn st; issued := issued st;
                     console := console st ++ [LogSchemaChange col t] |}
                  st2 Hsync Happly) as [Hsync2 Hcols].
      simpl in Hcols.
      destruct (IH _ _ _ _ Hsync2 H)
        as (added & Hcolumns & Hnodup & Hadded & Hsaid & Hsent).
      exists (col :: added). split; [| split; [| split; [| split]]].
      * by rewrite Hcolumns, Hcols, <- app_assoc.
      * apply NoDup_cons. split; [| done].
        intros Hcol. apply Hadded in Hcol as [Hcol _]. apply Hcol.
        apply elem_of_union. left. by apply elem_of_singleton.
      * intros col' [-> | Hcol']%elem_of_cons; [split; [done | by left] |].
        apply Hadded in Hcol' as [Hnew Hrest]. split; [| by right].
        intros Hold. apply Hnew, elem_of_union. by right.
      * rewrite Hsaid, Hconsole, fmap_cons. by rewrite <- app_assoc.
      * rewrite Hsent, Hissued, fmap_cons, reverse_cons. by rewrite <- app_assoc.
Qed.

(** X7: when the synchronizer returns, the relation has the columns it had
    after its creation statement, in their order, followed by the columns
    that were added: these are distinct, were not there, and are sanitized
    names of the headers; each is announced once on the console and added
    by one statement, in the same order, and nothing else is printed or
    sent after the two opening statements. *)
Theorem schema_sync_announces (t : jsstring) (H : list jsstring)
    (st st' : state) (c : gset jsstring) :
  ensureTableSchema w t H st = (Ok c, st') →
  ∃ added,
    columns_of (tabs st') t = columns_after_create (tabs st) t H ++ added
    ∧ NoDup added
    ∧ (∀ col, col ∈ added →
         (col ∉ columns_after_create (tabs st) t H)
         ∧ col ∈ sanitizeHeader <$> H)
    ∧ console st' = console st ++ ((λ col, LogSchemaChange col t) <$> added)
    ∧ issued st'
      = reverse (AddColumn t <$> added) ++ TableInfo t
          :: CreateTableIfNotExists t (sanitizeHeader <$> H) :: issued st.
Proof.
  unfold ensureTableSchema, getExistingColumns. cbv zeta. intros Hrun.
  apply bind_inv in Hrun as [([] & st1 & Hcreate & Hrun) | (e & _ & ?)]; [| done].
  apply execSQL_inv in Hcreate as (Hissued1 & Hconsole1 & [[_ Hcreate] | [? _]]);
    [| done].
  apply bind_inv in Hrun as [(existing & st2 & Hinfo & Hrun) | (e & _ & ?)];
    [| done].
  apply bind_inv in Hinfo as [([] & st3 & Hinfo & Hret) | (e' & _ & ?)]; [| done].
  apply execSQL_inv in Hinfo as (Hissued3 & Hconsole3 & [[_ Hinfo] | [? _]]);
    [| done].
  simpl in Hinfo. injection Hinfo as Htabs3 _.
  cbv [inspect] in Hret. injection Hret as <- <-.
  assert (Hbase : columns_of (tabs st3) t = columns_after_create (tabs st) t H
                  ∧ is_Some (tabs st3 !! t)).
  { rewrite Htabs3. simpl in Hcreate. unfold columns_of, columns_after_create.
    destruct (tabs st !! t) as [x |] eqn:Hx; injection Hcreate as -> _.
    - rewrite Hx. split; [done | by eexists].
    - rewrite lookup_insert_eq. split; [done | by eexists]. }
  destruct Hbase as [Hbase Hexists].
  destruct (add_missing_columns_trace t _ _ st3 c st' (conj Hexists eq_refl) Hrun)
    as (added & Hcolumns & Hnodup & Hadded & Hsaid & Hsent).
  exists added. rewrite <- Hbase.
  split; [done |]. split; [done |]. split; [| split].
  - intros col Hcol. apply Hadded in Hcol as [Hnew Hin]. split; [| done].
    intros Hold. apply Hnew. by apply elem_of_list_to_set.
  - by rewrite Hsaid, Hconsole3, Hconsole1.
  - by rewrite Hsent, Hissued3, Hissued1.
Qed.

End SynchronizerAndData.


(** A relation with two columns meets a batch with one more header. *)
Lemma schema_sync_announces_witness :
  console (ensureTableSchema cpi_world (js "CPI__All_Items")
             [js "REF DATE"; js "STATUS"] initial_state).2
  = []
  ∧ ∃ added,
      columns_of (tabs (ensureTableSchema cpi_world (js "CPI__All_Items")
                          [js "REF DATE"; js "STATUS"] cpi_loaded).2)
        (js "CPI__All_Items")
      = [js "REF_DATE"; js "VALUE"] ++ added
      ∧ NoDup added.
Proof.
  split; [by vm_compute |].
  destruct (schema_sync_announces cpi_world (js "CPI__All_Items")
              [js "REF DATE"; js "STATUS"] cpi_loaded
              (ensureTableSchema cpi_world (js "CPI__All_Items")
                 [js "REF DATE"; js "STATUS"] cpi_loaded).2
              {[js "REF_DATE"; js "VALUE"; js "STATUS"]})
    as (added & Hcolumns & Hnodup & _).
  - by vm_compute.
  - exists added. split; [exact Hcolumns | exact Hnodup].
Defined.

(** ** Rows on their way to the store *)

Section RowsOnTheirWay.
Context (w : World).

Lemma get_prop_Some obj k v :
  get_prop w obj k = Some v →
  obj !! k = Some v ∨ (obj !! k = None ∧ object_prototype w k = Some v).
Proof. unfold get_prop. destruct (obj !! k); [by left | by right]. Qed.

Lemma remap_rule_origin t existingCols acc rule k v :
  rawEntries (remap_rule w t existingCols acc rule) !! k = Some v →
  rawEntries acc !! k = Some v
  ∨ (k ∈ existingCols
     ∧ get_prop w (rawEntries acc) (sanitizeHeader rule.1) = Some v).
Proof.
  unfold remap_rule. destruct (rule_fires _ _ _ _ _) eqn:Hfires; [| by left].
  apply rule_fires_true in Hfires as [[v0 Hv0] Htgt]. simpl.
  destruct (decide (sanitizeHeader rule.1 = k)) as [<- | Hin];
    [by rewrite lookup_delete_eq |].
  rewrite lookup_delete_ne by done. rewrite Hv0.
  destruct (get_prop w (rawEntries acc) (sanitizeHeader rule.2)) eqn:Hold;
    [by left |].
  destruct (decide (sanitizeHeader rule.2 = k)) as [<- | Htgt'].
  - rewrite set_prop_lookup. destruct (accessor w _); [by left |].
    intros [= <-]. by right.
  - rewrite set_prop_other by done. by left.
Qed.

Lemma remap_rule_size t existingCols acc rule :
  (size (rawEntries (remap_rule w t existingCols acc rule))
   ≤ size (rawEntries acc)
     + (if decide (is_Some (object_prototype w (sanitizeHeader rule.1)))
        then 1 else 0))%nat.
Proof.
  unfold remap_rule. destruct (rule_fires _ _ _ _ _) eqn:Hfires; [| lia].
  apply rule_fires_true in Hfires as [[v0 Hv0] Htgt]. simpl. rewrite Hv0.
  assert (Hdelete : ∀ m : gmap jsstring jsstring,
            (size (delete (sanitizeHeader rule.1) m) ≤ size m)%nat).
  { intros m. rewrite map_size_delete. destruct (m !! _); simpl; lia. }
  destruct (get_prop w (rawEntries acc) (sanitizeHeader rule.2)) eqn:Hold.
  { etrans; [apply Hdelete | lia]. }
  apply get_prop_None in Hold as [Hold Hplain].
  rewrite set_prop_plain by done.
  apply get_prop_Some in Hv0 as [Hown | [Hnone Hinh]].
  - rewrite map_size_delete.
    destruct (decide (sanitizeHeader rule.2 = sanitizeHeader rule.1)) as [Heq | Hne].
    + rewrite Heq in Hold. congruence.
    + rewrite lookup_insert_ne, Hown by done. simpl.
      rewrite map_size_insert_None by done. simpl. lia.
  - rewrite decide_True by (by eexists).
    etrans; [apply Hdelete |]. rewrite map_size_insert_None by done. lia.
Qed.

Lemma remap_rules_origin t existingCols rules : ∀ acc k v,
  rawEntries (foldl (remap_rule w t existingCols) acc rules) !! k = Some v →
  (rawEntries acc !! k = Some v ∨ k ∈ existingCols)
  ∧ ((∃ k', rawEntries acc !! k' = Some v)
     ∨ ∃ rule, rule ∈ rules
               ∧ object_prototype w (sanitizeHeader rule.1) = Some v).
Proof.
  induction rules as [| rule rules IH]; intros acc k v; simpl.
  - intros Hk. split; [by left |]. left. by eexists.
  - intros [Hkey Hvalue]%IH. split.
    + destruct Hkey as [Hkey | ?]; [| by right].
      apply remap_rule_origin in Hkey as [? | [? _]]; [by left | by right].
    + destruct Hvalue as [[k' Hk'] | (rule' & Hin & Hinh)].
      * apply remap_rule_origin in Hk' as [? | [_ Hread]]; [left; by eexists |].
        apply get_prop_Some in Hread as [? | [_ ?]]; [left; by eexists |].
        right. exists rule. split; [by left | done].
      * right. exists rule'. split; [by right | done].
Qed.

Lemma remap_rules_size t existingCols rules : ∀ acc,
  (size (rawEntries (foldl (remap_rule w t existingCols) acc rules))
   ≤ size (rawEntries acc)
     + length (filter (λ rule, is_Some (object_prototype w (sanitizeHeader rule.1)))
                 rules))%nat.
Proof.
  induction rules as [| rule rules IH]; intros acc; simpl; [lia |].
  etrans; [apply IH |].
  pose proof (remap_rule_size t existingCols acc rule) as Hstep.
  rewrite filter_cons. destruct (decide _); simpl; lia.
Qed.

(** X8: where the values of the row that leaves the remapper come from.
    Every value was a value of the row that entered it, or is what
    [Object.prototype] holds under the incoming name of a rule; a field that
    is not a column of the relation is there, with its value, only if it
    entered so; and the row has grown by no more fields than there are rules
    whose incoming name the prototype holds: with no such rule, the remapper
    makes up no data and the row does not grow. *)
Theorem remap_conserves (t : jsstring) (existingCols : gset jsstring)
    (acc : remapping) :
  (∀ k v, rawEntries (remap w t existingCols acc) !! k = Some v →
     (rawEntries acc !! k = Some v ∨ k ∈ existingCols)
     ∧ ((∃ k', rawEntries acc !! k' = Some v)
        ∨ ∃ rule, rule ∈ inherited_rules w
                  ∧ object_prototype w (sanitizeHeader rule.1) = Some v))
  ∧ (size (rawEntries (remap w t existingCols acc))
     ≤ size (rawEntries acc) + length (inherited_rules w))%nat.
Proof.
  split; [| apply remap_rules_size].
  intros k v [Hkey Hvalue]%remap_rules_origin. split; [done |].
  destruct Hvalue as [? | (rule & Hin & Hinh)]; [by left |].
  right. exists rule. split; [| done].
  apply list_elem_of_filter. split; [by eexists | done].
Qed.

Lemma build_entries_keys row k :
  is_Some (build_entries w row !! k) →
  ∃ key value, (key, value) ∈ row ∧ sanitizeHeader key = k.
Proof.
  intros [v (_ & key & Hin & Hk)%build_entries_Some]. by exists key, (Some v).
Qed.

Lemma write_set_keys t existingCols (cols : list jsstring) row k :
  (∀ c, c ∈ existingCols → c ∈ cols) →
  (∀ key value, (key, value) ∈ row → sanitizeHeader key ∈ cols) →
  is_Some (write_set w t existingCols row !! k) → k ∈ cols.
Proof.
  intros Hcols Hrow [v Hv]. unfold write_set, remap in Hv.
  apply remap_rules_origin in Hv as [[Hk | Hk] _]; [| by apply Hcols].
  simpl in Hk. destruct (build_entries_keys row k) as (key & value & Hin & <-);
    [by eexists | by eapply Hrow].
Qed.

Lemma stream_rows_inserts t existingCols (cols : list jsstring) rws :
  (∀ k, k ∈ existingCols → k ∈ cols) →
  Forall (λ row : raw_row,
            ∀ key value, (key, value) ∈ row → sanitizeHeader key ∈ cols) rws →
  ∀ env st,
  ∃ env' st' ins,
    stream_rows w t existingCols env rws st = (Ok env', st')
    ∧ issued st' = ins ++ issued st
    ∧ Forall (insert_within t cols) ins.
Proof.
  intros Hcols Hrws env st.
  destruct (stream_rows_flights w t existingCols rws env st)
    as (env' & st' & landed & Hrun & _ & Hissued & _).
  exists env', st', (streamed w t existingCols rws).
  split; [done |]. split; [done |].
  unfold streamed, loaded_rows.
  apply Forall_reverse, Forall_fmap, Forall_forall.
  intros r [Hfull (row & -> & Hin)%list_elem_of_fmap]%list_elem_of_filter.
  exists (write_set w t existingCols row). split; [done |]. split; [done |].
  intros k. apply write_set_keys; [done |].
  rewrite Forall_forall in Hrws. by apply Hrws.
Qed.

(** X9: once the synchronizer has returned for the headers of a dataset,
    streaming rows that carry fields of these headers only sends nothing but
    inserts into the relation, each with a row that is not empty and names
    only columns that the relation has. *)
Theorem inserts_name_columns (t : jsstring) (headers : list jsstring)
    (rws : list raw_row) (st st1 st2 : state) (cols : gset jsstring)
    (env : remap_env) :
  ensureTableSchema w t headers st = (Ok cols, st1) →
  Forall (λ row : raw_row, ∀ key value, (key, value) ∈ row → key ∈ headers) rws →
  ∃ env' st' ins,
    stream_rows w t cols env rws st2 = (Ok env', st')
    ∧ issued st' = ins ++ issued st2
    ∧ Forall (insert_within t (columns_of (tabs st1) t)) ins.
Proof.
  intros Hsync Hrws.
  destruct (ensureTableSchema_spec w _ _ _ _ _ Hsync) as (_ & Hok & _).
  destruct (Hok cols eq_refl) as [[_ Hcols] Hheaders].
  apply stream_rows_inserts.
  - intros k Hk. rewrite Hcols in Hk. by apply elem_of_list_to_set in Hk.
  - eapply Forall_impl; [exact Hrws |]. intros row Hrow key value Hin.
    apply (elem_of_list_to_set (C := gset jsstring)). rewrite <- Hcols.
    apply Hheaders. by eapply Hrow.
Qed.

End RowsOnTheirWay.

(** The consumer price index: one insert, under the two columns. *)
Lemma inserts_name_columns_witness :
  ∃ env' st' ins,
    stream_rows cpi_world (js "CPI") {[js "REF_DATE"; js "VALUE"]} empty_env
      [[(js "REF DATE", Some (js "2020-01")); (js "VALUE", Some (js "100.2"))]]
      (ensureTableSchema cpi_world (js "CPI") [js "REF DATE"; js "VALUE"]
         initial_state).2
    = (Ok env', st')
    ∧ issued st'
      = ins ++ [TableInfo (js "CPI");
                CreateTableIfNotExists (js "CPI") [js "REF_DATE"; js "VALUE"]]
    ∧ Forall (insert_within (js "CPI") [js "REF_DATE"; js "VALUE"]) ins.
Proof.
  apply (inserts_name_columns cpi_world (js "CPI") [js "REF DATE"; js "VALUE"]
           [[(js "REF DATE", Some (js "2020-01")); (js "VALUE", Some (js "100.2"))]]
           initial_state
           (ensureTableSchema cpi_world (js "CPI") [js "REF DATE"; js "VALUE"]
              initial_state).2).
  - by vm_compute.
  - apply Forall_singleton. intros key value Hin.
    apply elem_of_cons in Hin as [[= -> ->] | Hin]; [by left |].
    apply elem_of_cons in Hin as [[= -> ->] | Hin]; [right; by left |].
    by apply elem_of_nil in Hin.
Defined.

(** ** The notices of the remapper *)

Section Notices.
Context (w : World).

Lemma bump_positive k counts :
  Forall (λ kc : jsstring * nat, (0 < kc.2)%nat) counts →
  Forall (λ kc : jsstring * nat, (0 < kc.2)%nat) (bump k counts).
Proof.
  induction 1 as [| [k' n] rest Hn Hrest IH]; cbn [bump].
  - apply Forall_singleton. simpl. lia.
  - simpl in Hn. destruct (decide (k' = k)); apply Forall_cons; simpl.
    + split; [lia | done].
    + split; [done | exact IH].
Qed.

Lemma remap_rule_ledger t existingCols acc rule :
  ledger_ok (remapCounts acc) (remapLoggedOnce acc) →
  ledger_ok (remapCounts (remap_rule w t existingCols acc rule))
    (remapLoggedOnce (remap_rule w t existingCols acc rule))
  ∧ ∃ new,
      (remapCounts (remap_rule w t existingCols acc rule)).*1
      = (remapCounts acc).*1 ++ new
      ∧ omap notice_key (notices (remap_rule w t existingCols acc rule))
        = omap notice_key (notices acc) ++ new.
Proof.
  intros [Hlogged Hpositive]. unfold remap_rule.
  destruct (rule_fires _ _ _ _ _); simpl.
  2:{ split; [done |]. exists []. by rewrite !app_nil_r. }
  set (k := remapKey _ _).
  destruct (bump_keys k (remapCounts acc)) as [[Hkeys Hin] | [Hkeys Hnin]].
  - assert (Hk : k ∈ remapLoggedOnce acc)
      by (rewrite Hlogged; by apply elem_of_list_to_set).
    split; [split; [| by apply bump_positive] |].
    + rewrite Hkeys, <- Hlogged. apply (anti_symm (⊆)).
      * apply union_subseteq. split; [by apply singleton_subseteq_l | done].
      * apply union_subseteq_r.
    + exists []. rewrite decide_True by done. by rewrite Hkeys, !app_nil_r.
  - assert (Hk : k ∉ remapLoggedOnce acc).
    { rewrite Hlogged. intros Hk. by apply elem_of_list_to_set in Hk. }
    split; [split; [| by apply bump_positive] |].
    + rewrite Hkeys, list_to_set_app_L, <- Hlogged. simpl.
      by rewrite (right_id_L ∅ (∪)), (comm_L (∪)).
    + exists [k]. rewrite decide_False by done. split; [done |].
      by rewrite omap_app.
Qed.

Lemma remap_rules_ledger t existingCols rules : ∀ acc,
  ledger_ok (remapCounts acc) (remapLoggedOnce acc) →
  ledger_ok (remapCounts (foldl (remap_rule w t existingCols) acc rules))
    (remapLoggedOnce (foldl (remap_rule w t existingCols) acc rules))
  ∧ ∃ new,
      (remapCounts (foldl (remap_rule w t existingCols) acc rules)).*1
      = (remapCounts acc).*1 ++ new
      ∧ omap notice_key (notices (foldl (remap_rule w t existingCols) acc rules))
        = omap notice_key (notices acc) ++ new.
Proof.
  induction rules as [| rule rules IH]; intros acc Hok; simpl.
  - split; [done |]. exists []. by rewrite !app_nil_r.
  - destruct (remap_rule_ledger t existingCols acc rule Hok)
      as (Hok1 & new1 & Hkeys1 & Hsaid1).
    destruct (IH _ Hok1) as (Hok2 & new2 & Hkeys2 & Hsaid2).
    split; [done |]. exists (new1 ++ new2).
    by rewrite Hkeys2, Hkeys1, Hsaid2, Hsaid1, !app_assoc.
Qed.

Lemma on_data_ledger t existingCols env row st :
  ledger_ok (env_counts env) (env_logged env) →
  ∃ env' st' added new,
    on_data w t existingCols env row st = (Ok env', st')
    ∧ ledger_ok (env_counts env') (env_logged env')
    ∧ console st' = console st ++ added
    ∧ (env_counts env').*1 = (env_counts env).*1 ++ new
    ∧ omap notice_key added = new.
Proof.
  intros Hok. rewrite on_data_eq. cbv zeta. unfold remap.
  destruct (remap_rules_ledger t existingCols (automigrations w)
              (Remapping (build_entries w row) (env_counts env) (env_logged env) [])
              Hok) as (Hok' & new & Hkeys & Hsaid).
  revert Hok' Hkeys Hsaid.
  generalize (foldl (remap_rule w t existingCols)
                (Remapping (build_entries w row) (env_counts env) (env_logged env) [])
                (automigrations w)).
  intros r Hok' Hkeys Hsaid. simpl in Hkeys, Hsaid.
  destruct (decide (rawEntries r = ∅)); by eexists _, _, (notices r), new.
Qed.

(** The lines of the callbacks name no pair. *)
Lemma failure_lines_no_key landed :
  omap notice_key (landed ≫= failure_lines) = [].
Proof.
  induction landed as [| fl landed IH]; [done |].
  rewrite bind_cons, omap_app, IH, app_nil_r.
  unfold failure_lines. by destruct (fl_refused fl).
Qed.

Lemma stream_rows_ledger t existingCols rws : ∀ env st,
  ledger_ok (env_counts env) (env_logged env) →
  ∃ env' st' added new,
    stream_rows w t existingCols env rws st = (Ok env', st')
    ∧ ledger_ok (env_counts env') (env_logged env')
    ∧ console st' = console st ++ added
    ∧ (env_counts env').*1 = (env_counts env).*1 ++ new
    ∧ omap notice_key added = new.
Proof.
  induction rws as [| row rest IH]; intros env st Hok; simpl.
  - exists env, st, [], []. by rewrite !app_nil_r.
  - destruct (on_data_ledger t existingCols env row st Hok)
      as (env1 & st1 & added1 & new1 & Hstep & Hok1 & Hsaid1 & Hkeys1 & Hnew1).
    destruct (between_events_spec w env1 st1) as (landed & flying & Hbetween & _).
    destruct (land_list_frame landed st1) as (_ & _ & Hconsole).
    destruct (IH (RemapEnv (env_counts env1) (env_logged env1) flying)
                (land_list landed st1) Hok1)
      as (env2 & st2 & added2 & new2 & Hrest & Hok2 & Hsaid2 & Hkeys2 & Hnew2).
    simpl in Hkeys2.
    exists env2, st2, (added1 ++ (landed ≫= failure_lines) ++ added2),
      (new1 ++ new2).
    unfold mbind, M_bind. rewrite Hstep, Hbetween, Hrest.
    split; [done |]. split; [done |].
    split; [by rewrite Hsaid2, Hconsole, Hsaid1, <- !app_assoc |].
    split; [by rewrite Hkeys2, Hkeys1, app_assoc |].
    by rewrite !omap_app, failure_lines_no_key, Hnew1, Hnew2.
Qed.

(** X10: over the rows of a dataset, the pairs announced on the console
    are the pairs of the counters, in the order of their first use and each
    once; every counter is at least one, and the set of announced pairs is
    the set of counted pairs. *)
Theorem one_notice_per_pair (t : jsstring) (existingCols : gset jsstring)
    (rws : list raw_row) (st : state) :
  ∃ env' st' added,
    stream_rows w t existingCols empty_env rws st = (Ok env', st')
    ∧ console st' = console st ++ added
    ∧ omap notice_key added = (env_counts env').*1
    ∧ NoDup (env_counts env').*1
    ∧ Forall (λ kc, (0 < kc.2)%nat) (env_counts env')
    ∧ env_logged env' = list_to_set (env_counts env').*1.
Proof.
  destruct (stream_rows_ledger t existingCols rws empty_env st)
    as (env' & st' & added & new & Hrun & [Hlogged Hpositive] & Hsaid & Hkeys & Hnew).
  { split; [done | constructor]. }
  exists env', st', added. simpl in Hkeys.
  split; [done |]. split; [done |]. split; [by rewrite Hkeys |].
  split; [| done].
  eapply stream_rows_NoDup; [| exact Hrun]. constructor.
Qed.

End Notices.

(** ** A load from its first statement to its last *)

Section WholeLoad.
Context (w : World).

Lemma prepare_Ok_inv t headers st cols st1 :
  prepare w t headers st = (Ok cols, st1) →
  ∃ st0, ensureTableSchema w t headers st = (Ok cols, st0)
         ∧ st1 = after_clear t st0.
Proof.
  unfold prepare. intros H.
  apply bind_inv in H as [(c & st0 & Hsync & H) | (e & _ & ?)]; [| done].
  apply bind_inv in H as [([] & st2 & Hclear & Hret) | (e & _ & ?)]; [| done].
  injection Hret as -> ->. exists st0. split; [done |].
  unfold clear_for_overwrite, overWriteMode in Hclear.
  apply bind_inv in Hclear as [([] & st3 & Hbegin & Hclear) | (e & _ & ?)]; [| done].
  unfold execSQL in Hbegin.
  destruct (db_fails w (issued st0) BeginImmediate) eqn:Hb; [done |].
  simpl in Hbegin. injection Hbegin as <-.
  unfold on_error, mbind, M_bind, execSQL, log in Hclear. simpl in Hclear.
  destruct (db_fails w (BeginImmediate :: issued st0) (DeleteFrom t)) eqn:Hd;
    simpl in Hclear.
  - by destruct (db_fails w _ Rollback).
  - by injection Hclear as <-.
Qed.


End WholeLoad.


(** ** How a dataset and a run end *)

Section Endings.
Context (w : World).

(** The ways a promise that streams a dataset can go. *)
Lemma promise_inv name t promise ev st out st' :
  streams_dataset w name t promise →
  promise ev st = (out, st') →
  (ev_headers ev = None
   ∧ ((ev_end ev = StreamError ∧ out = Rejected ParserError
       ∧ same_store st st')
      ∨ (ev_end ev = StreamEnd ∧ out = Pending ∧ st' = st)))
  ∨ (ev_headers ev = Some [] ∧ out = Rejected NoHeaders)
  ∨ ∃ headers, ev_headers ev = Some headers ∧ headers ≠ [] ∧
      ((∃ e, prepare w t headers st = (Err e, st') ∧ out = Rejected e)
       ∨ ∃ cols st1 ins,
           prepare w t headers st = (Ok cols, st1)
           ∧ Forall (is_insert t) ins
           ∧ out = match ev_end ev with
                   | StreamError => Rejected ParserError
                   | StreamEnd =>
                       if db_fails w (ins ++ issued st1) Commit
                       then Pending else Resolved
                   end
           ∧ issued st' = match ev_end ev with
                          | StreamError => ins ++ issued st1
                          | StreamEnd => Commit :: ins ++ issued st1
                          end
           ∧ txn st' = match ev_end ev with
                       | StreamError => txn st1
                       | StreamEnd =>
                           if db_fails w (ins ++ issued st1) Commit
                           then txn st1 else None
                       end).
Proof.
  intros Hpromise Hrun. destruct ev as [[headers |] rws fin]; simpl.
  2:{ left. split; [done |].
      destruct Hpromise as [-> | ->]; unfold remote_promise, local_promise in Hrun;
        simpl in Hrun; destruct fin; injection Hrun as <- <-;
        first [by right | left; by repeat split]. }
  right. destruct (decide (headers = [])) as [-> | Hne].
  { left. split; [done |].
    by destruct Hpromise as [-> | ->]; injection Hrun as <- _. }
  right. exists headers. split; [done |]. split; [done |].
  destruct (prepare w t headers st) as [[cols | e] st1] eqn:Hprepare.
  2:{ left. exists e.
      destruct Hpromise as [-> | ->]; unfold remote_promise, local_promise in Hrun;
        simpl in Hrun; rewrite decide_False in Hrun by done;
        rewrite Hprepare in Hrun; by injection Hrun as <- <-. }
  right.
  destruct (promise_streaming w name t promise headers rws fin st cols st1
              Hpromise Hne Hprepare)
    as (env & st2 & out' & st3 & landed & Hstream & Hrun' & _ & _ & _
        & Hout & Hissued & Htxn).
  rewrite Hrun in Hrun'. injection Hrun' as -> ->.
  destruct (stream_rows_spec w t cols rws empty_env st1)
    as (env' & st2' & ins & Hstream' & Htxn2 & Hissued2 & Hins).
  rewrite Hstream in Hstream'. injection Hstream' as <- <-.
  destruct (land_list_frame landed st3) as (-> & -> & _).
  rewrite Hissued2, ?Htxn2 in Hout, Hissued, Htxn. rewrite Htxn2 in Htxn.
  by exists cols, st1, ins.
Qed.

(** X12: a promise that streams a dataset resolves only with the
    transaction closed by a [COMMIT] that the store accepted as the last
    statement. When the clear went through and the promise does not resolve,
    for a stream error or a refused [COMMIT], the transaction is left open:
    no [ROLLBACK] is among the statements sent since. *)
Theorem resolved_iff_committed (name t : jsstring) (ev : csv_events)
    (st st' : state) (out : settled)
    (promise : csv_events → state → settled * state) :
  streams_dataset w name t promise →
  promise ev st = (out, st') →
  (out = Resolved →
     txn st' = None
     ∧ ∃ hist, issued st' = Commit :: hist ∧ db_fails w hist Commit = false)
  ∧ (∀ headers cols st1,
       ev_headers ev = Some headers → headers ≠ [] →
       prepare w t headers st = (Ok cols, st1) →
       out ≠ Resolved →
       is_Some (txn st') ∧ txn st' = txn st1
       ∧ ∃ new, issued st' = new ++ issued st1 ∧ Rollback ∉ new).
Proof.
  intros Hpromise Hrun.
  destruct (promise_inv name t promise ev st out st' Hpromise Hrun)
    as [[Hnone Hout] | [[Hempty ->] | (headers & Hh & Hne & Hcases)]].
  - destruct Hout as [(_ & -> & _) | (_ & -> & _)];
      (split; [done |]); intros ? ? ? ?; congruence.
  - split; [done |]. intros ? ? ? Hh' Hne'. rewrite Hempty in Hh'.
    by injection Hh' as <-.
  - destruct Hcases as [(e & Hprepare & ->)
                       | (cols & st1 & ins & Hprepare & Hins & Hout & Hissued & Htxn)].
    { split; [done |]. intros ? ? ? Hh' _ Hp. rewrite Hh in Hh'.
      injection Hh' as <-. congruence. }
    assert (Hnoroll : Rollback ∉ ins).
    { intros Hin. rewrite Forall_forall in Hins. by destruct (Hins _ Hin). }
    pose proof Hprepare as Hopen.
    apply prepare_Ok_inv in Hopen as (st0 & _ & Hst1).
    assert (Htxn1 : is_Some (txn st1)) by (rewrite Hst1; by eexists).
    split.
    + intros ->. destruct (ev_end ev); [| done].
      destruct (db_fails w (ins ++ issued st1) Commit) eqn:Hcommit; [done |].
      split; [done |]. by exists (ins ++ issued st1).
    + intros ? ? ? Hh' _ Hp Hout'. rewrite Hh in Hh'.
      injection Hh' as <-. rewrite Hprepare in Hp. injection Hp as <- <-.
      destruct (ev_end ev).
      * destruct (db_fails w (ins ++ issued st1) Commit) eqn:Hcommit; [| done].
        rewrite Htxn, Hissued. split; [done |]. split; [done |].
        exists (Commit :: ins). split; [done |].
        by intros [? | Hin]%elem_of_cons.
      * rewrite Htxn, Hissued. split; [done |]. split; [done |].
        by exists ins.
Qed.

End Endings.

(** The consumer price index over an empty store: the promise resolves, and
    the last statement is the [COMMIT]. *)
Lemma resolved_iff_committed_witness :
  ∃ st',
    remote_promise cpi_world (js "CPI") (js "CPI")
      (CsvEvents (Some [js "REF DATE"; js "VALUE"])
         [[(js "REF DATE", Some (js "2020-01")); (js "VALUE", Some (js "100.2"))]]
         StreamEnd)
      initial_state
    = (Resolved, st')
    ∧ txn st' = None
    ∧ ∃ hist, issued st' = Commit :: hist.
Proof.
  eexists (remote_promise cpi_world (js "CPI") (js "CPI")
             (CsvEvents (Some [js "REF DATE"; js "VALUE"])
                [[(js "REF DATE", Some (js "2020-01"));
                  (js "VALUE", Some (js "100.2"))]]
                StreamEnd)
             initial_state).2.
  assert (Hrun :
    remote_promise cpi_world (js "CPI") (js "CPI")
      (CsvEvents (Some [js "REF DATE"; js "VALUE"])
         [[(js "REF DATE", Some (js "2020-01")); (js "VALUE", Some (js "100.2"))]]
         StreamEnd)
      initial_state
    = (Resolved,
       (remote_promise cpi_world (js "CPI") (js "CPI")
          (CsvEvents (Some [js "REF DATE"; js "VALUE"])
             [[(js "REF DATE", Some (js "2020-01"));
               (js "VALUE", Some (js "100.2"))]]
             StreamEnd)
          initial_state).2)) by (by vm_compute).
  split; [exact Hrun |].
  destruct (resolved_iff_committed cpi_world (js "CPI") (js "CPI") _ _ _ _
              (remote_promise cpi_world (js "CPI") (js "CPI"))
              (or_introl eq_refl) Hrun) as [Hres _].
  destruct (Hres eq_refl) as (Htxn & hist & Hissued & _).
  split; [exact Htxn | by exists hist].
Defined.

(** ** Stalls, and runs that get through the list *)

Section Runs.
Context (w : World).

(** A promise that streams a dataset stays pending for one of two reasons. *)
Lemma promise_pending_inv name t promise ev st st' :
  streams_dataset w name t promise →
  promise ev st = (Pending, st') →
  (ev_headers ev = None ∧ ev_end ev = StreamEnd ∧ st' = st)
  ∨ (is_Some (txn st')
     ∧ ∃ hist, issued st' = Commit :: hist ∧ db_fails w hist Commit = true).
Proof.
  intros Hpromise Hrun.
  destruct (promise_inv w name t promise ev st Pending st' Hpromise Hrun)
    as [[Hnone [(_ & ? & _) | (Hend & _ & ->)]]
       | [[_ ?] | (headers & Hh & Hne & Hcases)]]; [done | by left | done |].
  destruct Hcases as [(e & _ & ?)
                     | (cols & st1 & ins & Hprepare & _ & Hout & Hissued & Htxn)];
    [done |].
  destruct (ev_end ev); [| done].
  destruct (db_fails w (ins ++ issued st1) Commit) eqn:Hcommit; [| done].
  right. split; [| by exists (ins ++ issued st1)].
  apply prepare_Ok_inv in Hprepare as (st0 & _ & ->).
  rewrite Htxn. by eexists.
Qed.

Lemma prepare_Ok_accepted t headers st cols st1 :
  prepare w t headers st = (Ok cols, st1) →
  ∃ hist, issued st1 = cleared t hist
          ∧ db_fails w hist BeginImmediate = false
          ∧ db_fails w (BeginImmediate :: hist) (DeleteFrom t) = false.
Proof.
  unfold prepare. intros H.
  apply bind_inv in H as [(c & st0 & Hsync & H) | (e & _ & ?)]; [| done].
  apply bind_inv in H as [([] & st2 & Hclear & Hret) | (e & _ & ?)]; [| done].
  injection Hret as -> ->. exists (issued st0).
  unfold clear_for_overwrite, overWriteMode in Hclear.
  apply bind_inv in Hclear as [([] & st3 & Hbegin & Hclear) | (e & _ & ?)]; [| done].
  unfold execSQL in Hbegin.
  destruct (db_fails w (issued st0) BeginImmediate) eqn:Hb; [done |].
  simpl in Hbegin. injection Hbegin as <-.
  unfold on_error, mbind, M_bind, execSQL, log in Hclear. simpl in Hclear.
  destruct (db_fails w (BeginImmediate :: issued st0) (DeleteFrom t)) eqn:Hd;
    simpl in Hclear.
  - by destruct (db_fails w _ Rollback).
  - by injection Hclear as <-.
Qed.

(** X13: an ingester leaves its caller waiting in two cases only. Either
    the parser ended the stream without a [headers] event and without an
    error, and then the store is as it was; or the store refused the
    [COMMIT] of the [end] handler, and then the transaction is open. *)
Theorem stall_causes (name src : jsstring) (index : nat)
    (ingester : state → settled * state) (st st' : state) :
  ingests_dataset w name src index ingester →
  ingester st = (Pending, st') →
  (same_store st st'
   ∧ ∃ text, ev_headers (csvParser w text) = None
             ∧ ev_end (csvParser w text) = StreamEnd)
  ∨ (is_Some (txn st')
     ∧ ∃ hist, issued st' = Commit :: hist ∧ db_fails w hist Commit = true).
Proof.
  intros [-> | ->] Hrun.
  - unfold downloadCsvToSqlite in Hrun.
    destruct (fetch w src) as [| [|] data]; [done | | done].
    apply (promise_pending_inv name (sanitizeTableName name)) in Hrun
      as [(Hnone & Hend & ->) | Hcommit]; [| by right | by left].
    left. split; [by destruct (detected data) | by exists (payload data)].
  - unfold ingestLocalCsv in Hrun.
    destruct (readFileSync w src) as [raw |]; [| done].
    apply (promise_pending_inv name (sanitizeTableName name)) in Hrun
      as [(Hnone & Hend & ->) | Hcommit]; [| by right | by right].
    left. split; [by destruct (detected raw) | by exists (payload raw)].
Qed.

(** When the stream of the source speaks and the store accepts the
    [COMMIT] of a load, a download settles. *)
Lemma download_settles name url index st :
  speaks w url → commits_loads w →
  (downloadCsvToSqlite w name url index st).1 ≠ Pending.
Proof.
  intros Hspeaks Hcommit Hpending.
  destruct (downloadCsvToSqlite w name url index st) as [out st'] eqn:Hrun.
  simpl in Hpending. subst out. unfold downloadCsvToSqlite in Hrun.
  destruct (fetch w url) as [| [|] data] eqn:Hfetch; [done | | done].
  apply (promise_inv w name (sanitizeTableName name)) in Hrun
    as [[Hnone [(_ & ? & _) | (Hend & _)]]
       | [[_ ?] | (headers & Hh & Hne & Hcases)]]; [done | | done | | by left].
  - apply (Hspeaks data Hfetch) in Hnone. congruence.
  - destruct Hcases as [(e & _ & ?)
                       | (cols & st1 & ins & Hprepare & Hins & Hout & _)];
      [done |].
    apply prepare_Ok_accepted in Hprepare as (hist & Hissued & Hbegin & Hdelete).
    rewrite Hissued, (Hcommit _ _ _ Hbegin Hdelete Hins) in Hout.
    by destruct (ev_end _).
Qed.

(** X14: a list of remote sources only is gone through to its end, and
    every name is entered in [indexMap], whatever the downloads answer and
    whatever the store refuses of the schema statements, the clears and the
    inserts, as long as the stream of no source of the list is ended without
    headers and without error, and the store accepts the [COMMIT] of a
    transaction that it let begin and clear the relation: every rejection
    is caught. *)
Theorem remote_run_completes (listToGet : list (jsstring * jsstring))
    (index : nat) (st : state) :
  commits_loads w →
  Forall (λ entry, isRemoteUrl entry.2 = true ∧ speaks w entry.2) listToGet →
  completed (main_loop w index listToGet st) = true
  ∧ visited (main_loop w index listToGet st) = listToGet.*1.
Proof.
  intros Hcommit Hall. revert index st.
  induction Hall as [| [name url] rest [Hremote Hspeaks] _ IH]; intros index st;
    [done |].
  cbn [main_loop]. simpl in Hremote, Hspeaks. rewrite Hremote.
  pose proof (download_settles name url index st Hspeaks Hcommit) as Hsettles.
  destruct (downloadCsvToSqlite w name url index st) as [[| e |] st1];
    [| | done]; cbn [enter completed visited fmap list_fmap];
    (split; [apply IH | f_equal; apply IH]).
Qed.

(** X15: datasets whose source cannot be had (the download throws or is
    answered with a bad status, the local file is not there) cost nothing:
    the run goes through the whole list, sends the store no statement and
    leaves it as it was. *)
Theorem unavailable_sources_skipped (listToGet : list (jsstring * jsstring))
    (index : nat) (st : state) :
  Forall (λ entry, source_fails w entry.2 = true) listToGet →
  completed (main_loop w index listToGet st) = true
  ∧ visited (main_loop w index listToGet st) = listToGet.*1
  ∧ same_store st (final (main_loop w index listToGet st)).
Proof.
  intros Hall. revert index st.
  induction Hall as [| [name src] rest Hfails _ IH]; intros index st; [done |].
  cbn [main_loop]. unfold source_fails in Hfails. simpl in Hfails.
  destruct (isRemoteUrl src).
  - unfold downloadCsvToSqlite.
    destruct (fetch w src) as [| [|] data]; [| done |];
      cbn [enter completed visited final fmap list_fmap];
      (destruct (IH (S index)
                  (log (LogFetchFailed name) (log (LogFetching index name) st).2).2)
         as (Hdone & Hvisited & Htabs & Htxn & Hissued));
      (split; [done |]); (split; [by f_equal |]); by repeat split.
  - rewrite Hfails. cbn [enter completed visited final fmap list_fmap].
    destruct (IH (S index) (log (LogLocalNotFound src name) st).2)
      as (Hdone & Hvisited & Htabs & Htxn & Hissued).
    split; [done |]. split; [by f_equal |]. by repeat split.
Qed.

(** X16: [indexMap] holds the names of a front part of the list, in the
    order of the list; it holds them all when the loop was left at its end,
    and at least one when it was left before. *)
Theorem index_map_is_front (listToGet : list (jsstring * jsstring))
    (index : nat) (st : state) :
  ∃ rest,
    listToGet.*1 = visited (main_loop w index listToGet st) ++ rest
    ∧ (completed (main_loop w index listToGet st) = true → rest = [])
    ∧ (completed (main_loop w index listToGet st) = false →
       visited (main_loop w index listToGet st) ≠ []).
Proof.
  revert index st.
  induction listToGet as [| [name src] rest IH]; intros index st.
  { exists []. by repeat split. }
  assert (Hgo : ∀ st1,
    ∃ rest',
      ((name, src) :: rest).*1
      = visited (enter name (main_loop w (S index) rest st1)) ++ rest'
      ∧ (completed (enter name (main_loop w (S index) rest st1)) = true →
         rest' = [])
      ∧ (completed (enter name (main_loop w (S index) rest st1)) = false →
         visited (enter name (main_loop w (S index) rest st1)) ≠ [])).
  { intros st1. destruct (IH (S index) st1) as (rest' & Hnames & Hdone & _).
    exists rest'. cbn [enter completed visited fmap list_fmap].
    split; [by rewrite Hnames |]. by split. }
  assert (Hstop : ∀ st1,
    ∃ rest',
      ((name, src) :: rest).*1 = visited (enter name (Run [] false st1)) ++ rest'
      ∧ (completed (enter name (Run [] false st1)) = true → rest' = [])
      ∧ (completed (enter name (Run [] false st1)) = false →
         visited (enter name (Run [] false st1)) ≠ [])).
  { intros st1. exists rest.*1. by repeat split. }
  cbn [main_loop]. destruct (isRemoteUrl src).
  - destruct (downloadCsvToSqlite w name src index st) as [[| e |] st1];
      [apply Hgo | apply Hgo | apply Hstop].
  - destruct (existsSync w src); cbn [negb]; [| apply Hgo].
    destruct (ingestLocalCsv w name src _) as [[| e |] st1];
      [apply Hgo | apply Hstop | apply Hstop].
Qed.

End Runs.

(** A download of an empty body never settles and leaves the store alone. *)
Lemma stall_causes_witness :
  same_store initial_state
    (downloadCsvToSqlite silent_world (js "CPI") (js "https://host/cpi.csv") 0
       initial_state).2.
Proof.
  destruct (stall_causes silent_world (js "CPI") (js "https://host/cpi.csv") 0
              (downloadCsvToSqlite silent_world (js "CPI")
                 (js "https://host/cpi.csv") 0)
              initial_state
              (downloadCsvToSqlite silent_world (js "CPI")
                 (js "https://host/cpi.csv") 0 initial_state).2)
    as [[Hsame _] | [_ (hist & Hissued & _)]].
  - by left.
  - by vm_compute.
  - exact Hsame.
  - by vm_compute in Hissued.
Defined.

(** Inserts do not open or close a transaction. *)
Lemma txn_open_inserts t ins hist :
  Forall (is_insert t) ins → txn_open (ins ++ hist) = txn_open hist.
Proof. induction 1 as [| s ins [r ->] _ IH]; [done | exact IH]. Qed.

(** The store that keeps to its transactions accepts the [COMMIT] of a
    load. *)
Lemma strict_world_commits : commits_loads strict_world.
Proof.
  intros t ins hist _ _ Hins. simpl.
  by rewrite (txn_open_inserts t ins (cleared t hist) Hins).
Qed.

(** The consumer price index and an address that is not served, with the
    store that keeps to its transactions and the parser that is silent on an
    empty text: both are visited. *)
Lemma remote_run_completes_witness :
  completed (main_loop strict_world 0
               [(js "CPI", js "https://host/cpi.csv");
                (js "X", js "https://host/missing.csv")] initial_state) = true
  ∧ visited (main_loop strict_world 0
               [(js "CPI", js "https://host/cpi.csv");
                (js "X", js "https://host/missing.csv")] initial_state)
    = [js "CPI"; js "X"].
Proof.
  apply (remote_run_completes strict_world
           [(js "CPI", js "https://host/cpi.csv");
            (js "X", js "https://host/missing.csv")] 0 initial_state).
  - exact strict_world_commits.
  - apply Forall_cons. split.
    { split; [by vm_compute |]. intros data Hfetch.
      vm_compute in Hfetch. injection Hfetch as <-. by vm_compute. }
    apply Forall_cons. split; [| by apply Forall_nil].
    split; [by vm_compute |]. intros data Hfetch. by vm_compute in Hfetch.
Defined.

(** A download that throws and a file that is not there. *)
Lemma unavailable_sources_skipped_witness :
  completed (main_loop (calm_world []) 0
               [(js "A", js "https://host/a.csv"); (js "B", js "./b.csv")]
               initial_state) = true
  ∧ visited (main_loop (calm_world []) 0
               [(js "A", js "https://host/a.csv"); (js "B", js "./b.csv")]
               initial_state)
    = [js "A"; js "B"]
  ∧ same_store initial_state
      (final (main_loop (calm_world []) 0
                [(js "A", js "https://host/a.csv"); (js "B", js "./b.csv")]
                initial_state)).
Proof.
  apply (unavailable_sources_skipped (calm_world [])
           [(js "A", js "https://host/a.csv"); (js "B", js "./b.csv")]
           0 initial_state).
  repeat constructor.
Defined.

(** * Properties of the exporter of [update.js] *)

(** ** Quoting for SQL *)

Section Quoting.

Lemma double_apostrophes_cons c s :
  double_apostrophes (c :: s)
  = (if c =? apostrophe then [apostrophe; apostrophe] else [c])
    ++ double_apostrophes s.
Proof. done. Qed.

(** The reader undoes the doubling, up to the closing apostrophe. *)
Lemma read_body_quoted s rest :
  ends_literal rest →
  read_body (double_apostrophes s ++ apostrophe :: rest) = Some (s, rest).
Proof.
  intros Hrest. induction s as [| c s IH].
  - simpl. destruct rest as [| d rest]; [done |].
    simpl in Hrest. by apply N.eqb_neq in Hrest as ->.
  - rewrite double_apostrophes_cons, <- app_assoc.
    destruct (c =? apostrophe) eqn:Hc.
    + apply N.eqb_eq in Hc as ->.
      change (read_body ([apostrophe; apostrophe] ++ ?x))
        with (prod_map (cons apostrophe) id <$> read_body x).
      by rewrite IH.
    + change (read_body ([c] ++ ?x)) with (read_body (c :: x)).
      cbn [read_body]. rewrite Hc. by rewrite IH.
Qed.

(** X17: what [sqlQuote] returns is one SQL text literal, and the store
    reads it as the text that was quoted, whatever apostrophes that text
    holds: the literal ends where the quoted text ends. *)
Theorem sqlQuote_reads_back (s rest : jsstring) :
  ends_literal rest →
  read_literal (sqlQuote s ++ rest) = Some (s, rest).
Proof.
  intros Hrest. unfold sqlQuote.
  change (read_literal ((apostrophe :: ?x) ++ rest))
    with (read_body (x ++ rest)).
  rewrite <- app_assoc. by apply read_body_quoted.
Qed.

Lemma quote_entries_snoc es e out :
  quote_entries (es ++ [e]) out = add_quoted (quote_entries es out) e.
Proof. unfold quote_entries. by rewrite foldl_app. Qed.

Lemma quote_entries_variant es out k v :
  NoDup es.*1 → (k, v) ∈ es →
  quote_entries es out !! (js "q_" ++ k) = Some (sqlQuote v).
Proof.
  induction es as [| [k' v'] es IH] using rev_ind; intros Hnodup Hin.
  { by apply elem_of_nil in Hin. }
  rewrite quote_entries_snoc. unfold add_quoted. cbn [fst snd].
  rewrite fmap_app in Hnodup. apply NoDup_app in Hnodup as (Hnodup & Hfresh & _).
  apply elem_of_app in Hin as [Hin | Hin].
  - rewrite lookup_insert_ne; [by apply IH |].
    intros Heq. apply app_inv_head in Heq as ->.
    apply (Hfresh k); [| by left].
    apply list_elem_of_fmap. by exists (k, v).
  - apply list_elem_of_singleton in Hin as [= -> ->]. by rewrite lookup_insert_eq.
Qed.

Lemma quote_entries_other es out j :
  (∀ k v, (k, v) ∈ es → j ≠ js "q_" ++ k) →
  quote_entries es out !! j = out !! j.
Proof.
  induction es as [| [k' v'] es IH] using rev_ind; intros Hother; [done |].
  rewrite quote_entries_snoc. unfold add_quoted. cbn [fst snd].
  rewrite lookup_insert_ne.
  - apply IH. intros k v Hin. apply (Hother k v), elem_of_app. by left.
  - intros Heq. apply (Hother k' v'); [| done]. apply elem_of_app. right. by left.
Qed.

(** X18: [withQuotedVariants] gives every parameter [k] a companion
    [q_k] that holds its quoted value, also when [params] has a parameter of
    the name [q_k] itself, which is lost; every other name keeps what it had
    in [params]. The order of [Object.entries] has no part in it. *)
Theorem withQuotedVariants_lookup (params : gmap jsstring jsstring) :
  (∀ k v, params !! k = Some v →
          withQuotedVariants params !! (js "q_" ++ k) = Some (sqlQuote v))
  ∧ (∀ j, (∀ k, j = js "q_" ++ k → params !! k = None) →
          withQuotedVariants params !! j = params !! j).
Proof.
  split.
  - intros k v Hk. apply quote_entries_variant.
    + apply NoDup_fst_map_to_list.
    + by apply elem_of_map_to_list.
  - intros j Hj. apply quote_entries_other.
    intros k v Hin%elem_of_map_to_list ->.
    specialize (Hj k eq_refl). congruence.
Qed.

End Quoting.

(** A text with an apostrophe, in front of a comma. *)
Lemma sqlQuote_reads_back_witness :
  read_literal (sqlQuote (js "l'eau") ++ js ", 1") = Some (js "l'eau", js ", 1").
Proof. apply (sqlQuote_reads_back (js "l'eau") (js ", 1")). by vm_compute. Defined.

(** ** Placeholders *)

Section Placeholders.
Context (inherited : jsstring → option jsstring).

Lemma span_run_stop P r x t :
  P x = false →
  span_run P (r ++ x :: t) = ((span_run P r).1, (span_run P r).2 ++ x :: t).
Proof.
  intros Hx. induction r as [| d r IH]; simpl.
  - by rewrite Hx.
  - destruct (P d); [| done]. rewrite IH. by destruct (span_run P r).
Qed.

Lemma span_run_all P r :
  Forall (λ d, P d = true) r → span_run P r = (r, []).
Proof.
  induction 1 as [| d r Hd _ IH]; simpl; [done |]. by rewrite Hd, IH.
Qed.

Lemma span_run_length P r :
  (length (span_run P r).1 + length (span_run P r).2 = length r)%nat.
Proof.
  induction r as [| d r IH]; simpl; [done |].
  destruct (P d); [| done]. destruct (span_run P r). simpl in *. lia.
Qed.

(** A brace that opens behind the run closes nothing. *)
Lemma run_then_close_open P c r t :
  P 123 = false →
  run_then_close P c (r ++ 123 :: t) = run_then_close P c r.
Proof.
  intros HP. unfold run_then_close. rewrite span_run_stop by done.
  destruct (span_run P r) as [run [| d rest]]; simpl; done.
Qed.

Lemma run_then_close_length P c r key len :
  run_then_close P c r = Some (key, len) → (len ≤ 3 + length r)%nat.
Proof.
  unfold run_then_close. pose proof (span_run_length P r) as Hlen.
  destruct (span_run P r) as [run [| d rest]]; [done |].
  destruct (d =? 125); [| done]. intros [= _ <-]. simpl in Hlen. lia.
Qed.

(** A match lies within the text up to the next opening brace. *)
Lemma object_placeholder_open p t :
  p ≠ [] → object_placeholder (p ++ 123 :: t) = object_placeholder p.
Proof.
  intros Hp. destruct p as [| a [| b [| c r]]]; [done | | |].
  - simpl. destruct t; [done |]. by rewrite andb_false_r.
  - cbn [app object_placeholder]. by rewrite andb_false_r.
  - cbn [app object_placeholder].
    destruct ((a =? 123) && (b =? 36) && is_ident_start c); [| done].
    by apply run_then_close_open.
Qed.

Lemma object_placeholder_length p key len :
  object_placeholder p = Some (key, len) → (len ≤ length p)%nat.
Proof.
  destruct p as [| a [| b [| c r]]]; [done.. |]. cbn [object_placeholder].
  destruct ((a =? 123) && (b =? 36) && is_ident_start c); [| done].
  intros H%run_then_close_length. simpl. lia.
Qed.

Lemma placeholder_length k : length (placeholder k) = (3 + length k)%nat.
Proof. unfold placeholder. rewrite !length_app. simpl. lia. Qed.

Lemma object_placeholder_here k post :
  is_identifier k →
  object_placeholder (placeholder k ++ post) = Some (k, length (placeholder k)).
Proof.
  destruct k as [| c r]; [done |]. intros [Hc Hr].
  rewrite placeholder_length.
  change (placeholder (c :: r) ++ post) with (123 :: 36 :: c :: (r ++ [125]) ++ post).
  cbn [object_placeholder]. rewrite Hc. cbn [N.eqb Pos.eqb andb].
  unfold run_then_close. rewrite <- app_assoc.
  change ([125] ++ post) with (125 :: post).
  rewrite span_run_stop by done. rewrite span_run_all by done. simpl.
  do 3 f_equal.
Qed.

(** Passing over code units and dropping them are the same. *)
Lemma replace_placeholders_skip values fb skip idx s :
  replace_placeholders inherited values fb skip idx s
  = replace_placeholders inherited values fb 0 idx (drop skip s).
Proof.
  revert skip. induction s as [| c r IH]; intros [| k]; try done.
  - cbn [replace_placeholders drop]. apply IH.
Qed.

(** The text in front of an opening brace is replaced on its own. *)
Lemma replace_placeholders_open props fb idx a t : ∀ skip,
  (skip ≤ length a)%nat →
  replace_placeholders inherited (Obj props) fb skip idx (a ++ 123 :: t)
  = replace_placeholders inherited (Obj props) fb skip idx a
    ++ replace_placeholders inherited (Obj props) fb 0 idx (123 :: t).
Proof.
  induction a as [| c r IH]; intros skip Hskip.
  { simpl in Hskip. by replace skip with 0%nat by lia. }
  destruct skip as [| k].
  - change ((c :: r) ++ 123 :: t) with (c :: (r ++ 123 :: t)).
    cbn [replace_placeholders placeholder_at placeholder_value].
    change (c :: (r ++ 123 :: t)) with ((c :: r) ++ 123 :: t).
    rewrite object_placeholder_open by done.
    destruct (object_placeholder (c :: r)) as [[key len] |] eqn:Hmatch.
    + apply object_placeholder_length in Hmatch. simpl in Hmatch.
      rewrite IH by lia. rewrite app_assoc. f_equal. f_equal.
      destruct (property inherited props key); [done |]. destruct fb; [| done].
      rewrite take_app_le; [done |]. simpl. lia.
    + rewrite IH by (simpl; lia). done.
  - change ((c :: r) ++ 123 :: t) with (c :: (r ++ 123 :: t)).
    cbn [replace_placeholders]. apply IH. simpl in Hskip. lia.
Qed.

Lemma replace_placeholders_here props fb idx k post :
  is_identifier k →
  replace_placeholders inherited (Obj props) fb 0 idx (placeholder k ++ post)
  = match property inherited props k with
    | Some v => v
    | None => match fb with KeepMatch => placeholder k | Text t => t end
    end ++ replace_placeholders inherited (Obj props) fb 0 idx post.
Proof.
  intros Hk. pose proof (object_placeholder_here k post Hk) as Hmatch.
  pose proof (placeholder_length k) as Hlen.
  destruct (placeholder k ++ post) as [| c r] eqn:Htext.
  { apply (f_equal length) in Htext. rewrite length_app, Hlen in Htext. done. }
  cbn [replace_placeholders placeholder_at placeholder_value]. rewrite Hmatch.
  rewrite (replace_placeholders_skip _ _ (length (placeholder k) - 1)).
  assert (Hdrop : drop (length (placeholder k) - 1) r = post).
  { change r with (drop 1 (c :: r)). rewrite drop_drop, <- Htext.
    replace (1 + (length (placeholder k) - 1))%nat with (length (placeholder k))
      by lia.
    by rewrite drop_app_length. }
  rewrite Hdrop. f_equal.
  destruct (property inherited props k); [done |]. destruct fb; [| done].
  rewrite <- Htext. by rewrite take_app_length.
Qed.

(** X19: at a placeholder [{$k}] with a well-formed name, [interpolate]
    with an object of values splits the template: the text in front is
    interpolated as if nothing followed it, the placeholder gives the value
    of [k], or the fallback when there is none ([true] keeps the
    placeholder), and the text behind is interpolated on its own. The value
    is put in as it is: placeholders inside it are not replaced. *)
Theorem interpolate_at_placeholder (a b k : jsstring)
    (props : gmap jsstring jsstring) (fb : fallback) :
  is_identifier k →
  interpolate inherited (a ++ placeholder k ++ b) (Obj props) fb
  = interpolate inherited a (Obj props) fb
    ++ match property inherited props k with
       | Some v => v
       | None => match fb with KeepMatch => placeholder k | Text t => t end
       end
    ++ interpolate inherited b (Obj props) fb.
Proof.
  intros Hk. unfold interpolate.
  change (placeholder k ++ b) with (123 :: (36 :: k ++ js "}") ++ b).
  rewrite replace_placeholders_open by (simpl; lia). f_equal.
  by apply (replace_placeholders_here props fb 0 k b).
Qed.

Lemma is_identifier_variant k :
  Forall (λ d, is_word d = true) k → is_identifier (js "q_" ++ k).
Proof. intros Hk. split; [done |]. by constructor. Qed.

(** X20: the SQL that [runOne] builds. Where the query has the placeholder
    [{$q_k}] of a parameter [k], the SQL has the quoted value of [k], and
    the store reads there one text literal with the value of the parameter,
    whatever the value holds: apostrophes, placeholders, SQL. What stands
    in front and behind is interpolated on its own. *)
Theorem quoted_param_is_literal (a b k v : jsstring)
    (params : gmap jsstring jsstring) :
  Forall (λ d, is_word d = true) k →
  params !! k = Some v →
  sql_of inherited (a ++ placeholder (js "q_" ++ k) ++ b) params
  = sql_of inherited a params ++ sqlQuote v ++ sql_of inherited b params
  ∧ (ends_literal (sql_of inherited b params) →
     read_literal (sqlQuote v ++ sql_of inherited b params)
     = Some (v, sql_of inherited b params)).
Proof.
  intros Hk Hv. split.
  - unfold sql_of, interpolate.
    change (placeholder (js "q_" ++ k) ++ b)
      with (123 :: (36 :: (js "q_" ++ k) ++ js "}") ++ b).
    rewrite replace_placeholders_open by (simpl; lia). f_equal.
    rewrite (replace_placeholders_here _ KeepMatch 0 (js "q_" ++ k) b)
      by by apply is_identifier_variant.
    unfold property, withQuotedVariants.
    by rewrite (quote_entries_variant (map_to_list params) params k v
                  (NoDup_fst_map_to_list params)
                  (proj2 (elem_of_map_to_list params k v) Hv)).
  - intros Hends. unfold sqlQuote.
    change (read_literal ((apostrophe :: ?x) ++ ?y)) with (read_body (x ++ y)).
    rewrite <- app_assoc. by apply read_body_quoted.
Qed.

End Placeholders.

(** The placeholder of a parameter that is not there stays, the one of a
    parameter that is there goes. *)
Lemma interpolate_at_placeholder_witness :
  interpolate (λ _, None) (js "a {$x} b {$y}") (Obj {[js "y" := js "1"]}) KeepMatch
  = js "a {$x} b 1".
Proof.
  rewrite (interpolate_at_placeholder (λ _, None) (js "a {$x} b ") [] (js "y")
             {[js "y" := js "1"]} KeepMatch); [by vm_compute |].
  by vm_compute.
Defined.

(** A value that holds an apostrophe and a placeholder. *)
Lemma quoted_param_is_literal_witness :
  read_literal
    (sqlQuote (js "l'eau {$q_x}")
     ++ sql_of (λ _, None) (js " AND 1") {[js "x" := js "l'eau {$q_x}"]})
  = Some (js "l'eau {$q_x}",
          sql_of (λ _, None) (js " AND 1") {[js "x" := js "l'eau {$q_x}"]}).
Proof.
  apply (quoted_param_is_literal (λ _, None) (js "SELECT ") (js " AND 1") (js "x")
           (js "l'eau {$q_x}") {[js "x" := js "l'eau {$q_x}"]}).
  - by repeat constructor.
  - by vm_compute.
  - by vm_compute.
Defined.

(** ** Values taken in order *)

Section ValuesInOrder.
Context (inherited : jsstring → option jsstring).

Lemma array_placeholder_plain c r :
  c ≠ 123 → array_placeholder (c :: r) = None.
Proof.
  intros Hc%N.eqb_neq. destruct r as [| b [| d r]]; [done.. |].
  cbn [array_placeholder]. by rewrite Hc.
Qed.

Lemma replace_placeholders_plain items fb idx t s :
  plain t →
  replace_placeholders inherited (Arr items) fb 0 idx (t ++ s)
  = t ++ replace_placeholders inherited (Arr items) fb 0 idx s.
Proof.
  unfold plain. induction t as [| c t IH]; intros Hplain; [done |].
  apply not_elem_of_cons in Hplain as [Hc Hplain].
  change ((c :: t) ++ s) with (c :: (t ++ s)).
  cbn [replace_placeholders placeholder_at].
  rewrite array_placeholder_plain by done. by rewrite IH.
Qed.

Lemma replace_placeholders_next items fb idx v s :
  items !! idx = Some v →
  replace_placeholders inherited (Arr items) fb 0 idx (js "{#n}" ++ s)
  = v ++ replace_placeholders inherited (Arr items) fb 0 (S idx) s.
Proof.
  intros Hv. change (js "{#n}" ++ s) with (123 :: 35 :: 110 :: 125 :: s).
  cbn [replace_placeholders placeholder_at array_placeholder placeholder_value].
  cbn [N.eqb Pos.eqb andb in_range N.leb N.compare Pos.compare Pos.compare_cont].
  rewrite bool_decide_eq_true_2 by done. by rewrite Hv.
Qed.

Lemma slots_cons t texts : slots (t :: texts) = (t ++ js "{#n}") ++ slots texts.
Proof. done. Qed.

Lemma replace_placeholders_slots items fb tail texts : ∀ idx,
  Forall plain texts → plain tail →
  (idx + length texts ≤ length items)%nat →
  replace_placeholders inherited (Arr items) fb 0 idx (slots texts ++ tail)
  = mjoin (zip_with app texts (drop idx items)) ++ tail.
Proof.
  induction texts as [| t texts IH]; intros idx Htexts Htail Hlen.
  - change (slots [] ++ tail) with tail.
    rewrite <- (app_nil_r tail) at 1.
    rewrite (replace_placeholders_plain items fb idx tail []) by done.
    by rewrite app_nil_r.
  - apply Forall_cons in Htexts as [Ht Htexts]. simpl in Hlen.
    destruct (lookup_lt_is_Some_2 items idx) as [v Hv]; [lia |].
    rewrite slots_cons, <- !app_assoc.
    rewrite replace_placeholders_plain by done.
    rewrite (replace_placeholders_next items fb idx v) by done.
    rewrite IH by (done || lia).
    rewrite (drop_S items v idx) by done. simpl. by rewrite <- !app_assoc.
Qed.

(** X21: with an array of values, the placeholders [{#n}] take the values
    in order: the first one the first value, the next one the next. A
    template of plain texts with one [{#n}] behind each comes out as the
    texts with the values behind them. *)
Theorem next_values_in_order (texts items : list jsstring) (tail : jsstring)
    (fb : fallback) :
  Forall plain texts → plain tail →
  (length texts ≤ length items)%nat →
  interpolate inherited (slots texts ++ tail) (Arr items) fb
  = mjoin (zip_with app texts items) ++ tail.
Proof.
  intros Htexts Htail Hlen. unfold interpolate.
  by rewrite replace_placeholders_slots.
Qed.

End ValuesInOrder.

(** Two slots and two values. *)
Lemma next_values_in_order_witness :
  interpolate (λ _, None) (js "x = {#n} AND y = {#n};") (Arr [js "1"; js "2"])
    (Text [])
  = js "x = 1 AND y = 2;".
Proof.
  apply (next_values_in_order (λ _, None) [js "x = "; js " AND y = "]
           [js "1"; js "2"] (js ";") (Text [])).
  - apply Forall_cons. split; [by apply (bool_decide_unpack _) |].
    apply Forall_cons. split; [by apply (bool_decide_unpack _) |].
    by apply Forall_nil.
  - by apply (bool_decide_unpack _).
  - simpl. lia.
Defined.

(** ** Scales *)

Section ScaleNames.
Context (toLowerCase : jsstring → jsstring).

Lemma by_magnitude_unit s :
  starts_with (js "unit") s = true → by_magnitude s = 1.
Proof.
  destruct s as [| c s]; [done |]. intros Hs.
  change (starts_with (js "unit") (c :: s))
    with ((117 =? c) && starts_with (js "nit") s) in Hs.
  apply andb_true_iff in Hs as [Hc%N.eqb_eq _]. by subst c.
Qed.

(** X22: the multiplier of a scalar factor is the divisor of the scale of
    the same name, once the name is trimmed: [unit] in the one and [units]
    in the other single out names that get [1] anyway. *)
Theorem scale_functions_agree (factor : option jsstring) :
  toLowerCase [] = [] →
  scalarFactorToMultiplier toLowerCase factor
  = scaleNameToDivisor toLowerCase (trim <$> factor).
Proof.
  intros Hempty. unfold scalarFactorToMultiplier.
  assert (Hnone : (if starts_with (js "unit") (toLowerCase [])
                   then 1 else by_magnitude (toLowerCase [])) = 1)
    by by rewrite Hempty.
  destruct factor as [s |]; [| done].
  cbn [default fmap option_fmap option_map]. unfold id.
  destruct (trim s) as [| c r] eqn:Htrim; [done |].
  cbn [scaleNameToDivisor].
  destruct (starts_with (js "unit") (toLowerCase (c :: r))) eqn:Hunit.
  - apply by_magnitude_unit in Hunit. by case_bool_decide.
  - case_bool_decide as Hunits; [| done]. by rewrite Hunits in Hunit.
Qed.

End ScaleNames.

(** A factor as the relations have it. *)
Lemma scale_functions_agree_witness :
  scalarFactorToMultiplier ascii_lower (Some (js " Thousands "))
  = scaleNameToDivisor ascii_lower (Some (js "Thousands")).
Proof. apply (scale_functions_agree ascii_lower (Some (js " Thousands "))). done. Defined.

(** ** Datasets by database *)

Section Grouping.

Lemma group_of_push f g ds byDb :
  group_of f (push_dataset g ds byDb)
  = if decide (g = f) then Some (default [] (group_of f byDb) ++ [ds])
    else group_of f byDb.
Proof.
  induction byDb as [| [h group] rest IH]; simpl.
  - destruct (decide (g = f)); [done |]. done.
  - destruct (decide (h = g)) as [-> | Hhg]; simpl.
    + destruct (decide (g = f)); [done | done].
    + destruct (decide (h = f)) as [-> | Hhf].
      * by destruct (decide (g = f)); [congruence |].
      * apply IH.
Qed.

Lemma push_dataset_keys g ds byDb :
  (push_dataset g ds byDb).*1
  = if decide (g ∈ byDb.*1) then byDb.*1 else byDb.*1 ++ [g].
Proof.
  induction byDb as [| [h group] rest IH]; [done |]. cbn [push_dataset].
  destruct (decide (h = g)) as [-> | Hhg]; rewrite !fmap_cons; cbn [fst].
  - rewrite decide_True; [done | by left].
  - rewrite IH. destruct (decide (g ∈ rest.*1)) as [Hin | Hout].
    + rewrite decide_True; [done | by right].
    + rewrite decide_False; [done |].
      intros [? | ?]%elem_of_cons; congruence.
Qed.

Lemma group_by_db_snoc dss ds :
  group_by_db (dss ++ [ds]) = group_step (group_by_db dss) ds.
Proof. unfold group_by_db. by rewrite foldl_app. Qed.

Lemma default_as_group l : default [] (as_group l) = l.
Proof. by destruct l. Qed.

(** X23: the first loop of [main] gives every database file one entry of
    the [Map], and the entry of a file holds the datasets of the manifest
    that have a query and name this file, in the order of the manifest: no
    dataset with a query is lost or run twice, none without is run. *)
Theorem groups_by_db (datasets : list dataset) :
  NoDup (group_by_db datasets).*1
  ∧ ∀ dbFile,
      group_of dbFile (group_by_db datasets)
      = as_group (datasets_for dbFile datasets).
Proof.
  induction datasets as [| ds dss [IHkeys IH]] using rev_ind.
  { split; [apply NoDup_nil_2 | done]. }
  rewrite group_by_db_snoc. unfold group_step, datasets_for.
  destruct (has_query ds) eqn:Hquery.
  - split.
    + rewrite push_dataset_keys. case_decide; [done |].
      apply NoDup_app. split; [done |]. split; [| apply NoDup_singleton].
      by intros x Hx ->%list_elem_of_singleton.
    + intros f. rewrite group_of_push, IH, default_as_group, filter_app.
      unfold datasets_for. rewrite filter_cons. cbn [filter list_filter].
      destruct (decide (db_file ds = f)) as [Hf | Hf].
      * rewrite decide_True by done.
        by destruct (filter _ dss).
      * rewrite decide_False by (by intros [_ ?]). by rewrite app_nil_r.
  - split; [done |]. intros f. rewrite IH, filter_app. unfold datasets_for.
    rewrite filter_cons, decide_False by (intros [? _]; congruence).
    by rewrite app_nil_r.
Qed.

End Grouping.

(** ** Placeholders without a value *)

Section Unresolved.
Context (inherited : jsstring → option jsstring).

Lemma run_then_close_positive P c r key len :
  run_then_close P c r = Some (key, len) → (0 < len)%nat.
Proof.
  unfold run_then_close. destruct (span_run P r) as [run [| d rest]]; [done |].
  destruct (d =? 125); [| done]. intros [= _ <-]. lia.
Qed.

Lemma placeholder_at_positive values s key len :
  placeholder_at values s = Some (key, len) → (0 < len)%nat.
Proof.
  destruct s as [| a [| b [| c r]]]; destruct values; try done;
    cbn [placeholder_at object_placeholder array_placeholder].
  - destruct ((a =? 123) && (b =? 35)); [| done].
    destruct (in_range 49 57 c); [apply run_then_close_positive |].
    destruct (c =? 110); [| done]. destruct r as [| d r]; [done |].
    destruct (d =? 125); [| done]. intros [= _ <-]. lia.
  - destruct ((a =? 123) && (b =? 36) && is_ident_start c); [| done].
    apply run_then_close_positive.
Qed.

Lemma replace_placeholders_keep values s : ∀ skip idx,
  (∀ key, key ∈ found_keys values skip s →
          ∀ i, (placeholder_value inherited values i key).1 = None) →
  replace_placeholders inherited values KeepMatch skip idx s = drop skip s.
Proof.
  induction s as [| c r IH]; intros skip idx Hnone; [by destruct skip |].
  destruct skip as [| k]; cbn [replace_placeholders drop]; [| by apply IH].
  cbn [found_keys] in Hnone.
  destruct (placeholder_at values (c :: r)) as [[key len] |] eqn:Hmatch.
  - apply placeholder_at_positive in Hmatch.
    pose proof (Hnone key (list_elem_of_here _ _) idx) as Hval.
    destruct (placeholder_value inherited values idx key) as [val idx'].
    simpl in Hval. subst val.
    rewrite IH by (intros key' Hin; apply Hnone; by right).
    destruct len as [| m]; [lia |]. cbn [take]. simpl.
    by rewrite Nat.sub_0_r, take_drop.
  - by rewrite (IH 0%nat idx Hnone).
Qed.

(** X24: with the fallback [true], a template comes back as it is, every
    placeholder in its place, when the values answer none of the keys that
    the pattern finds in it: neither as a property of their own nor as one
    that the prototype holds, and for an array by no item. *)
Theorem unresolved_placeholders_stay (template : jsstring) (values : js_values) :
  (∀ key, key ∈ found_keys values 0 template →
          ∀ i, (placeholder_value inherited values i key).1 = None) →
  interpolate inherited template values KeepMatch = template.
Proof. intros Hnone. unfold interpolate. by rewrite replace_placeholders_keep. Qed.

End Unresolved.

(** No parameters, under the prototype of Node.js: the names of the two
    placeholders are not among those it holds. *)
Lemma unresolved_placeholders_stay_witness :
  interpolate node_prototype (js "SELECT {$q_x}, {$y}") (Obj ∅) KeepMatch
  = js "SELECT {$q_x}, {$y}".
Proof.
  apply (unresolved_placeholders_stay node_prototype (js "SELECT {$q_x}, {$y}")
           (Obj ∅)).
  intros key Hin i.
  change (found_keys (Obj ∅) 0 (js "SELECT {$q_x}, {$y}"))
    with [js "q_x"; js "y"] in Hin.
  apply elem_of_cons in Hin as [-> | Hin]; [by vm_compute |].
  apply list_elem_of_singleton in Hin as ->. by vm_compute.
Defined.

(** The placeholder of a name that the prototype holds does not stay. *)
Example inherited_placeholder_replaced :
  interpolate node_prototype (js "{$constructor}") (Obj ∅) KeepMatch
  = js "function Object() { [native code] }".
Proof. by vm_compute. Qed.
